(** * Guardrails server (nemo-server/main.py): validation and normalisation

    A shallow embedding of the rule-based engine of [main.py]: the text
    normaliser ([normalize_text]), the blocked-pattern scan
    ([check_blocked_patterns]), the image size estimate
    ([estimate_base64_size]) and the two validators ([validate_input],
    [validate_output]).

    Python strings are sequences of Unicode code points, and [len] counts
    code points, so a string is a [list N] here.  String constants are
    written as UTF-8 literals and decoded by [u8]. *)

From Stdlib Require Import String Ascii Decimal DecimalString.
From Stdlib Require Import NArith ZArith QArith Lia Bool Arith List.
From Stdlib Require DecimalNat.
Import ListNotations.

Close Scope Q_scope.
Open Scope nat_scope.

(* ================================================================== *)
(** ** Strings as code-point sequences                                *)
(* ================================================================== *)

Definition char := N.
Definition str := list char.

Fixpoint bytes_of (s : string) : list N :=
  match s with
  | EmptyString => []
  | String a r => N_of_ascii a :: bytes_of r
  end.

(** UTF-8 decoding of well-formed input (the literals of this file). *)
Fixpoint utf8_decode (bs : list N) : str :=
  match bs with
  | [] => []
  | b :: r =>
    if (b <? 128)%N then b :: utf8_decode r
    else if (b <? 224)%N then
      match r with
      | b1 :: r' => ((b - 192) * 64 + (b1 - 128))%N :: utf8_decode r'
      | _ => []
      end
    else if (b <? 240)%N then
      match r with
      | b1 :: b2 :: r' =>
        ((b - 224) * 4096 + (b1 - 128) * 64 + (b2 - 128))%N :: utf8_decode r'
      | _ => []
      end
    else
      match r with
      | b1 :: b2 :: b3 :: r' =>
        ((b - 240) * 262144 + (b1 - 128) * 4096 + (b2 - 128) * 64
         + (b3 - 128))%N :: utf8_decode r'
      | _ => []
      end
  end.

Definition u8 (s : string) : str := utf8_decode (bytes_of s).

Definition char_eqb (a b : char) : bool := (a =? b)%N.

Fixpoint str_eqb (a b : str) : bool :=
  match a, b with
  | [], [] => true
  | x :: a', y :: b' => char_eqb x y && str_eqb a' b'
  | _, _ => false
  end.

(** [s.startswith(p)] *)
Fixpoint starts_with (p s : str) : bool :=
  match p, s with
  | [], _ => true
  | x :: p', y :: s' => char_eqb x y && starts_with p' s'
  | _ :: _, [] => false
  end.

(** [p in s] for strings, and [re.search] of a literal pattern. *)
Fixpoint contains (p s : str) : bool :=
  starts_with p s ||
  match s with
  | [] => false
  | _ :: s' => contains p s'
  end.

Fixpoint drop_while (f : char -> bool) (s : str) : str :=
  match s with
  | [] => []
  | c :: s' => if f c then drop_while f s' else s
  end.

Fixpoint take_while (f : char -> bool) (s : str) : str :=
  match s with
  | [] => []
  | c :: s' => if f c then c :: take_while f s' else []
  end.

(* ================================================================== *)
(** ** Character classes of the Python runtime                        *)
(* ================================================================== *)

(** The code points for which [str.isspace] holds; [str.strip] and the
    regular expression class [\s] (on [str] patterns) both use it. *)
Definition whitespace_chars : list char :=
  [9; 10; 11; 12; 13; 28; 29; 30; 31; 32; 133; 160; 5760;
   8192; 8193; 8194; 8195; 8196; 8197; 8198; 8199; 8200; 8201; 8202;
   8232; 8233; 8239; 8287; 12288]%N.

Definition is_space (c : char) : bool := existsb (char_eqb c) whitespace_chars.

(** The class [\d] on [str] patterns is the Unicode category Nd.  Its
    members come in runs of ten (digit zero to digit nine); the list has
    the zero of every run (Unicode 14, the tables of CPython 3.11). *)
Definition digit_zeros : list char :=
  [48; 1632; 1776; 1984; 2406; 2534; 2662; 2790; 2918; 3046; 3174; 3302;
   3430; 3558; 3664; 3792; 3872; 4160; 4240; 6112; 6160; 6470; 6608; 6784;
   6800; 6992; 7088; 7232; 7248; 42528; 43216; 43264; 43472; 43504; 43600;
   44016; 65296; 66720; 68912; 69734; 69872; 69942; 70096; 70384; 70736;
   70864; 71248; 71360; 71472; 71904; 72016; 72784; 73040; 73120; 92768;
   92864; 93008; 120782; 120792; 120802; 120812; 120822; 123200; 123632;
   125264; 130032]%N.

Definition is_digit (c : char) : bool :=
  existsb (fun z => (z <=? c)%N && (c <? z + 10)%N) digit_zeros.

(** A cased literal under [re.IGNORECASE]: the characters whose simple
    lower-case mapping is the literal, plus the extra equivalents of the
    regular expression compiler (only [s] has one: U+017F, long s). *)
Definition ci (l : list char) (c : char) : bool := existsb (char_eqb c) l.

Definition ci_p := ci [112; 80]%N.
Definition ci_f := ci [102; 70]%N.
Definition ci_c := ci [99; 67]%N.
Definition ci_o := ci [111; 79]%N.
Definition ci_s := ci [115; 83; 383]%N.

(* ================================================================== *)
(** ** [str.strip] and [re.sub]                                       *)
(* ================================================================== *)

Definition lstrip (s : str) : str := drop_while is_space s.
Definition rstrip (s : str) : str := rev (drop_while is_space (rev s)).
Definition strip (s : str) : str := rstrip (lstrip s).

(** A matcher tries the pattern at the head of the remaining text and
    answers with the replacement text and the length of the match.  No
    pattern of this program matches the empty string. *)
Definition matcher := str -> option (str * nat).

(** [re.sub]: scan from the left; where the pattern matches, emit the
    replacement and go on after the match; elsewhere copy one character.
    [skip] counts the characters of the current match still to pass. *)
Fixpoint re_sub_from (m : matcher) (skip : nat) (s : str) : str :=
  match s with
  | [] => []
  | c :: s' =>
    match skip with
    | S k => re_sub_from m k s'
    | O =>
      match m s with
      | Some (out, len) => out ++ re_sub_from m (pred len) s'
      | None => c :: re_sub_from m 0 s'
      end
    end
  end.

Definition re_sub (m : matcher) (s : str) : str := re_sub_from m 0 s.

(** A literal pattern. *)
Definition lit_match (pattern replacement : str) : matcher :=
  fun s => if starts_with pattern s
           then Some (replacement, length pattern) else None.

Fixpoint match_heads (heads : list (char -> bool)) (s : str) : option str :=
  match heads with
  | [] => Some s
  | h :: heads' =>
    match s with
    | c :: s' => if h c then match_heads heads' s' else None
    | [] => None
    end
  end.

Definition equals_sign : char := 61%N.

Definition skip_equals (s : str) : str :=
  match s with
  | c :: r => if char_eqb c equals_sign then r else s
  | [] => s
  end.

(** [<heads>\s*=?\s*(\d)] replaced by [<out>\1].  White space, [=] and
    the digits are disjoint classes, so the greedy path is the only
    match there can be at a position. *)
Definition shorthand_match (heads : list (char -> bool)) (out : str) : matcher :=
  fun s =>
    match match_heads heads s with
    | None => None
    | Some r0 =>
      match drop_while is_space (skip_equals (drop_while is_space r0)) with
      | d :: r =>
        if is_digit d then Some (out ++ [d], length s - length r) else None
      | [] => None
      end
    end.

Definition space : char := 32%N.

(** [\s+] replaced by one space. *)
Definition ws_match : matcher :=
  fun s =>
    match s with
    | c :: r =>
      if is_space c
      then Some ([space], S (length (take_while is_space r))) else None
    | [] => None
    end.

(* ================================================================== *)
(** ** Configuration                                                  *)
(* ================================================================== *)

(** [INPUT_RAILS["topical"]["allowed_topics"]] *)
Definition allowed_topics : list str := Eval vm_compute in
  map u8
    ["전기설비"; "전기공사"; "전력계통"; "시퀀스"; "PLC";
     "조명"; "역률"; "변압기"; "접지"; "KEC"; "전기기사";
     "수변전"; "배선"; "단락"; "과전류"; "누전"; "콘덴서";
     "임피던스"; "전압강하"; "광속법"; "축전지"; "태양광";
     "차단기"; "보호계전기"; "단선도"; "결선도"; "제어회로"]%string.

(** [INPUT_RAILS["topical"]["blocked_patterns"]]: every pattern is an
    alternation of literals, kept as the list of its alternatives. *)
Definition blocked_patterns : list (list str) := Eval vm_compute in
  map (map u8)
    [["욕설"; "비속어"; "공격적"];
     ["개인정보"; "주민등록"; "전화번호"; "주소"];
     ["해킹"; "크래킹"; "불법"];
     ["성적"; "음란"; "19금"]]%string.

Definition min_length : nat := 3.
Definition max_length : nat := 2000.
Definition max_size_bytes : Z := (10 * 1024 * 1024)%Z.

(** [OUTPUT_RAILS["quality"]]: 0.7 is the double nearest to 7/10. *)
Definition min_confidence : Q := (3152519739159347 # 4503599627370496)%Q.
Definition required_fields : list str := Eval vm_compute in
  map u8 ["answer"; "steps"; "formulas"]%string.

(** [OUTPUT_RAILS["si_units"]] *)
Definition si_units : list str := Eval vm_compute in
  map u8 ["V"; "A"; "W"; "Ω"; "F"; "H"; "lx"; "lm"; "cd"; "m"; "mm²";
          "kVA"; "kVar"; "kW"; "%"]%string.

Definition UNIT_MAPPINGS : list (str * str) := Eval vm_compute in
  map (fun pr => (u8 (fst pr), u8 (snd pr)))
    [("럭스", "lx");
     ("루멘", "lm");
     ("칸델라", "cd");
     ("킬로와트", "kW");
     ("와트", "W");
     ("볼트", "V");
     ("암페어", "A");
     ("옴", "Ω");
     ("제곱미터", "m²");
     ("평방미터", "m²");
     ("키로바", "kVA");
     ("케이브이에이", "kVA");
     ("키로바르", "kVar");
     ("케이바르", "kVar");
     ("퍼센트", "%");
     ("프로", "%")]%string.

Definition TYPO_MAPPINGS : list (str * str) := Eval vm_compute in
  map (fun pr => (u8 (fst pr), u8 (snd pr)))
    [("역율", "역률");
     ("조명율", "조명률");
     ("인피던스", "임피던스");
     ("코사인", "cosθ");
     ("코싸인", "cosθ");
     ("탄젠트", "tanθ");
     ("파이", "π");
     ("루트", "√")]%string.

(* ================================================================== *)
(** ** Helper functions                                               *)
(* ================================================================== *)

(** The loop [for pattern, replacement in table: normalized = re.sub(...)]. *)
Definition apply_mappings (table : list (str * str)) (s : str) : str :=
  fold_left (fun acc pr => re_sub (lit_match (fst pr) (snd pr)) acc) table s.

Definition pf_out : str := Eval vm_compute in u8 "역률 ".
Definition cos_out : str := Eval vm_compute in u8 "cosθ = ".

Definition pf_match : matcher := shorthand_match [ci_p; ci_f] pf_out.
Definition cos_match : matcher := shorthand_match [ci_c; ci_o; ci_s] cos_out.

Definition normalize_text (text : str) : str :=
  let normalized := strip text in
  let normalized := apply_mappings UNIT_MAPPINGS normalized in
  let normalized := apply_mappings TYPO_MAPPINGS normalized in
  let normalized := re_sub pf_match normalized in
  let normalized := re_sub cos_match normalized in
  let normalized := strip (re_sub ws_match normalized) in
  normalized.

Definition MSG_BLOCKED : str := Eval vm_compute in
  u8 "부적절한 내용이 포함되어 있습니다.".

(** [re.search(pattern, text, re.IGNORECASE)]: the literals of the
    blocked patterns are Hangul syllables and digits, which have no case,
    so the flag changes nothing. *)
Definition search_alternatives (pattern : list str) (text : str) : bool :=
  existsb (fun alt => contains alt text) pattern.

Fixpoint check_blocked_from (patterns : list (list str)) (text : str)
  : option str :=
  match patterns with
  | [] => None
  | pattern :: rest =>
    if search_alternatives pattern text then Some MSG_BLOCKED
    else check_blocked_from rest text
  end.

Definition check_blocked_patterns (text : str) : option str :=
  check_blocked_from blocked_patterns text.

Definition check_relevance (text : str) : bool :=
  existsb (fun topic => contains topic text) allowed_topics.

(** [float(n)] for a non-negative integer: round to 53 significant
    bits, ties to even.  The result is an integer again. *)
Definition float_of_int (n : Z) : Z :=
  (if n <? 2 ^ 53 then n
  else
    let e := Z.log2 n - 52 in
    let q := n / 2 ^ e in
    let r := n mod 2 ^ e in
    let half := 2 ^ (e - 1) in
    if r <? half then q * 2 ^ e
    else if half <? r then (q + 1) * 2 ^ e
    else if Z.even q then q * 2 ^ e
    else (q + 1) * 2 ^ e)%Z.

(** [int((len(base64_str) * 3) / 4)]: [/] is the true division of
    Python 3, which gives the double nearest to the quotient.  Four is a
    power of two, so that is the double nearest to the product, divided
    by four; [int] then truncates. *)
Definition estimate_base64_size (base64_str : str) : Z :=
  (float_of_int (Z.of_nat (length base64_str) * 3) / 4)%Z.

(* ================================================================== *)
(** ** Request and response models                                    *)
(* ================================================================== *)

(** A Python [float]. *)
Inductive pyfloat : Type :=
| Finite (q : Q)
| PosInf
| NegInf
| NaN.

(** [x < bound] for a finite bound. *)
Definition float_ltb (x : pyfloat) (bound : Q) : bool :=
  match x with
  | Finite q => negb (Qle_bool bound q)
  | NegInf => true
  | PosInf | NaN => false
  end.

(** The values a decoded JSON object can hold. *)
#[local] Unset Elimination Schemes.
Inductive pyval : Type :=
| VNone
| VBool (b : bool)
| VInt (z : Z)
| VFloat (f : pyfloat)
| VStr (s : str)
| VList (l : list pyval)
| VDict (d : list (str * pyval)).
#[local] Set Elimination Schemes.

Definition pydict := list (str * pyval).

Fixpoint dict_get (d : pydict) (key : str) : option pyval :=
  match d with
  | [] => None
  | (k, v) :: d' => if str_eqb k key then Some v else dict_get d' key
  end.

(** Truth value of [d.get(key)]. *)
Definition truthy (v : option pyval) : bool :=
  match v with
  | None | Some VNone => false
  | Some (VBool b) => b
  | Some (VInt z) => negb (z =? 0)%Z
  | Some (VFloat (Finite q)) => negb (Qeq_bool q 0)
  | Some (VFloat _) => true
  | Some (VStr s) => match s with [] => false | _ => true end
  | Some (VList l) => match l with [] => false | _ => true end
  | Some (VDict d) => match d with [] => false | _ => true end
  end.

(** Truth value of an [Optional[str]] or [Optional[list]] field. *)
Definition present {A : Type} (v : option (list A)) : bool :=
  match v with
  | Some (_ :: _) => true
  | _ => false
  end.

Record InputValidationRequest : Type := {
  text : option str;
  image_base64 : option str
}.

Record InputValidationResponse : Type := {
  valid : bool;
  errors : list str;
  normalized_text : option str
}.

Record OutputValidationRequest : Type := {
  answer : option str;
  steps : option (list pydict);
  formulas : option (list str);
  confidence : option pyfloat;
  related_kec : option (list str)
}.

Module Output.
Record OutputValidationResponse : Type := {
  valid : bool;
  warnings : list str;
  corrections : list str
}.
End Output.

(* ================================================================== *)
(** ** Messages                                                       *)
(* ================================================================== *)

Definition MSG_TOO_SHORT : str := Eval vm_compute in
  u8 "질문이 너무 짧습니다. 좀 더 구체적으로 입력해주세요.".
Definition MSG_TOO_LONG : str := Eval vm_compute in
  u8 "질문이 너무 깁니다. 2000자 이하로 입력해주세요.".
Definition MSG_IMAGE_SIZE : str := Eval vm_compute in
  u8 "이미지 크기가 10MB를 초과합니다.".
Definition MSG_NO_INPUT : str := Eval vm_compute in
  u8 "문제 텍스트 또는 이미지를 입력해주세요.".
Definition MSG_UNIT : str := Eval vm_compute in
  u8 "답에 단위가 누락된 것 같습니다.".
(** [0.7 * 100] is the double 70.0, printed as [70.0]. *)
Definition MSG_CONFIDENCE : str := Eval vm_compute in
  u8 "신뢰도가 70.0% 미만입니다.".

Definition field_suffix : str := Eval vm_compute in
  u8 " 필드가 누락되었습니다.".
Definition msg_field (field : str) : str := field ++ field_suffix.

Definition step_prefix : str := Eval vm_compute in u8 "풀이 단계 ".
Definition step_suffix : str := Eval vm_compute in
  u8 "의 제목 또는 내용이 누락되었습니다.".
Definition decimal (n : nat) : str :=
  u8 (NilEmpty.string_of_uint (Nat.to_uint n)).
Definition msg_step (position : nat) : str :=
  step_prefix ++ decimal position ++ step_suffix.

(* ================================================================== *)
(** ** The validators                                                 *)
(* ================================================================== *)

(** Appending to the error list when a condition holds. *)
Definition append_if (cond : bool) (msg : str) (l : list str) : list str :=
  if cond then l ++ [msg] else l.

Definition text_checks (normalized : str) (errors : list str) : list str :=
  let errors :=
    append_if (length normalized <? min_length) MSG_TOO_SHORT errors in
  let errors :=
    append_if (max_length <? length normalized) MSG_TOO_LONG errors in
  match check_blocked_patterns normalized with
  | Some blocked_error =>
    append_if (match blocked_error with [] => false | _ => true end)
              blocked_error errors
  | None => errors
  end.

Definition validate_input (request : InputValidationRequest)
  : InputValidationResponse :=
  let errors : list str := [] in
  let normalized : option str := None in
  (* Text validation *)
  let '(errors, normalized) :=
    match text request with
    | Some (c :: t) =>
      let n := normalize_text (c :: t) in
      (text_checks n errors, Some n)
    | _ => (errors, normalized)
    end in
  (* Image validation *)
  let errors :=
    match image_base64 request with
    | Some (c :: img) =>
      let estimated_size := estimate_base64_size (c :: img) in
      append_if (max_size_bytes <? estimated_size)%Z MSG_IMAGE_SIZE errors
    | _ => errors
    end in
  (* At least one input required *)
  let errors :=
    append_if (negb (present (text request))
               && negb (present (image_base64 request)))
              MSG_NO_INPUT errors in
  let is_valid := (length errors =? 0) in
  {| valid := is_valid; errors := errors; normalized_text := normalized |}.

(** [getattr(request, field, None)], as far as its truth value goes. *)
Definition field_present (request : OutputValidationRequest) (field : str)
  : bool :=
  if str_eqb field (u8 "answer") then present (answer request)
  else if str_eqb field (u8 "steps") then present (steps request)
  else if str_eqb field (u8 "formulas") then present (formulas request)
  else false.

Fixpoint required_warnings (request : OutputValidationRequest)
  (fields : list str) (warnings : list str) : list str :=
  match fields with
  | [] => warnings
  | field :: rest =>
    required_warnings request rest
      (append_if (negb (field_present request field))
                 (msg_field field) warnings)
  end.

Definition has_unit (a : str) : bool :=
  existsb (fun unit => contains unit a) si_units.
Definition has_number (a : str) : bool := existsb is_digit a.

(** [for i, step in enumerate(steps)], [i] counted from [i0]. *)
Fixpoint steps_warnings (i0 : nat) (l : list pydict) (warnings : list str)
  : list str :=
  match l with
  | [] => warnings
  | step :: rest =>
    steps_warnings (S i0) rest
      (append_if (negb (truthy (dict_get step (u8 "title")))
                  || negb (truthy (dict_get step (u8 "content"))))
                 (msg_step (i0 + 1)) warnings)
  end.

Definition validate_output (request : OutputValidationRequest)
  : Output.OutputValidationResponse :=
  let warnings : list str := [] in
  let corrections : list str := [] in
  (* Required fields check *)
  let warnings := required_warnings request required_fields warnings in
  (* Answer format validation *)
  let warnings :=
    match answer request with
    | Some (c :: a) =>
      append_if (has_number (c :: a) && negb (has_unit (c :: a)))
                MSG_UNIT warnings
    | _ => warnings
    end in
  (* Steps validation *)
  let warnings :=
    match steps request with
    | Some (s :: l) => steps_warnings 0 (s :: l) warnings
    | _ => warnings
    end in
  (* Confidence check *)
  let warnings :=
    match confidence request with
    | Some x => append_if (float_ltb x min_confidence) MSG_CONFIDENCE warnings
    | None => warnings
    end in
  let is_valid := (length corrections =? 0) in
  {| Output.valid := is_valid;
     Output.warnings := warnings;
     Output.corrections := corrections |}.

(* ================================================================== *)
(** ** Notions used to state the properties                           *)
(* ================================================================== *)

(** [p] occurs in [s] as a substring. *)
Definition occurs (p s : str) : Prop := exists u v, s = u ++ p ++ v.

(** The text matches one of the blocked patterns. *)
Definition blocked (s : str) : Prop :=
  exists pattern alt,
    In pattern blocked_patterns /\ In alt pattern /\ occurs alt s.

Definition str_eq_dec : forall a b : str, {a = b} + {a <> b} :=
  list_eq_dec N.eq_dec.

(** What one check contributes to the list of diagnostics. *)
Definition contribution (cond : bool) (msg : str) : list str :=
  if cond then [msg] else [].

(** The contribution of the image check. *)
Definition image_errors (request : InputValidationRequest) : list str :=
  match image_base64 request with
  | Some img =>
    contribution (present (Some img)
                  && (max_size_bytes <? estimate_base64_size img)%Z)
                 MSG_IMAGE_SIZE
  | None => []
  end.

(** Whether the blocked-pattern scan reports the text. *)
Definition blocked_b (s : str) : bool :=
  match check_blocked_patterns s with Some _ => true | None => false end.

(* ================================================================== *)
(** ** Matchers and occurrences                                       *)
(* ================================================================== *)

(** The matcher answers somewhere in [s]. *)
Definition fires (m : matcher) (s : str) : Prop :=
  exists u v, s = u ++ v /\ m v <> None.

(** A match is not empty, lies within the text, and depends on the
    matched characters only. *)
Record well_behaved (m : matcher) : Prop := {
  wb_length : forall s out len, m s = Some (out, len) -> 1 <= len <= length s;
  wb_prefix : forall s out len t,
      m s = Some (out, len) -> m (firstn len s ++ t) = Some (out, len)
}.

(** No match of [m] overlaps an occurrence of [x]: none starts inside
    it, and none that starts before it reaches into it. *)
Record apart (m : matcher) (x : str) : Prop := {
  apart_inside : forall k v, k < length x -> m (skipn k x ++ v) = None;
  apart_reach : forall u v out len,
      m (u ++ x ++ v) = Some (out, len) -> len <= length u
}.

(** One of the two strings is a prefix of the other. *)
Definition comparable (a b : str) : bool := starts_with a b || starts_with b a.

(** An occurrence of [p] could start inside an occurrence of [x]. *)
Definition starts_inside (p x : str) : bool :=
  existsb (fun k => comparable p (skipn k x)) (seq 0 (length x)).

(** An occurrence of [p] that starts before [x] could reach into it. *)
Definition reaches_in (p x : str) : bool :=
  existsb (fun k => comparable (skipn k p) x) (seq 1 (length p - 1)).

Definition touches (p x : str) : bool := starts_inside p x || reaches_in p x.

(** The characters [h] satisfy the classes [heads], one by one. *)
Definition heads_ok (heads : list (char -> bool)) (h : str) : Prop :=
  Forall2 (fun (f : char -> bool) c => f c = true) heads h.

Definition all_space (w : str) : Prop := Forall (fun c => is_space c = true) w.

(** What a match of [<heads>\s*=?\s*\d] can hold after its first
    character. *)
Definition tail_class (heads : list (char -> bool)) (c : char) : bool :=
  existsb (fun f : char -> bool => f c) (tl heads)
  || is_space c || char_eqb c equals_sign || is_digit c.

(** Every white-space character is a single space between two other
    characters or at an end. *)
Fixpoint ws_normal (s : str) : bool :=
  match s with
  | [] => true
  | c :: r =>
    (if is_space c
     then char_eqb c space
          && match r with d :: _ => negb (is_space d) | [] => true end
     else true)
    && ws_normal r
  end.

(** The literal rules in the order in which [normalize_text] applies them. *)
Definition ALL_MAPPINGS : list (str * str) := UNIT_MAPPINGS ++ TYPO_MAPPINGS.

(** The fixed texts that the rules of [normalize_text] write. *)
Definition written_texts : list str :=
  map snd ALL_MAPPINGS ++ [pf_out; cos_out; [space]].

(** No pattern of the table can overlap a written text, and no pattern
    holds a digit. *)
Definition table_ok (table : list (str * str)) : bool :=
  forallb (fun p =>
             negb (str_eqb p [])
             && forallb (fun c => negb (is_digit c)) p
             && forallb (fun o => negb (touches p o)) written_texts)
          (map fst table).

(** The Korean word of rule 13 and what [normalize_text] makes of it. *)
Definition KILOVAR_WORD : str := Eval vm_compute in u8 "키로바르".
Definition KILOVAR_RESULT : str := Eval vm_compute in u8 "kVA르".
(** Pattern and replacement of rule 11. *)
Definition KILOVA_WORD : str := Eval vm_compute in u8 "키로바".
Definition KILOVA_RESULT : str := Eval vm_compute in u8 "kVA".

(** [UNIT_MAPPINGS] without the rule at [index]. *)
Definition without_rule (index : nat) : list (str * str) :=
  firstn index UNIT_MAPPINGS ++ skipn (S index) UNIT_MAPPINGS.

(** The rules of [normalize_text], between its two [strip]s. *)
Definition rewrite_rules (s : str) : str :=
  let normalized := apply_mappings UNIT_MAPPINGS s in
  let normalized := apply_mappings TYPO_MAPPINGS normalized in
  let normalized := re_sub pf_match normalized in
  let normalized := re_sub cos_match normalized in
  re_sub ws_match normalized.

(** [sep.join(pieces)] *)
Fixpoint join (sep : str) (pieces : list str) : str :=
  match pieces with
  | [] => []
  | piece :: rest =>
    match rest with
    | [] => piece
    | _ :: _ => piece ++ sep ++ join sep rest
    end
  end.

(* ================================================================== *)
(** ** Notions used by the further properties                       *)
(* ================================================================== *)

(** The five messages [validate_input] can report. *)
Definition input_messages : list str :=
  [MSG_TOO_SHORT; MSG_TOO_LONG; MSG_BLOCKED; MSG_IMAGE_SIZE; MSG_NO_INPUT].

(** [not step.get("title") or not step.get("content")] *)
Definition step_incomplete (step : pydict) : bool :=
  negb (truthy (dict_get step (u8 "title")))
  || negb (truthy (dict_get step (u8 "content"))).

(** The warnings of the steps [l], the first of which is at the 0-based
    position [i0]. *)
Fixpoint step_messages (i0 : nat) (l : list pydict) : list str :=
  match l with
  | [] => []
  | step :: rest =>
    contribution (step_incomplete step) (msg_step (i0 + 1))
    ++ step_messages (S i0) rest
  end.

(** [confidence is not None and confidence < min_confidence] *)
Definition low_confidence (c : option pyfloat) : bool :=
  match c with
  | Some x => float_ltb x min_confidence
  | None => false
  end.

(** The answer holds a number and no unit. *)
Definition unit_missing (a : option str) : bool :=
  match a with
  | Some s => present a && has_number s && negb (has_unit s)
  | None => false
  end.

Definition steps_of (request : OutputValidationRequest) : list pydict :=
  match steps request with
  | Some l => l
  | None => []
  end.

(** Some character of the text is not white space. *)
Definition has_ink (s : str) : Prop := exists c, In c s /\ is_space c = false.

(** The shorthand cannot match at the head of [s], whatever follows
    [s]: a head class fails inside [s], or the heads are followed in [s]
    by a character that is neither white space, nor [=], nor a digit. *)
Fixpoint heads_stuck (heads : list (char -> bool)) (s : str) : bool :=
  match heads with
  | [] =>
    match s with
    | c :: _ => negb (is_space c || char_eqb c equals_sign || is_digit c)
    | [] => false
    end
  | h :: heads' =>
    match s with
    | c :: s' => if h c then heads_stuck heads' s' else true
    | [] => false
    end
  end.

Definition never_starts (heads : list (char -> bool)) (o : str) : bool :=
  forallb (fun k => heads_stuck heads (skipn k o)) (seq 0 (length o)).

(** The text is not empty and has no white space at either end. *)
Definition inked_ends (s : str) : bool :=
  match s with c :: _ => negb (is_space c) | [] => false end
  && match rev s with c :: _ => negb (is_space c) | [] => false end.

Definition clear_of (table : list (str * str)) (x : str) : bool :=
  forallb (fun pr => negb (str_eqb (fst pr) []) && negb (touches (fst pr) x))
          table.

(** Nothing in [normalize_text] gets in the way of the literal rule at
    position [i]: no earlier rule can take a part of its pattern, the
    pattern does not overlap itself, and no later rule can take a part
    of its replacement. *)
Definition rule_live (i : nat) : bool :=
  match nth_error ALL_MAPPINGS i with
  | None => false
  | Some (p, o) =>
    inked_ends p && inked_ends o
    && forallb (fun c => negb (is_space c)) o
    && clear_of (firstn i ALL_MAPPINGS) p
    && negb (reaches_in p p)
    && clear_of (skipn (S i) ALL_MAPPINGS) o
    && negb (tail_class [ci_p; ci_f] (hd 0%N o))
    && never_starts [ci_p; ci_f] o
    && negb (tail_class [ci_c; ci_o; ci_s] (hd 0%N o))
    && never_starts [ci_c; ci_o; ci_s] o
  end.

(** The shorthand read with a look-ahead: the match stops before the
    digit and the replacement leaves the digit where it is. *)
Definition before_digit (m : matcher) : matcher :=
  fun s =>
    match m s with
    | Some (out, len) => Some (removelast out, pred len)
    | None => None
    end.

(** What a match of a shorthand can hold between its first character
    and its digit. *)
Definition gap_class (heads : list (char -> bool)) (c : char) : bool :=
  existsb (fun f : char -> bool => f c) (tl heads)
  || is_space c || char_eqb c equals_sign.

(** The alternatives of all blocked patterns. *)
Definition blocked_words : list str := concat blocked_patterns.

(** No rule of [normalize_text] can take a part of the word, and nothing
    a rule writes can complete it. *)
Definition word_safe (w : str) : bool :=
  inked_ends w
  && forallb (fun c => negb (is_space c)) w
  && clear_of ALL_MAPPINGS w
  && forallb (fun o => negb (touches w o)) written_texts
  && never_starts [ci_p; ci_f] w && never_starts [ci_c; ci_o; ci_s] w
  && negb (gap_class [ci_p; ci_f] (hd 0%N w))
  && negb (gap_class [ci_c; ci_o; ci_s] (hd 0%N w)).

(** The characters a shorthand of the given heads can hold. *)
Definition shorthand_char (heads : list (char -> bool)) (c : char) : bool :=
  existsb (fun f : char -> bool => f c) heads
  || is_space c || char_eqb c equals_sign || is_digit c.

(** A written shorthand: the letters, white space, at most one equals
    sign with white space after it, and a digit. *)
Definition shorthand_text (heads : list (char -> bool)) (x : str) (d : char)
  : Prop :=
  exists h w1 e w2,
    x = h ++ w1 ++ e ++ w2 ++ [d] /\
    heads_ok heads h /\ all_space w1 /\ all_space w2 /\
    ((e = [] /\ w2 = []) \/ e = [equals_sign]) /\
    is_digit d = true.


(* ================================================================== *)
(** * Properties                                                      *)
(* ================================================================== *)

(* ---------- the embedding at work ---------- *)

Example normalize_volt :
  normalize_text (u8 "전압강하가 100볼트 입니다") = u8 "전압강하가 100V 입니다".
Proof. reflexivity. Qed.

Example normalize_shorthands :
  normalize_text (u8 "  PF=0.8,   cos 1  ") = u8 "역률 0.8, cosθ = 1".
Proof. reflexivity. Qed.

Example validate_input_volt :
  validate_input {| text := Some (u8 "전압강하가 100볼트 입니다");
                    image_base64 := None |}
  = {| valid := true; errors := [];
       normalized_text := Some (u8 "전압강하가 100V 입니다") |}.
Proof. reflexivity. Qed.

Example validate_output_250 :
  validate_output
    {| answer := Some (u8 "250");
       steps := Some [[(u8 "title", VStr (u8 "")); (u8 "content", VStr (u8 "x"))]];
       formulas := Some [u8 "P = VI"];
       confidence := Some (Finite (1 # 2));
       related_kec := None |}
  = {| Output.valid := true;
       Output.warnings := [MSG_UNIT; msg_step 1; MSG_CONFIDENCE];
       Output.corrections := [] |}.
Proof. reflexivity. Qed.

(* ---------- basic facts about strings ---------- *)

Lemma char_eqb_eq (a b : char) : char_eqb a b = true <-> a = b.
Proof. apply N.eqb_eq. Qed.

Lemma starts_with_iff (p s : str) :
  starts_with p s = true <-> exists v, s = p ++ v.
Proof.
  revert s; induction p as [|x p IH]; intros s; simpl.
  - split; [intros _; now exists s | trivial].
  - destruct s as [|y s].
    + split; [discriminate | intros [v Hv]; discriminate].
    + rewrite andb_true_iff, char_eqb_eq, IH. split.
      * intros [-> [v ->]]. now exists v.
      * intros [v Hv]. injection Hv as -> ->. split; [reflexivity | now exists v].
Qed.

Lemma contains_iff (p s : str) : contains p s = true <-> occurs p s.
Proof.
  induction s as [|c s IH].
  - simpl. rewrite orb_false_r, starts_with_iff. split.
    + intros [v Hv]. now exists [], v.
    + intros [u [v H]]. destruct u; [now exists v | discriminate].
  - cbn [contains]. rewrite orb_true_iff, starts_with_iff, IH. split.
    + intros [[v Hv] | [u [v H]]].
      * now exists [], v.
      * exists (c :: u), v. now rewrite H.
    + intros [u [v H]]. destruct u as [|d u].
      * left. now exists v.
      * right. injection H as _ H. now exists u, v.
Qed.

Lemma occurs_nil_inv (p : str) : occurs p [] -> p = [].
Proof.
  intros [u [v H]]. symmetry in H.
  apply app_eq_nil in H as [_ H]. now apply app_eq_nil in H as [H _].
Qed.

Lemma append_if_app cond msg l :
  append_if cond msg l = l ++ contribution cond msg.
Proof. destruct cond; simpl; [reflexivity | now rewrite app_nil_r]. Qed.

(* ---------- the blocked-pattern scan ---------- *)

Lemma search_alternatives_iff pattern s :
  search_alternatives pattern s = true <->
  exists alt, In alt pattern /\ occurs alt s.
Proof.
  unfold search_alternatives. rewrite existsb_exists.
  split; intros [alt [H1 H2]]; exists alt; split; trivial;
    now apply contains_iff.
Qed.

Lemma check_blocked_from_iff patterns s :
  check_blocked_from patterns s = Some MSG_BLOCKED <->
  exists pattern alt, In pattern patterns /\ In alt pattern /\ occurs alt s.
Proof.
  induction patterns as [|p ps IH]; simpl.
  - split; [discriminate | intros [? [? [[] _]]]].
  - destruct (search_alternatives p s) eqn:E.
    + split; [intros _ | reflexivity].
      apply search_alternatives_iff in E as [alt [H1 H2]].
      exists p, alt. auto.
    + rewrite IH. split.
      * intros [p' [alt [H1 H2]]]. exists p', alt. auto.
      * intros [p' [alt [[<- | H1] [H2 H3]]]].
        -- assert (search_alternatives p s = true) as E'
             by (apply search_alternatives_iff; eauto).
           congruence.
        -- exists p', alt. auto.
Qed.

Lemma check_blocked_from_cases patterns s :
  check_blocked_from patterns s = Some MSG_BLOCKED \/
  check_blocked_from patterns s = None.
Proof.
  induction patterns as [|p ps IH]; simpl; [now right|].
  destruct (search_alternatives p s); [now left | exact IH].
Qed.

Lemma check_blocked_iff s :
  check_blocked_patterns s = Some MSG_BLOCKED <-> blocked s.
Proof. apply check_blocked_from_iff. Qed.

Lemma check_blocked_none s :
  ~ blocked s -> check_blocked_patterns s = None.
Proof.
  intros H. destruct (check_blocked_from_cases blocked_patterns s) as [E|E];
    [now apply check_blocked_iff in E | exact E].
Qed.


Lemma text_checks_eq n l :
  text_checks n l =
  l ++ contribution (length n <? min_length) MSG_TOO_SHORT
    ++ contribution (max_length <? length n) MSG_TOO_LONG
    ++ contribution (blocked_b n) MSG_BLOCKED.
Proof.
  unfold text_checks, blocked_b. rewrite !append_if_app.
  destruct (check_blocked_from_cases blocked_patterns n) as [E|E];
    unfold check_blocked_patterns; rewrite E.
  - rewrite append_if_app. cbn [contribution MSG_BLOCKED].
    now rewrite <- !app_assoc.
  - cbn [contribution]. now rewrite app_nil_r, <- app_assoc.
Qed.

Lemma validate_input_errors request :
  errors (validate_input request) =
  match text request with
  | Some (c :: t) =>
    let n := normalize_text (c :: t) in
    contribution (length n <? min_length) MSG_TOO_SHORT
    ++ contribution (max_length <? length n) MSG_TOO_LONG
    ++ contribution (blocked_b n) MSG_BLOCKED
  | _ => []
  end
  ++ image_errors request
  ++ contribution (negb (present (text request))
                   && negb (present (image_base64 request))) MSG_NO_INPUT.
Proof.
  destruct request as [t i]. unfold validate_input, image_errors.
  cbn [text image_base64 errors].
  destruct t as [[|c t]|]; destruct i as [[|d i]|]; cbn [present andb negb];
    rewrite ?text_checks_eq, ?append_if_app; cbn [app contribution];
    rewrite ?app_nil_r, <- ?app_assoc; reflexivity.
Qed.

Lemma validate_input_valid_eq request :
  valid (validate_input request) = (length (errors (validate_input request)) =? 0).
Proof. destruct request as [[[|c t]|] i]; reflexivity. Qed.

Lemma validate_input_valid request :
  valid (validate_input request) = true <-> errors (validate_input request) = [].
Proof.
  rewrite validate_input_valid_eq.
  destruct (errors (validate_input request)); simpl; split; congruence.
Qed.

Lemma validate_input_invalid request msg :
  In msg (errors (validate_input request)) ->
  valid (validate_input request) = false.
Proof.
  rewrite validate_input_valid_eq.
  destruct (errors (validate_input request)); simpl; [intros [] | reflexivity].
Qed.

Lemma validate_input_normalized request :
  normalized_text (validate_input request) =
  match text request with
  | Some (c :: t) => Some (normalize_text (c :: t))
  | _ => None
  end.
Proof. destruct request as [[[|c t]|] i]; reflexivity. Qed.

Lemma in_contribution cond msg x :
  In x (contribution cond msg) <-> cond = true /\ x = msg.
Proof.
  destruct cond; simpl; split.
  - intros [<- | []]. auto.
  - intros [_ ->]. auto.
  - intros [].
  - intros [H _]. discriminate.
Qed.

Lemma count_contribution cond msg x :
  msg <> x -> count_occ str_eq_dec (contribution cond msg) x = 0.
Proof.
  intros H. destruct cond; simpl; [|reflexivity].
  destruct (str_eq_dec msg x); [contradiction | reflexivity].
Qed.

Lemma count_image_errors request x :
  MSG_IMAGE_SIZE <> x -> count_occ str_eq_dec (image_errors request) x = 0.
Proof.
  intros H. unfold image_errors.
  destruct (image_base64 request); [now apply count_contribution | reflexivity].
Qed.

Lemma blocked_alternative_nonempty pattern alt :
  In pattern blocked_patterns -> In alt pattern -> alt <> [].
Proof.
  unfold blocked_patterns. simpl.
  intros H1 H2.
  repeat (destruct H1 as [<- | H1]; [simpl in H2;
    repeat (destruct H2 as [<- | H2]; [discriminate|]); destruct H2 |]).
  destruct H1.
Qed.

Lemma blocked_nonempty s : blocked s -> s <> [].
Proof.
  intros [p [alt [H1 [H2 H3]]]] ->.
  apply occurs_nil_inv in H3. now apply (blocked_alternative_nonempty p alt H1 H2).
Qed.

Lemma normalize_text_nil : normalize_text [] = [].
Proof. reflexivity. Qed.

Lemma blocked_b_true s : blocked s -> blocked_b s = true.
Proof.
  intros H. apply check_blocked_iff in H. unfold blocked_b. now rewrite H.
Qed.

(** C1.  Whatever the output-validation request holds (answer, steps,
    formulas, confidence and relatedKEC present or not), the verdict of
    [validate_output] has an empty list of corrections and is valid. *)
Theorem validate_output_never_corrects (request : OutputValidationRequest) :
  Output.corrections (validate_output request) = [] /\
  Output.valid (validate_output request) = true.
Proof. split; reflexivity. Qed.

(** C2, counterexample.  A request that supplies the empty string as
    text (and an image): the normalised text has length 0, below 3, yet
    the verdict is valid and holds no "too short" error. *)
Lemma empty_text_not_too_short :
  text {| text := Some []; image_base64 := Some (u8 "AAAA") |} = Some [] /\
  length (normalize_text []) < min_length /\
  valid (validate_input
           {| text := Some []; image_base64 := Some (u8 "AAAA") |}) = true /\
  ~ In MSG_TOO_SHORT
       (errors (validate_input
                  {| text := Some []; image_base64 := Some (u8 "AAAA") |})).
Proof.
  split; [reflexivity|]. split; [vm_compute; lia|].
  split; [vm_compute; reflexivity|]. vm_compute. intros [].
Qed.

(** C2, amended.  For every input-validation request that supplies a
    non-empty text whose normalised form is shorter than 3 characters,
    the verdict is invalid and its errors hold the "too short" message. *)
Theorem short_text_rejected (request : InputValidationRequest) (t : str) :
  text request = Some t -> t <> [] ->
  length (normalize_text t) < min_length ->
  valid (validate_input request) = false /\
  In MSG_TOO_SHORT (errors (validate_input request)).
Proof.
  intros Ht Hne Hlen.
  assert (In MSG_TOO_SHORT (errors (validate_input request))) as Hin.
  { rewrite validate_input_errors, Ht.
    destruct t as [|c t]; [contradiction|]. cbv zeta.
    apply in_or_app. left. apply in_or_app. left.
    apply in_contribution. split; [|reflexivity].
    now apply Nat.ltb_lt. }
  split; [exact (validate_input_invalid _ _ Hin) | exact Hin].
Qed.

Lemma short_text_rejected_witness :
  valid (validate_input
           {| text := Some (u8 "ab"); image_base64 := None |}) = false /\
  In MSG_TOO_SHORT
     (errors (validate_input
                {| text := Some (u8 "ab"); image_base64 := None |})).
Proof.
  apply (short_text_rejected
           {| text := Some (u8 "ab"); image_base64 := None |} (u8 "ab")).
  - reflexivity.
  - discriminate.
  - vm_compute. lia.
Defined.

(** C4.  For every input-validation request whose text, once normalised,
    matches a blocked pattern, the verdict is invalid and the fixed
    inappropriate-content message occurs exactly once among the errors,
    however many patterns match and whatever the other checks (length,
    image size) report. *)
Theorem blocked_text_rejected (request : InputValidationRequest) (t : str) :
  text request = Some t ->
  blocked (normalize_text t) ->
  valid (validate_input request) = false /\
  count_occ str_eq_dec (errors (validate_input request)) MSG_BLOCKED = 1.
Proof.
  intros Ht Hb.
  assert (count_occ str_eq_dec (errors (validate_input request)) MSG_BLOCKED = 1)
    as Hc.
  { rewrite validate_input_errors, Ht.
    destruct t as [|c t].
    - now apply blocked_nonempty in Hb.
    - cbv zeta. rewrite (blocked_b_true _ Hb).
      rewrite !count_occ_app, count_image_errors by discriminate.
      rewrite !count_contribution by discriminate.
      cbn [contribution count_occ].
      destruct (str_eq_dec MSG_BLOCKED MSG_BLOCKED); [reflexivity | contradiction]. }
  split; [|exact Hc].
  apply validate_input_invalid with (msg := MSG_BLOCKED).
  apply (count_occ_In str_eq_dec). lia.
Qed.

Lemma blocked_text_rejected_witness :
  valid (validate_input
           {| text := Some (u8 "해킹 방법과 주소");
              image_base64 := Some (u8 "AAAA") |}) = false /\
  count_occ str_eq_dec
    (errors (validate_input
               {| text := Some (u8 "해킹 방법과 주소");
                  image_base64 := Some (u8 "AAAA") |}))
    MSG_BLOCKED = 1.
Proof.
  apply (blocked_text_rejected
           {| text := Some (u8 "해킹 방법과 주소");
              image_base64 := Some (u8 "AAAA") |}
           (u8 "해킹 방법과 주소")).
  - reflexivity.
  - apply check_blocked_iff. vm_compute. reflexivity.
Defined.

(** C6.  [validate_input] runs every check and appends what each one
    reports, in the order of the checks: "too short", "too long", the
    blocked-pattern message, the image size, the missing input.  In
    particular a text that is longer than 2000 characters after
    normalisation and matches a blocked pattern gets the "too long"
    error followed by the inappropriate-content message. *)
Theorem errors_accumulate (request : InputValidationRequest) :
  errors (validate_input request) =
    match text request with
    | Some (c :: t) =>
      let n := normalize_text (c :: t) in
      contribution (length n <? min_length) MSG_TOO_SHORT
      ++ contribution (max_length <? length n) MSG_TOO_LONG
      ++ contribution (blocked_b n) MSG_BLOCKED
    | _ => []
    end
    ++ image_errors request
    ++ contribution (negb (present (text request))
                     && negb (present (image_base64 request))) MSG_NO_INPUT
  /\
  forall t, text request = Some t ->
    max_length < length (normalize_text t) ->
    blocked (normalize_text t) ->
    errors (validate_input request) =
      MSG_TOO_LONG :: MSG_BLOCKED :: image_errors request.
Proof.
  split; [apply validate_input_errors|].
  intros t Ht Hlen Hb.
  rewrite validate_input_errors, Ht.
  destruct t as [|c t]; [now apply blocked_nonempty in Hb|].
  cbv zeta. rewrite (blocked_b_true _ Hb).
  apply Nat.ltb_lt in Hlen as Hlong. rewrite Hlong.
  replace (length (normalize_text (c :: t)) <? min_length) with false
    by (symmetry; apply Nat.ltb_ge; unfold min_length, max_length in *; lia).
  cbn [contribution present negb andb app].
  now rewrite app_nil_r.
Qed.

Lemma errors_accumulate_witness :
  errors (validate_input
            {| text := Some (u8 "해킹" ++ repeat 97%N 2000);
               image_base64 := None |})
  = [MSG_TOO_LONG; MSG_BLOCKED].
Proof.
  apply (proj2 (errors_accumulate
     {| text := Some (u8 "해킹" ++ repeat 97%N 2000); image_base64 := None |})
     (u8 "해킹" ++ repeat 97%N 2000)).
  - reflexivity.
  - vm_compute. lia.
  - apply check_blocked_iff. vm_compute. reflexivity.
Defined.

(** C7.  For every input-validation request in which neither a text nor
    an image is present, the verdict is invalid, its errors hold the
    "must supply text or image" message, and there is no normalised
    text. *)
Theorem no_input_rejected (request : InputValidationRequest) :
  present (text request) = false ->
  present (image_base64 request) = false ->
  valid (validate_input request) = false /\
  In MSG_NO_INPUT (errors (validate_input request)) /\
  normalized_text (validate_input request) = None.
Proof.
  destruct request as [[[|c t]|] [[|d i]|]]; cbn [text image_base64 present];
    intros Ht Hi; try discriminate; repeat split; simpl; auto.
Qed.

Lemma no_input_rejected_witness :
  valid (validate_input {| text := None; image_base64 := None |}) = false /\
  In MSG_NO_INPUT
     (errors (validate_input {| text := None; image_base64 := None |})) /\
  normalized_text (validate_input {| text := None; image_base64 := None |})
  = None.
Proof.
  apply (no_input_rejected {| text := None; image_base64 := None |});
    reflexivity.
Defined.

(** C9.  The empty string counts as absent.  With the empty text and no
    image no text check runs: the only error is "must supply text or
    image" and there is no normalised text.  In every request an empty
    text, and likewise an empty imageBase64, gives the verdict of the
    request without it. *)
Theorem empty_string_is_absent :
  validate_input {| text := Some []; image_base64 := None |} =
    {| valid := false; errors := [MSG_NO_INPUT]; normalized_text := None |}
  /\ (forall i, validate_input {| text := Some []; image_base64 := i |} =
                validate_input {| text := None; image_base64 := i |})
  /\ (forall t, validate_input {| text := t; image_base64 := Some [] |} =
                validate_input {| text := t; image_base64 := None |}).
Proof.
  split; [reflexivity|]. split.
  - intros i. reflexivity.
  - intros [[|c t]|]; reflexivity.
Qed.

Lemma float_of_int_exact (n : Z) : (n < 2 ^ 53)%Z -> float_of_int n = n.
Proof.
  intros H. unfold float_of_int.
  now replace (n <? 2 ^ 53)%Z with true by (symmetry; now apply Z.ltb_lt).
Qed.

(** Rounding never takes a number of 54 bits or more below [2 ^ 53]. *)
Lemma float_of_int_large (n : Z) :
  (2 ^ 53 <= n)%Z -> (2 ^ 53 <= float_of_int n)%Z.
Proof.
  intros H. unfold float_of_int.
  replace (n <? 2 ^ 53)%Z with false by (symmetry; now apply Z.ltb_ge).
  cbv zeta.
  assert (53 <= Z.log2 n)%Z as Hlog by (apply Z.log2_le_pow2; lia).
  set (e := (Z.log2 n - 52)%Z).
  assert (1 <= e)%Z as He by (unfold e; lia).
  assert (0 < 2 ^ e)%Z as Hpos by (apply Z.pow_pos_nonneg; lia).
  assert (2 ^ 52 <= n / 2 ^ e)%Z as Hq.
  { apply Z.div_le_lower_bound; [lia|].
    rewrite Z.mul_comm, <- Z.pow_add_r by lia.
    replace (52 + e)%Z with (Z.log2 n) by (unfold e; lia).
    apply Z.log2_spec. lia. }
  assert (2 <= 2 ^ e)%Z as H2.
  { change 2%Z with (2 ^ 1)%Z at 1. apply Z.pow_le_mono_r; lia. }
  assert (2 ^ 53 <= n / 2 ^ e * 2 ^ e)%Z as Hlow.
  { change (2 ^ 53)%Z with (2 ^ 52 * 2)%Z. apply Z.mul_le_mono_nonneg; lia. }
  assert (n / 2 ^ e * 2 ^ e <= (n / 2 ^ e + 1) * 2 ^ e)%Z as Hup by nia.
  repeat match goal with |- context [if ?b then _ else _] => destruct b end; lia.
Qed.

Lemma estimate_exact (img : str) :
  (Z.of_nat (length img) * 3 < 2 ^ 53)%Z ->
  estimate_base64_size img = (Z.of_nat (length img) * 3 / 4)%Z.
Proof.
  intros H. unfold estimate_base64_size. now rewrite float_of_int_exact.
Qed.

Lemma oversized_iff_floor (img : str) :
  (max_size_bytes < estimate_base64_size img <->
   max_size_bytes < Z.of_nat (length img) * 3 / 4)%Z.
Proof.
  destruct (Z.lt_ge_cases (Z.of_nat (length img) * 3) (2 ^ 53)) as [H|H].
  - now rewrite estimate_exact.
  - unfold estimate_base64_size.
    pose proof (float_of_int_large _ H) as H'.
    assert (2 ^ 51 <= float_of_int (Z.of_nat (length img) * 3) / 4)%Z
      by (apply Z.div_le_lower_bound; [lia | exact H']).
    assert (2 ^ 51 <= Z.of_nat (length img) * 3 / 4)%Z
      by (apply Z.div_le_lower_bound; [lia | exact H]).
    unfold max_size_bytes. split; intros _; lia.
Qed.

Lemma in_image_errors request x :
  In x (image_errors request) <->
  exists img, image_base64 request = Some img /\
    (max_size_bytes < estimate_base64_size img)%Z /\ x = MSG_IMAGE_SIZE.
Proof.
  unfold image_errors. destruct (image_base64 request) as [img|].
  - rewrite in_contribution, andb_true_iff, Z.ltb_lt. split.
    + intros [[_ H] ->]. exists img. auto.
    + intros [i [Hi [H ->]]]. injection Hi as <-. repeat split; trivial.
      destruct img as [|c img]; [|reflexivity].
      vm_compute in H. discriminate.
  - split; [intros [] | intros [i [Hi _]]; discriminate].
Qed.

Lemma image_error_iff request :
  In MSG_IMAGE_SIZE (errors (validate_input request)) <->
  In MSG_IMAGE_SIZE (image_errors request).
Proof.
  rewrite validate_input_errors, !in_app_iff, in_contribution.
  split; [|tauto].
  intros [H | [H | [_ H]]]; [| exact H | discriminate].
  destruct (text request) as [[|c t]|]; try contradiction.
  cbv zeta in H. rewrite !in_app_iff, !in_contribution in H.
  destruct H as [[_ H] | [[_ H] | [_ H]]]; discriminate.
Qed.

Lemma estimate_of_length (n : nat) (c : char) :
  estimate_base64_size (repeat c n) = (float_of_int (Z.of_nat n * 3) / 4)%Z.
Proof. unfold estimate_base64_size. now rewrite repeat_length. Qed.

(** Beyond 3002399751580332 characters the estimate can leave the
    floor.  At 3002399751580333 characters three times the length is
    [2 ^ 53 + 7], the quotient by four is 2251799813685249.75, which is
    no double; the true division rounds it to 2251799813685250.0, one
    more than the floor. *)
Lemma estimate_beyond_bound :
  estimate_base64_size (repeat 65%N (N.to_nat 3002399751580333))
  = 2251799813685250%Z /\
  (Z.of_nat (length (repeat 65%N (N.to_nat 3002399751580333))) * 3 / 4
   = 2251799813685249)%Z.
Proof.
  rewrite estimate_of_length, repeat_length, N_nat_Z.
  split; vm_compute; reflexivity.
Qed.

(** The estimate is the floor for every length up to 3002399751580332:
    up to 3002399751580330 the product is below [2 ^ 53] and exact; the
    next two products, [2 ^ 53 + 1] and [2 ^ 53 + 4], round to doubles
    whose quarter has the same integer part. *)
Lemma estimate_floor (img : str) :
  (Z.of_nat (length img) <= 3002399751580332)%Z ->
  estimate_base64_size img = (Z.of_nat (length img) * 3 / 4)%Z.
Proof.
  intros H.
  destruct (Z.le_gt_cases (Z.of_nat (length img)) 3002399751580330) as [L|L].
  - apply estimate_exact.
    apply Z.le_lt_trans with (3002399751580330 * 3)%Z; [lia | reflexivity].
  - unfold estimate_base64_size.
    assert (Z.of_nat (length img) = 3002399751580331
            \/ Z.of_nat (length img) = 3002399751580332)%Z as [E|E] by lia;
      rewrite E; vm_compute; reflexivity.
Qed.

(** C5.  For every request that supplies an imageBase64 string of length
    L, L at most 3002399751580332 (about three petabytes of text, more
    than a request can carry), the estimated size is
    [floor (L * 3 / 4)].  For every L the oversized-image error is among
    the errors exactly when the estimate exceeds 10 MiB, which is
    exactly when [floor (L * 3 / 4)] exceeds 10 MiB; an estimate of
    exactly 10 MiB gives no such error. *)
Theorem image_size_check (request : InputValidationRequest) (img : str) :
  image_base64 request = Some img ->
  ((Z.of_nat (length img) <= 3002399751580332)%Z ->
   estimate_base64_size img = (Z.of_nat (length img) * 3 / 4)%Z) /\
  (In MSG_IMAGE_SIZE (errors (validate_input request)) <->
   (max_size_bytes < estimate_base64_size img)%Z) /\
  (In MSG_IMAGE_SIZE (errors (validate_input request)) <->
   (10 * 1024 * 1024 < Z.of_nat (length img) * 3 / 4)%Z) /\
  (estimate_base64_size img = (10 * 1024 * 1024)%Z ->
   ~ In MSG_IMAGE_SIZE (errors (validate_input request))).
Proof.
  intros Hi.
  assert (In MSG_IMAGE_SIZE (errors (validate_input request)) <->
          (max_size_bytes < estimate_base64_size img)%Z) as Hiff.
  { rewrite image_error_iff, in_image_errors. split.
    - intros [i [Hi' [H _]]]. congruence.
    - intros H. exists img. auto. }
  split; [apply estimate_floor|]. split; [exact Hiff|]. split.
  - rewrite Hiff. apply oversized_iff_floor.
  - intros E. rewrite Hiff, E. unfold max_size_bytes. lia.
Qed.

Lemma image_size_check_witness :
  estimate_base64_size (repeat 65%N 8) = 6%Z /\
  ~ In MSG_IMAGE_SIZE
       (errors (validate_input
                  {| text := None; image_base64 := Some (repeat 65%N 8) |})).
Proof.
  destruct (image_size_check
              {| text := None; image_base64 := Some (repeat 65%N 8) |}
              (repeat 65%N 8) eq_refl) as [H1 [H2 _]].
  split.
  - rewrite H1; [reflexivity | vm_compute; discriminate].
  - rewrite H2. vm_compute. discriminate.
Defined.

Lemma in_append_if cond msg l x :
  In x (append_if cond msg l) <-> In x l \/ (cond = true /\ x = msg).
Proof. now rewrite append_if_app, in_app_iff, in_contribution. Qed.

Lemma in_required_warnings request fields w x :
  In x (required_warnings request fields w) ->
  In x w \/ exists field, In field fields /\ x = msg_field field.
Proof.
  revert w; induction fields as [|f fs IH]; intros w; simpl; [auto|].
  intros H. apply IH in H as [H | [g [Hg ->]]].
  - apply in_append_if in H as [H | [_ ->]]; [auto|]. right. exists f. auto.
  - right. exists g. auto.
Qed.

Lemma required_warnings_mono request fields w x :
  In x w -> In x (required_warnings request fields w).
Proof.
  revert w; induction fields as [|f fs IH]; intros w H; simpl; [exact H|].
  apply IH, in_append_if. now left.
Qed.

Lemma in_steps_warnings i l w x :
  In x (steps_warnings i l w) -> In x w \/ exists k, x = msg_step k.
Proof.
  revert i w; induction l as [|s l IH]; intros i w; simpl; [auto|].
  intros H. apply IH in H as [H | H]; [|now right].
  apply in_append_if in H as [H | [_ ->]]; [auto|]. right. now exists (i + 1).
Qed.

Lemma steps_warnings_mono i l w x :
  In x w -> In x (steps_warnings i l w).
Proof.
  revert i w; induction l as [|s l IH]; intros i w H; simpl; [exact H|].
  apply IH, in_append_if. now left.
Qed.

Lemma msg_field_not_unit field :
  In field required_fields -> msg_field field <> MSG_UNIT.
Proof.
  unfold required_fields. simpl.
  intros [<- | [<- | [<- | []]]]; discriminate.
Qed.

Lemma msg_step_not_unit k : msg_step k <> MSG_UNIT.
Proof. unfold msg_step, step_prefix, MSG_UNIT. simpl. discriminate. Qed.

Lemma has_number_iff a :
  has_number a = true <-> exists d, In d a /\ is_digit d = true.
Proof. apply existsb_exists. Qed.

Lemma has_unit_false_iff a :
  has_unit a = false <-> forall unit, In unit si_units -> ~ occurs unit a.
Proof.
  unfold has_unit. split.
  - intros H unit Hin Hocc.
    assert (existsb (fun unit => contains unit a) si_units = true) as E.
    { apply existsb_exists. exists unit. split; [exact Hin|].
      now apply contains_iff. }
    congruence.
  - intros H. destruct (existsb _ si_units) eqn:E; [|reflexivity].
    apply existsb_exists in E as [unit [Hin Hc]].
    apply contains_iff in Hc. now apply H in Hc.
Qed.

(** C8.  For every output-validation request with a non-empty answer,
    the missing-unit warning is among the warnings exactly when the
    answer holds a decimal digit and none of the recognised units
    ([si_units]) occurs in it as a substring. *)
Theorem unit_warning_iff (request : OutputValidationRequest) (a : str) :
  answer request = Some a -> a <> [] ->
  (In MSG_UNIT (Output.warnings (validate_output request)) <->
   (exists d, In d a /\ is_digit d = true) /\
   (forall unit, In unit si_units -> ~ occurs unit a)).
Proof.
  intros Ha Hne. rewrite <- has_number_iff, <- has_unit_false_iff.
  unfold validate_output. cbn [Output.warnings]. rewrite Ha.
  destruct a as [|c a]; [contradiction|].
  set (w1 := append_if _ MSG_UNIT _).
  assert (In MSG_UNIT w1 <->
          has_number (c :: a) = true /\ has_unit (c :: a) = false) as H1.
  { unfold w1. rewrite in_append_if, andb_true_iff, negb_true_iff. split.
    - intros [H | [H _]]; [|exact H].
      apply in_required_warnings in H as [[] | [f [Hf E]]].
      symmetry in E. now apply msg_field_not_unit in E.
    - intros H. right. auto. }
  set (w2 := match steps request with Some (s :: l) => _ | _ => w1 end).
  assert (In MSG_UNIT w2 <-> In MSG_UNIT w1) as H2.
  { unfold w2. destruct (steps request) as [[|s l]|]; try reflexivity.
    split; [|apply steps_warnings_mono].
    intros H. apply in_steps_warnings in H as [H | [k E]]; [exact H|].
    symmetry in E. now apply msg_step_not_unit in E. }
  rewrite <- H1, <- H2.
  destruct (confidence request) as [x|]; [|reflexivity].
  rewrite in_append_if. split; [|auto].
  intros [H | [_ E]]; [exact H | discriminate].
Qed.

Lemma unit_warning_iff_witness :
  In MSG_UNIT
     (Output.warnings
        (validate_output
           {| answer := Some (u8 "250"); steps := None; formulas := None;
              confidence := Some (Finite (1 # 2)); related_kec := None |})).
Proof.
  apply (proj2 (unit_warning_iff
    {| answer := Some (u8 "250"); steps := None; formulas := None;
       confidence := Some (Finite (1 # 2)); related_kec := None |}
    (u8 "250") eq_refl ltac:(discriminate))).
  split.
  - exists 50%N. split; [left; reflexivity | reflexivity].
  - apply has_unit_false_iff. reflexivity.
Defined.

(* ================================================================== *)
(** ** [re.sub] in general                                            *)
(* ================================================================== *)

Section ReSub.
Variable m : matcher.

Lemma re_sub_from_skip (k : nat) (s : str) :
  re_sub_from m k s = re_sub m (skipn k s).
Proof.
  revert k; induction s as [|c s IH]; intros k.
  - now destruct k.
  - destruct k as [|k]; [reflexivity|]. simpl. apply IH.
Qed.

Lemma re_sub_nil : re_sub m [] = [].
Proof. reflexivity. Qed.

Lemma re_sub_none (c : char) (s : str) :
  m (c :: s) = None -> re_sub m (c :: s) = c :: re_sub m s.
Proof. intros H. unfold re_sub. simpl. now rewrite H. Qed.

Lemma re_sub_some (c : char) (s out : str) (len : nat) :
  m (c :: s) = Some (out, len) ->
  re_sub m (c :: s) = out ++ re_sub m (skipn (pred len) s).
Proof.
  intros H. unfold re_sub at 1. simpl. rewrite H.
  now rewrite re_sub_from_skip.
Qed.

(** Where the matcher never answers, [re.sub] changes nothing. *)
Lemma re_sub_id (s : str) : ~ fires m s -> re_sub m s = s.
Proof.
  induction s as [|c s IH]; intros H; [reflexivity|].
  rewrite re_sub_none.
  - f_equal. apply IH. intros [u [v [E Hv]]].
    apply H. exists (c :: u), v. split; [now rewrite E | exact Hv].
  - destruct (m (c :: s)) eqn:E; [|reflexivity].
    exfalso. apply H. exists [], (c :: s). split; [reflexivity | congruence].
Qed.

End ReSub.

Lemma fires_app_r (m : matcher) (u v : str) : fires m v -> fires m (u ++ v).
Proof.
  intros [a [b [E H]]]. exists (u ++ a), b. split; [|exact H].
  now rewrite E, app_assoc.
Qed.

Lemma wb_ext (m : matcher) (v t : str) :
  well_behaved m -> m v <> None -> m (v ++ t) <> None.
Proof.
  intros W H. destruct (m v) as [[out len]|] eqn:E; [|congruence].
  pose proof (wb_length _ W _ _ _ E) as Hl.
  pose proof (wb_prefix _ W _ _ _ (skipn len v ++ t) E) as Hp.
  rewrite app_assoc, firstn_skipn in Hp. congruence.
Qed.

Lemma fires_app_l (m : matcher) (u v : str) :
  well_behaved m -> fires m u -> fires m (u ++ v).
Proof.
  intros W [a [b [E H]]]. exists a, (b ++ v). split.
  - now rewrite E, app_assoc.
  - now apply wb_ext.
Qed.

Lemma wb_nil (m : matcher) : well_behaved m -> m [] = None.
Proof.
  intros W. destruct (m []) as [[out len]|] eqn:E; [|reflexivity].
  apply (wb_length _ W) in E. simpl in E. lia.
Qed.

(** Splitting [a ++ x = u ++ y] by the lengths of [a] and [u]. *)
Lemma app_eq_split (a x u y : str) :
  a ++ x = u ++ y ->
  (exists d, u = a ++ d /\ x = d ++ y) \/
  (exists d, d <> [] /\ a = u ++ d /\ y = d ++ x).
Proof.
  revert u; induction a as [|c a IH]; intros u H.
  - left. exists u. auto.
  - destruct u as [|c' u].
    + right. exists (c :: a). repeat split; [discriminate | now symmetry].
    + injection H as -> H. apply IH in H as [[d [-> ->]] | [d [Hd [-> ->]]]].
      * left. exists d. auto.
      * right. exists d. auto.
Qed.

(** A firing of [m] in [u ++ x ++ v], with [x] apart from [m], lies in
    [u] or in [v]. *)
Lemma apart_fires (m : matcher) (x u v : str) :
  well_behaved m -> apart m x ->
  fires m (u ++ x ++ v) -> fires m u \/ fires m v.
Proof.
  intros W A [a [b [E H]]]. symmetry in E.
  apply app_eq_split in E as [[d [-> ->]] | [d [Hd [-> E]]]].
  - (* the match starts in [u] *)
    left. destruct d as [|c d].
    + exfalso. apply H. simpl.
      destruct x as [|c x].
      * simpl. destruct (m v) as [[out len]|] eqn:E; [|reflexivity].
        apply (apart_reach _ _ A [] v) in E as Hl.
        apply (wb_length _ W) in E. simpl in Hl. lia.
      * apply (apart_inside _ _ A 0 v). simpl. lia.
    + destruct (m ((c :: d) ++ x ++ v)) as [[out len]|] eqn:E; [|congruence].
      pose proof (apart_reach _ _ A _ _ _ _ E) as Hl.
      pose proof (wb_prefix _ W _ _ _ (skipn len (c :: d)) E) as Hp.
      rewrite firstn_app in Hp.
      replace (len - length (c :: d)) with 0 in Hp by lia.
      rewrite firstn_0, app_nil_r, firstn_skipn in Hp.
      exists a, (c :: d). split; [reflexivity | congruence].
  - (* the match starts in [x] or in [v] *)
    symmetry in E.
    apply app_eq_split in E as [[e [-> ->]] | [e [He [-> ->]]]].
    + destruct e as [|c e].
      * right. exists [], v. split; [reflexivity | exact H].
      * exfalso. apply H.
        replace ((c :: e) ++ v) with (skipn (length d) (d ++ c :: e) ++ v).
        -- apply (apart_inside _ _ A). rewrite length_app. simpl. lia.
        -- rewrite skipn_app, skipn_all, Nat.sub_diag. reflexivity.
    + right. exists e, b. auto.
Qed.

(** [re.sub] with [m] does not make another matcher [m'] fire, when the
    replacements of [m] are apart from [m']. *)
Lemma re_sub_no_new (m m' : matcher) :
  well_behaved m' ->
  (forall s out len, m s = Some (out, len) -> apart m' out) ->
  forall s w, fires m' (w ++ re_sub m s) -> fires m' (w ++ s).
Proof.
  intros W A s.
  induction s as [s IH] using (induction_ltof1 _ (@length char)).
  unfold ltof in IH. intros w H.
  destruct s as [|c s]; [exact H|].
  destruct (m (c :: s)) as [[out len]|] eqn:E.
  - rewrite (re_sub_some _ _ _ _ _ E) in H.
    apply apart_fires in H as [H | H]; eauto.
    + now apply fires_app_l.
    + apply fires_app_r. change (fires m' ([c] ++ s)). apply fires_app_r.
      rewrite <- (firstn_skipn (pred len) s). apply fires_app_r.
      apply (IH _) with (w := []) in H; [exact H|].
      rewrite length_skipn. simpl. lia.
  - rewrite (re_sub_none _ _ _ E) in H.
    change (w ++ c :: ?t) with (w ++ [c] ++ t) in *.
    rewrite app_assoc in *. apply IH; [simpl; lia | exact H].
Qed.

(** After [re.sub] with [m], whose replacements are apart from it, [m]
    does not fire any more. *)
Lemma re_sub_clean_gen (m : matcher) :
  well_behaved m ->
  (forall s out len, m s = Some (out, len) -> apart m out) ->
  forall s w,
    (forall u v, w = u ++ v -> v <> [] -> m (v ++ s) = None) ->
    ~ fires m (w ++ re_sub m s).
Proof.
  intros W A s.
  induction s as [s IH] using (induction_ltof1 _ (@length char)).
  unfold ltof in IH. intros w Hw H.
  destruct s as [|c s].
  - rewrite re_sub_nil, app_nil_r in H. destruct H as [u [v [E Hv]]].
    destruct v as [|d v]; [now rewrite wb_nil in Hv|].
    apply Hv. rewrite <- (app_nil_r (d :: v)). apply (Hw u); [exact E | discriminate].
  - destruct (m (c :: s)) as [[out len]|] eqn:E.
    + rewrite (re_sub_some _ _ _ _ _ E) in H.
      apply apart_fires in H as [H | H]; eauto.
      * destruct H as [u [v [E' Hv]]].
        destruct v as [|d v]; [now rewrite wb_nil in Hv|].
        apply (wb_ext _ _ (c :: s) W) in Hv. apply Hv.
        apply (Hw u); [exact E' | discriminate].
      * revert H. change (skipn (pred len) s) with ([] ++ skipn (pred len) s).
        change (re_sub m ([] ++ ?t)) with ([] ++ re_sub m t).
        apply IH; [rewrite length_skipn; simpl; lia|].
        intros u v Huv Hv. destruct u; destruct v; try discriminate. contradiction.
    + rewrite (re_sub_none _ _ _ E) in H.
      change (w ++ c :: ?t) with (w ++ [c] ++ t) in H.
      rewrite app_assoc in H. revert H. apply IH; [simpl; lia|].
      intros u v Huv Hv.
      destruct (@exists_last _ v Hv) as [v' [d ->]].
      rewrite app_assoc in Huv. apply app_inj_tail in Huv as [-> ->].
      rewrite <- app_assoc. simpl.
      destruct v' as [|e v']; [exact E|].
      apply (Hw u); [reflexivity | discriminate].
Qed.

Lemma re_sub_clean (m : matcher) :
  well_behaved m ->
  (forall s out len, m s = Some (out, len) -> apart m out) ->
  forall s, ~ fires m (re_sub m s).
Proof.
  intros W A s. apply (re_sub_clean_gen m W A s []).
  intros u v Huv Hv. destruct u; destruct v; try discriminate. contradiction.
Qed.

(** [re.sub] with [m] leaves an occurrence of [x] in place, when [x] is
    apart from [m]. *)
Lemma re_sub_skip (m : matcher) (x b : str) :
  (forall k v, k < length x -> m (skipn k x ++ v) = None) ->
  re_sub m (x ++ b) = x ++ re_sub m b.
Proof.
  intros A.
  assert (forall k, k <= length x ->
            re_sub m (skipn k x ++ b) = skipn k x ++ re_sub m b) as Hk.
  { intros k Hk. remember (length x - k) as n eqn:En.
    revert k Hk En. induction n as [|n IHn]; intros k Hk En.
    - rewrite skipn_all2 by lia. reflexivity.
    - pose proof (A k b ltac:(lia)) as Hnone.
      assert (exists d, skipn k x = d :: skipn (S k) x) as [d Hd].
      { clear -Hk En. revert k Hk En. induction x as [|y x IHx]; intros k Hk En.
        - simpl in En. lia.
        - destruct k as [|k]; [now exists y|]. simpl in *.
          apply IHx; lia. }
      rewrite Hd in Hnone |- *.
      change ((d :: ?t) ++ b) with (d :: (t ++ b)) in Hnone |- *.
      rewrite (re_sub_none _ _ _ Hnone).
      change ((d :: ?t) ++ ?r) with (d :: (t ++ r)).
      f_equal. apply IHn; lia. }
  apply (Hk 0). lia.
Qed.

Lemma re_sub_through (m : matcher) (x : str) :
  (forall s out len, m s = Some (out, len) -> 1 <= len) -> apart m x ->
  forall a b, exists a' b', re_sub m (a ++ x ++ b) = a' ++ x ++ b'.
Proof.
  intros W A a.
  induction a as [a IH] using (induction_ltof1 _ (@length char)).
  unfold ltof in IH. intros b.
  destruct a as [|c a].
  - exists [], (re_sub m b). simpl. apply re_sub_skip. apply (apart_inside _ _ A).
  - change ((c :: a) ++ x ++ b) with (c :: (a ++ x ++ b)).
    destruct (m (c :: (a ++ x ++ b))) as [[out len]|] eqn:E.
    + pose proof (apart_reach _ _ A (c :: a) b _ _ E) as Hl.
      pose proof (W _ _ _ E) as Hl'.
      rewrite (re_sub_some _ _ _ _ _ E).
      rewrite skipn_app.
      replace (pred len - length a) with 0 by (simpl in Hl; lia).
      rewrite skipn_0.
      destruct (IH (skipn (pred len) a)) with (b := b) as [a' [b' Ha']].
      { rewrite length_skipn. simpl. lia. }
      rewrite Ha'. exists (out ++ a'), b'. now rewrite <- app_assoc.
    + rewrite (re_sub_none _ _ _ E).
      destruct (IH a) with (b := b) as [a' [b' Ha']]; [simpl; lia|].
      rewrite Ha'. now exists (c :: a'), b'.
Qed.

(* ================================================================== *)
(** ** Literal patterns                                               *)
(* ================================================================== *)

Lemma starts_with_app_comparable (p a v : str) :
  starts_with p (a ++ v) = true -> comparable p a = true.
Proof.
  intros H. apply starts_with_iff in H as [t H]. symmetry in H.
  unfold comparable. apply orb_true_iff.
  apply app_eq_split in H as [[d [-> _]] | [d [_ [-> _]]]].
  - left. apply starts_with_iff. now exists d.
  - right. apply starts_with_iff. now exists d.
Qed.

Lemma starts_with_length (p s : str) :
  starts_with p s = true -> length p <= length s.
Proof.
  intros H. apply starts_with_iff in H as [v ->]. rewrite length_app. lia.
Qed.

Lemma lit_match_some (p o s out : str) (len : nat) :
  lit_match p o s = Some (out, len) ->
  starts_with p s = true /\ out = o /\ len = length p.
Proof.
  unfold lit_match. destruct (starts_with p s); [|discriminate].
  intros H. injection H as <- <-. auto.
Qed.

Lemma lit_match_fires (p o s : str) :
  fires (lit_match p o) s <-> occurs p s.
Proof.
  unfold fires, occurs, lit_match. split.
  - intros [u [v [-> H]]]. destruct (starts_with p v) eqn:E; [|congruence].
    apply starts_with_iff in E as [t ->]. now exists u, t.
  - intros [u [v ->]]. exists u, (p ++ v). split; [reflexivity|].
    replace (starts_with p (p ++ v)) with true; [discriminate|].
    symmetry. apply starts_with_iff. now exists v.
Qed.

Lemma lit_match_wb (p o : str) : p <> [] -> well_behaved (lit_match p o).
Proof.
  intros Hp. split.
  - intros s out len H. apply lit_match_some in H as [H [_ ->]].
    apply starts_with_length in H. destruct p; [contradiction|]. simpl in *. lia.
  - intros s out len t H. apply lit_match_some in H as [H [-> ->]].
    apply starts_with_iff in H as [v ->].
    rewrite firstn_app, firstn_all, Nat.sub_diag, firstn_0, app_nil_r.
    unfold lit_match. replace (starts_with p (p ++ t)) with true; [reflexivity|].
    symmetry. apply starts_with_iff. now exists t.
Qed.

(** A match that starts before [x] does not reach into it. *)
Lemma reaches_in_reach (p o x u v out : str) (len : nat) :
  u <> [] -> reaches_in p x = false ->
  lit_match p o (u ++ x ++ v) = Some (out, len) -> len <= length u.
Proof.
  intros Hu Hre H. apply lit_match_some in H as [H [_ ->]].
  destruct (Nat.le_gt_cases (length p) (length u)) as [L|L]; [exact L|].
  exfalso. apply starts_with_iff in H as [t H]. symmetry in H.
  apply app_eq_split in H as [[d [-> _]] | [d [Hd [-> H]]]].
  - rewrite length_app in L. lia.
  - (* [p = u ++ d], and [d] is a prefix of [x ++ v] *)
    assert (comparable d x = true) as C.
    { apply starts_with_app_comparable with (v := v).
      apply starts_with_iff. now exists t. }
    assert (reaches_in (u ++ d) x = true) as C'; [|congruence].
    apply existsb_exists. exists (length u). split.
    + apply in_seq. rewrite length_app.
      destruct u; [contradiction|]. destruct d; [contradiction | simpl; lia].
    + now rewrite skipn_app, skipn_all, Nat.sub_diag.
Qed.

(** The computed test is enough for a literal to be apart from [x]. *)
Lemma touches_apart (p o x : str) :
  x <> [] -> touches p x = false -> apart (lit_match p o) x.
Proof.
  intros Hx H. apply orb_false_iff in H as [Hin Hre]. split.
  - intros k v Hk. unfold lit_match.
    destruct (starts_with p (skipn k x ++ v)) eqn:E; [|reflexivity].
    apply starts_with_app_comparable in E.
    assert (starts_inside p x = true) as C; [|congruence].
    apply existsb_exists. exists k. split; [|exact E].
    apply in_seq. lia.
  - intros u v out len H. destruct u as [|c u].
    + exfalso. apply lit_match_some in H as [H _]. simpl in H.
      apply starts_with_app_comparable in H.
      assert (starts_inside p x = true) as C; [|congruence].
      apply existsb_exists. exists 0. split; [|exact H].
      apply in_seq. destruct x; [contradiction | simpl; lia].
    + apply (reaches_in_reach p o x (c :: u) v out len);
        [discriminate | exact Hre | exact H].
Qed.

(** A replacement that ends in a captured digit. *)
Lemma apart_snoc (m : matcher) (o : str) (d : char) :
  apart m o -> (forall v, m (d :: v) = None) -> apart m (o ++ [d]).
Proof.
  intros A Hd. split.
  - intros k v Hk. rewrite length_app in Hk. simpl in Hk.
    destruct (Nat.eq_dec k (length o)) as [->|Hne].
    + rewrite skipn_app, skipn_all, Nat.sub_diag. simpl. apply Hd.
    + rewrite skipn_app. replace (k - length o) with 0 by lia.
      simpl. rewrite <- app_assoc. apply (apart_inside _ _ A). lia.
  - intros u v out len H. rewrite <- app_assoc in H.
    exact (apart_reach _ _ A _ _ _ _ H).
Qed.

(* ================================================================== *)
(** ** The shorthand patterns                                         *)
(* ================================================================== *)

Ltac list_len :=
  repeat first [rewrite length_app in * | progress cbn [length app] in *];
  try lia.

(* ---------- character classes ---------- *)

Lemma is_space_in (c : char) : is_space c = true <-> In c whitespace_chars.
Proof.
  unfold is_space. rewrite existsb_exists. split.
  - intros [x [Hx E]]. apply char_eqb_eq in E. now subst.
  - intros H. exists c. split; [exact H | now apply char_eqb_eq].
Qed.

Lemma digit_not (k : char) (d : char) :
  is_digit k = false -> is_digit d = true -> d <> k.
Proof. intros Hk Hd ->. congruence. Qed.

Lemma digit_not_space (d : char) : is_digit d = true -> is_space d = false.
Proof.
  intros Hd. destruct (is_space d) eqn:E; [|reflexivity].
  apply is_space_in in E. unfold whitespace_chars in E. simpl in E.
  repeat (destruct E as [<- | E]; [vm_compute in Hd; discriminate|]).
  destruct E.
Qed.

Lemma digit_not_equals (d : char) :
  is_digit d = true -> char_eqb d equals_sign = false.
Proof.
  intros Hd. destruct (char_eqb d equals_sign) eqn:E; [|reflexivity].
  apply char_eqb_eq in E. subst. vm_compute in Hd. discriminate.
Qed.

Lemma digit_not_ci (l : list char) (d : char) :
  forallb (fun c => negb (is_digit c)) l = true ->
  is_digit d = true -> ci l d = false.
Proof.
  intros Hl Hd. unfold ci. destruct (existsb (char_eqb d) l) eqn:E; [|reflexivity].
  apply existsb_exists in E as [x [Hx E]]. apply char_eqb_eq in E. subst x.
  rewrite forallb_forall in Hl. apply Hl in Hx. now rewrite Hd in Hx.
Qed.

(* ---------- drop_while / take_while ---------- *)

Lemma take_drop_while (f : char -> bool) (s : str) :
  s = take_while f s ++ drop_while f s.
Proof.
  induction s as [|c s IH]; [reflexivity|]. simpl.
  destruct (f c); [simpl; now f_equal | reflexivity].
Qed.

Lemma take_while_all (f : char -> bool) (s : str) :
  Forall (fun c => f c = true) (take_while f s).
Proof.
  induction s as [|c s IH]; simpl; [constructor|].
  destruct (f c) eqn:E; [now constructor | constructor].
Qed.

Lemma drop_while_head (f : char -> bool) (s : str) (c : char) (r : str) :
  drop_while f s = c :: r -> f c = false.
Proof.
  induction s as [|x s IH]; simpl; [discriminate|].
  destruct (f x) eqn:E; [exact IH|]. intros H. injection H as -> _. exact E.
Qed.

Lemma drop_while_app (f : char -> bool) (w x : str) :
  Forall (fun c => f c = true) w -> drop_while f (w ++ x) = drop_while f x.
Proof.
  induction 1 as [|c w Hc _ IH]; [reflexivity|]. simpl. now rewrite Hc.
Qed.

Lemma drop_while_stop (f : char -> bool) (c : char) (r : str) :
  f c = false -> drop_while f (c :: r) = c :: r.
Proof. intros H. simpl. now rewrite H. Qed.

Lemma drop_while_length (f : char -> bool) (s : str) :
  length (drop_while f s) <= length s.
Proof.
  induction s as [|c s IH]; simpl; [lia|]. destruct (f c); simpl; lia.
Qed.

(* ---------- the head of a shorthand ---------- *)

Lemma match_heads_inv (hs : list (char -> bool)) (s r : str) :
  match_heads hs s = Some r -> exists h, s = h ++ r /\ heads_ok hs h.
Proof.
  revert s; induction hs as [|f hs IH]; intros s; simpl.
  - intros H. injection H as ->. exists []. split; [reflexivity | constructor].
  - destruct s as [|c s]; [discriminate|].
    destruct (f c) eqn:E; [|discriminate]. intros H.
    apply IH in H as [h [-> Hh]]. exists (c :: h).
    split; [reflexivity | now constructor].
Qed.

Lemma match_heads_intro (hs : list (char -> bool)) (h x : str) :
  heads_ok hs h -> match_heads hs (h ++ x) = Some x.
Proof.
  induction 1 as [|f c hs h Hc _ IH]; [reflexivity|]. simpl. now rewrite Hc.
Qed.

(* ---------- what a match looks like ---------- *)

Lemma shorthand_inv (hs : list (char -> bool)) (out s o : str) (len : nat) :
  shorthand_match hs out s = Some (o, len) ->
  exists h w1 e w2 d r,
    s = h ++ w1 ++ e ++ w2 ++ d :: r /\
    heads_ok hs h /\ all_space w1 /\ all_space w2 /\
    ((e = [] /\ w2 = []) \/ e = [equals_sign]) /\
    is_digit d = true /\
    o = out ++ [d] /\ len = length (h ++ w1 ++ e ++ w2) + 1.
Proof.
  unfold shorthand_match.
  destruct (match_heads hs s) as [r0|] eqn:E0; [|discriminate].
  apply match_heads_inv in E0 as [h [-> Hh]].
  pose proof (take_drop_while is_space r0) as E1.
  pose proof (take_while_all is_space r0) as A1.
  revert E1 A1. generalize (take_while is_space r0) as w1. intros w1 E1 A1.
  destruct (drop_while is_space r0) as [|c r1] eqn:D1; [discriminate|].
  apply drop_while_head in D1 as Hc. subst r0.
  unfold skip_equals.
  destruct (char_eqb c equals_sign) eqn:Ec.
  - (* with an equals sign *)
    apply char_eqb_eq in Ec. subst c.
    pose proof (take_drop_while is_space r1) as E2.
    pose proof (take_while_all is_space r1) as A2.
    revert E2 A2. generalize (take_while is_space r1) as w2. intros w2 E2 A2.
    destruct (drop_while is_space r1) as [|d r] eqn:D2; [discriminate|].
    subst r1.
    destruct (is_digit d) eqn:Ed; [|discriminate].
    intros H. injection H as <- <-.
    exists h, w1, [equals_sign], w2, d, r.
    split; [reflexivity|]. split; [exact Hh|]. split; [exact A1|].
    split; [exact A2|]. split; [now right|]. split; [exact Ed|].
    split; [reflexivity|].
    list_len.
  - (* without *)
    rewrite (drop_while_stop _ _ _ Hc).
    destruct (is_digit c) eqn:Ed; [|discriminate].
    intros H. injection H as <- <-.
    exists h, w1, [], [], c, r1.
    split; [reflexivity|]. split; [exact Hh|]. split; [exact A1|].
    split; [constructor|]. split; [now left|]. split; [exact Ed|].
    split; [reflexivity|].
    list_len.
Qed.

Lemma shorthand_intro (hs : list (char -> bool)) (out h w1 e w2 : str)
  (d : char) (r : str) :
  heads_ok hs h -> all_space w1 -> all_space w2 ->
  ((e = [] /\ w2 = []) \/ e = [equals_sign]) ->
  is_digit d = true ->
  shorthand_match hs out (h ++ w1 ++ e ++ w2 ++ d :: r) =
    Some (out ++ [d], length (h ++ w1 ++ e ++ w2) + 1).
Proof.
  intros Hh A1 A2 He Hd. unfold shorthand_match.
  rewrite (match_heads_intro _ _ _ Hh), (drop_while_app _ _ _ A1).
  pose proof (digit_not_space _ Hd) as Hs.
  pose proof (digit_not_equals _ Hd) as Hq.
  assert (length (h ++ w1 ++ e ++ w2 ++ d :: r) - length r =
          length (h ++ w1 ++ e ++ w2) + 1) as L.
  { list_len. }
  destruct He as [[-> ->] | ->].
  - simpl app. rewrite (drop_while_stop _ _ _ Hs). unfold skip_equals.
    rewrite Hq, (drop_while_stop _ _ _ Hs), Hd. simpl app in L. now rewrite L.
  - simpl app. rewrite drop_while_stop by reflexivity. unfold skip_equals.
    replace (char_eqb equals_sign equals_sign) with true by reflexivity.
    rewrite (drop_while_app _ _ _ A2), (drop_while_stop _ _ _ Hs), Hd.
    simpl app in L. now rewrite L.
Qed.

Lemma shorthand_wb (hs : list (char -> bool)) (out : str) :
  well_behaved (shorthand_match hs out).
Proof.
  split.
  - intros s o len H.
    apply shorthand_inv in H
      as (h & w1 & e & w2 & d & r & -> & _ & _ & _ & _ & _ & _ & ->).
    list_len.
  - intros s o len t H.
    apply shorthand_inv in H
      as (h & w1 & e & w2 & d & r & -> & Hh & A1 & A2 & He & Hd & -> & ->).
    replace (firstn _ _) with (h ++ w1 ++ e ++ w2 ++ [d]).
    + rewrite <- !app_assoc. simpl. now apply shorthand_intro.
    + replace (h ++ w1 ++ e ++ w2 ++ d :: r)
        with ((h ++ w1 ++ e ++ w2 ++ [d]) ++ r)
        by (now rewrite <- !app_assoc).
      rewrite firstn_app.
      replace (length (h ++ w1 ++ e ++ w2) + 1)
        with (length (h ++ w1 ++ e ++ w2 ++ [d]))
        by list_len.
      now rewrite firstn_all, Nat.sub_diag, firstn_0, app_nil_r.
Qed.

Lemma shorthand_not_digit (hs : list (char -> bool)) (out : str)
  (f : char -> bool) (d : char) (v : str) :
  f d = false -> shorthand_match (f :: hs) out (d :: v) = None.
Proof. intros H. unfold shorthand_match. simpl. now rewrite H. Qed.

(** The characters of a match, the first apart, are of the tail class. *)
Lemma shorthand_tail (hs : list (char -> bool)) (h w1 e w2 : str) (d : char) :
  hs <> [] -> heads_ok hs h -> all_space w1 -> all_space w2 ->
  ((e = [] /\ w2 = []) \/ e = [equals_sign]) -> is_digit d = true ->
  Forall (fun c => tail_class hs c = true) (tl (h ++ w1 ++ e ++ w2 ++ [d])).
Proof.
  intros Hne Hh A1 A2 He Hd.
  destruct Hh as [|f c hs' h' Hc Hh]; [contradiction|].
  simpl tl. unfold tail_class. simpl tl.
  rewrite !Forall_app. repeat split.
  - clear -Hh. induction Hh as [|g x gs xs Hx _ IH]; constructor.
    + simpl. now rewrite Hx.
    + eapply Forall_impl; [|exact IH]. intros a Ha. simpl.
      apply orb_true_iff in Ha as [Ha|Ha]; [|now rewrite Ha, !orb_true_r].
      apply orb_true_iff in Ha as [Ha|Ha]; [|now rewrite Ha, !orb_true_r].
      apply orb_true_iff in Ha as [Ha|Ha]; [|now rewrite Ha, !orb_true_r].
      now rewrite Ha, !orb_true_r.
  - eapply Forall_impl; [|exact A1]. intros a Ha. simpl in Ha.
    now rewrite Ha, !orb_true_r.
  - destruct He as [[-> _] | ->]; constructor; [|constructor].
    now rewrite orb_true_r.
  - eapply Forall_impl; [|exact A2]. intros a Ha. simpl in Ha.
    now rewrite Ha, !orb_true_r.
  - constructor; [|constructor]. now rewrite Hd, !orb_true_r.
Qed.

Lemma shorthand_apart (hs : list (char -> bool)) (out x : str) :
  hs <> [] -> x <> [] -> tail_class hs (hd 0%N x) = false ->
  (forall k v, k < length x ->
     shorthand_match hs out (skipn k x ++ v) = None) ->
  apart (shorthand_match hs out) x.
Proof.
  intros Hne Hxne Hx Hin. split; [exact Hin|].
  intros u v o len H.
  destruct (Nat.le_gt_cases len (length u)) as [L|L]; [exact L|]. exfalso.
  destruct x as [|x0 x]; [contradiction|].
  destruct u as [|u0 u].
  { pose proof (Hin 0 v ltac:(simpl; lia)) as H0. simpl in H0, H. congruence. }
  apply shorthand_inv in H
      as (h & w1 & e & w2 & d & r & E & Hh & A1 & A2 & He & Hd & -> & ->).
  pose proof (shorthand_tail hs h w1 e w2 d Hne Hh A1 A2 He Hd) as T.
  (* the consumed prefix is [u0 :: u ++ x0 :: _] *)
  assert (exists z, h ++ w1 ++ e ++ w2 ++ [d] = (u0 :: u) ++ x0 :: z)
    as [z Hz].
  { replace (h ++ w1 ++ e ++ w2 ++ d :: r)
      with ((h ++ w1 ++ e ++ w2 ++ [d]) ++ r) in E
      by (now rewrite <- !app_assoc).
    apply app_eq_split in E as [[t [Et Et']] | [t [_ [Et _]]]].
    - destruct t as [|t0 t].
      + exfalso. apply (f_equal (@length char)) in Et. list_len.
      + injection Et' as -> _. now exists t.
    - exfalso. apply (f_equal (@length char)) in Et. list_len. }
  rewrite Hz in T. simpl tl in T. rewrite Forall_app in T.
  destruct T as [_ T]. inversion T as [|? ? T0 _]. simpl in Hx. congruence.
Qed.

(* ================================================================== *)
(** ** [str.strip] and the white-space rule                           *)
(* ================================================================== *)

(* ---------- str.strip ---------- *)

Lemma drop_while_suffix (f : char -> bool) (s : str) :
  exists w, s = w ++ drop_while f s.
Proof. exists (take_while f s). apply take_drop_while. Qed.

Lemma drop_while_idem (f : char -> bool) (s : str) :
  drop_while f (drop_while f s) = drop_while f s.
Proof.
  destruct (drop_while f s) as [|c r] eqn:E; [reflexivity|].
  apply drop_while_head in E. now apply drop_while_stop.
Qed.

Lemma rstrip_prefix (s : str) : exists w, s = rstrip s ++ w.
Proof.
  unfold rstrip. destruct (drop_while_suffix is_space (rev s)) as [w E].
  exists (rev w). rewrite <- rev_app_distr, <- E. now rewrite rev_involutive.
Qed.

Lemma strip_substring (s : str) : exists a b, s = a ++ strip s ++ b.
Proof.
  unfold strip, lstrip.
  destruct (drop_while_suffix is_space s) as [a Ea].
  destruct (rstrip_prefix (drop_while is_space s)) as [b Eb].
  exists a, b. now rewrite <- Eb.
Qed.

Lemma rstrip_idem (s : str) : rstrip (rstrip s) = rstrip s.
Proof. unfold rstrip. now rewrite rev_involutive, drop_while_idem. Qed.

Lemma lstrip_rstrip (t : str) : lstrip t = t -> lstrip (rstrip t) = rstrip t.
Proof.
  intros Ht. destruct (rstrip_prefix t) as [w E].
  destruct (rstrip t) as [|c r] eqn:R; [reflexivity|].
  rewrite E in Ht. unfold lstrip in *. simpl in *.
  destruct (is_space c) eqn:Ec; [|reflexivity].
  exfalso. pose proof (drop_while_length is_space (r ++ w)) as L.
  rewrite Ht in L. simpl in L. lia.
Qed.

Lemma strip_idem (s : str) : strip (strip s) = strip s.
Proof.
  unfold strip at 1.
  assert (lstrip (strip s) = strip s) as ->.
  { unfold strip. apply lstrip_rstrip. apply drop_while_idem. }
  unfold strip. apply rstrip_idem.
Qed.

Lemma fires_strip (m : matcher) (s : str) :
  well_behaved m -> fires m (strip s) -> fires m s.
Proof.
  intros W H. destruct (strip_substring s) as [a [b E]]. rewrite E.
  apply fires_app_r. now apply fires_app_l.
Qed.

(* ---------- collapsing white space ---------- *)

Lemma skipn_take_while (f : char -> bool) (s : str) :
  skipn (length (take_while f s)) s = drop_while f s.
Proof.
  induction s as [|c s IH]; [reflexivity|]. simpl.
  destruct (f c); [exact IH | reflexivity].
Qed.

Lemma collapse_space (c : char) (s : str) :
  is_space c = true ->
  re_sub ws_match (c :: s) = space :: re_sub ws_match (drop_while is_space s).
Proof.
  intros H.
  rewrite (re_sub_some ws_match c s [space] (S (length (take_while is_space s)))).
  - simpl. now rewrite skipn_take_while.
  - unfold ws_match. now rewrite H.
Qed.

Lemma collapse_other (c : char) (s : str) :
  is_space c = false ->
  re_sub ws_match (c :: s) = c :: re_sub ws_match s.
Proof. intros H. apply re_sub_none. unfold ws_match. now rewrite H. Qed.

Lemma collapse_head (s : str) :
  match s with
  | c :: _ => is_space c = false
  | [] => True
  end ->
  match re_sub ws_match s with
  | c :: _ => is_space c = false
  | [] => True
  end.
Proof.
  destruct s as [|c s]; [trivial|]. intros H. now rewrite collapse_other.
Qed.

Lemma drop_while_head' (f : char -> bool) (s : str) :
  match drop_while f s with
  | c :: _ => f c = false
  | [] => True
  end.
Proof.
  destruct (drop_while f s) as [|c r] eqn:E; [trivial|].
  now apply drop_while_head in E.
Qed.

Lemma drop_while_noop (f : char -> bool) (s : str) :
  match s with c :: _ => f c = false | [] => True end -> drop_while f s = s.
Proof. destruct s as [|c s]; [trivial|]. intros H. now apply drop_while_stop. Qed.

Lemma drop_while_collapse (t : str) :
  drop_while is_space (re_sub ws_match t) =
  re_sub ws_match (drop_while is_space t).
Proof.
  destruct t as [|c t]; [reflexivity|].
  destruct (is_space c) eqn:E.
  - rewrite (collapse_space _ _ E). simpl. rewrite E.
    replace (is_space space) with true by reflexivity.
    apply drop_while_noop, collapse_head, drop_while_head'.
  - rewrite (collapse_other _ _ E). simpl. rewrite E.
    now rewrite (collapse_other _ _ E).
Qed.

Lemma skip_equals_collapse (t : str) :
  skip_equals (re_sub ws_match t) = re_sub ws_match (skip_equals t).
Proof.
  destruct t as [|c t]; [reflexivity|].
  destruct (is_space c) eqn:E.
  - rewrite (collapse_space _ _ E). simpl.
    destruct (char_eqb c equals_sign) eqn:Q.
    + apply char_eqb_eq in Q. subst. discriminate.
    + now rewrite (collapse_space _ _ E).
  - rewrite (collapse_other _ _ E). simpl.
    destruct (char_eqb c equals_sign); [reflexivity|].
    now rewrite (collapse_other _ _ E).
Qed.

Lemma ws_normal_collapse (s : str) : ws_normal (re_sub ws_match s) = true.
Proof.
  induction s as [s IH] using (induction_ltof1 _ (@length char)).
  unfold ltof in IH. destruct s as [|c s]; [reflexivity|].
  destruct (is_space c) eqn:E.
  - rewrite (collapse_space _ _ E). simpl.
    replace (is_space space) with true by reflexivity.
    replace (char_eqb space space) with true by reflexivity.
    rewrite IH by (pose proof (drop_while_length is_space s); simpl; lia).
    pose proof (collapse_head _ (drop_while_head' is_space s)) as H.
    destruct (re_sub ws_match (drop_while is_space s)); [reflexivity|].
    now rewrite H.
  - rewrite (collapse_other _ _ E). simpl. rewrite E. simpl.
    apply IH. simpl. lia.
Qed.

Lemma ws_normal_fixed (s : str) : ws_normal s = true -> re_sub ws_match s = s.
Proof.
  induction s as [|c s IH]; [reflexivity|]. simpl.
  intros H. apply andb_true_iff in H as [H1 H2].
  destruct (is_space c) eqn:E.
  - apply andb_true_iff in H1 as [Hc Hd]. apply char_eqb_eq in Hc. subst c.
    rewrite (collapse_space _ _ E). f_equal.
    rewrite drop_while_noop; [now apply IH|].
    destruct s as [|d s]; [trivial|]. now apply negb_true_iff.
  - rewrite (collapse_other _ _ E). f_equal. now apply IH.
Qed.

Lemma ws_normal_suffix (a b : str) :
  ws_normal (a ++ b) = true -> ws_normal b = true.
Proof.
  induction a as [|c a IH]; [trivial|]. simpl. intros H.
  apply andb_true_iff in H as [_ H]. now apply IH.
Qed.

Lemma ws_normal_prefix (a b : str) :
  ws_normal (a ++ b) = true -> ws_normal a = true.
Proof.
  induction a as [|c a IH]; [reflexivity|]. simpl. intros H.
  apply andb_true_iff in H as [H1 H2]. rewrite (IH H2), andb_true_r.
  destruct (is_space c); [|reflexivity].
  apply andb_true_iff in H1 as [-> H1]. simpl.
  destruct a as [|d a]; [reflexivity | exact H1].
Qed.

Lemma ws_normal_strip (s : str) : ws_normal s = true -> ws_normal (strip s) = true.
Proof.
  intros H. destruct (strip_substring s) as [a [b E]]. rewrite E in H.
  apply ws_normal_suffix in H. now apply ws_normal_prefix in H.
Qed.

(* ---------- a shorthand seen through the collapse ---------- *)

Lemma match_heads_collapse (hs : list (char -> bool)) (s r : str) :
  Forall (fun f : char -> bool => forall c, f c = true -> is_space c = false) hs ->
  match_heads hs (re_sub ws_match s) = Some r ->
  exists r0, match_heads hs s = Some r0 /\ r = re_sub ws_match r0.
Proof.
  intros Hhs. revert s. induction Hhs as [|f fs Hf _ IH]; intros s; simpl.
  - intros H. injection H as <-. now exists s.
  - destruct s as [|c s]; [discriminate|].
    destruct (is_space c) eqn:E.
    + rewrite (collapse_space _ _ E).
      destruct (f space) eqn:F; [|discriminate].
      apply Hf in F. discriminate.
    + rewrite (collapse_other _ _ E).
      destruct (f c); [apply IH | discriminate].
Qed.

Section ShorthandCollapse.
Variable hs : list (char -> bool).
Variable out : str.
Hypothesis hs_not_space :
  Forall (fun f : char -> bool => forall c, f c = true -> is_space c = false) hs.

Lemma shorthand_collapse (s : str) :
  shorthand_match hs out (re_sub ws_match s) <> None ->
  shorthand_match hs out s <> None.
Proof.
  unfold shorthand_match.
  destruct (match_heads hs (re_sub ws_match s)) as [r|] eqn:E; [|congruence].
  apply match_heads_collapse in E as [r0 [-> ->]]; [|exact hs_not_space].
  rewrite drop_while_collapse, skip_equals_collapse, drop_while_collapse.
  pose proof (drop_while_head' is_space
                (skip_equals (drop_while is_space r0))) as Hh.
  destruct (drop_while is_space (skip_equals (drop_while is_space r0)))
    as [|d r]; [now rewrite re_sub_nil|].
  rewrite (collapse_other _ _ Hh).
  destruct (is_digit d); congruence.
Qed.

Lemma shorthand_fires_collapse (s : str) :
  hs <> [] ->
  fires (shorthand_match hs out) (re_sub ws_match s) ->
  fires (shorthand_match hs out) s.
Proof.
  intros Hne.
  induction s as [s IH] using (induction_ltof1 _ (@length char)).
  unfold ltof in IH. intros [u [v [E H]]].
  destruct s as [|c s].
  - rewrite re_sub_nil in E. destruct u; destruct v; try discriminate.
    now rewrite (wb_nil _ (shorthand_wb hs out)) in H.
  - destruct (is_space c) eqn:Ec.
    + rewrite (collapse_space _ _ Ec) in E.
      destruct u as [|u0 u].
      * exfalso. simpl in E. subst v. apply H.
        destruct hs_not_space as [|f fs Hf _]; [contradiction|].
        apply shorthand_not_digit.
        destruct (f space) eqn:F; [|reflexivity]. apply Hf in F. discriminate.
      * injection E as _ E.
        destruct (drop_while_suffix is_space s) as [w Ew].
        rewrite Ew at 1. change (c :: w ++ ?t) with ((c :: w) ++ t).
        apply fires_app_r. apply IH.
        -- pose proof (drop_while_length is_space s). simpl. lia.
        -- now exists u, v.
    + rewrite (collapse_other _ _ Ec) in E.
      destruct u as [|u0 u].
      * simpl in E. subst v. exists [], (c :: s). split; [reflexivity|].
        apply shorthand_collapse. now rewrite (collapse_other _ _ Ec).
      * injection E as _ E. change (c :: s) with ([c] ++ s).
        apply fires_app_r. apply IH; [simpl; lia|]. now exists u, v.
Qed.

End ShorthandCollapse.

(* ================================================================== *)
(** ** One pass of [normalize_text]                                   *)
(* ================================================================== *)

Lemma table_ok_all : table_ok ALL_MAPPINGS = true.
Proof. vm_compute. reflexivity. Qed.

Lemma table_ok_inv (p o : str) :
  In (p, o) ALL_MAPPINGS ->
  p <> [] /\ (forall d, is_digit d = true -> ~ In d p) /\
  (forall w, In w written_texts -> touches p w = false).
Proof.
  intros H. pose proof table_ok_all as T. unfold table_ok in T.
  rewrite forallb_forall in T.
  specialize (T p (in_map fst _ _ H)).
  apply andb_true_iff in T as [T T3]. apply andb_true_iff in T as [T1 T2].
  split; [|split].
  - intros ->. discriminate.
  - intros d Hd Hin. rewrite forallb_forall in T2. apply T2 in Hin.
    now rewrite Hd in Hin.
  - intros w Hw. rewrite forallb_forall in T3. apply T3 in Hw.
    now apply negb_true_iff.
Qed.

Lemma written_nonempty (w : str) : In w written_texts -> w <> [].
Proof.
  unfold written_texts, ALL_MAPPINGS, UNIT_MAPPINGS, TYPO_MAPPINGS. simpl.
  intros H. repeat (destruct H as [<- | H]; [discriminate|]). destruct H.
Qed.

Lemma written_mapping (p o : str) : In (p, o) ALL_MAPPINGS -> In o written_texts.
Proof.
  intros H. unfold written_texts. apply in_or_app. left.
  now apply (in_map snd) in H.
Qed.

(** A literal of the tables is apart from every written text. *)
Lemma literal_apart (p o w : str) :
  In (p, o) ALL_MAPPINGS -> In w written_texts -> apart (lit_match p o) w.
Proof.
  intros H Hw. destruct (table_ok_inv _ _ H) as [_ [_ T]].
  apply touches_apart; [now apply written_nonempty | now apply T].
Qed.

Lemma literal_apart_digit (p o w : str) (d : char) :
  In (p, o) ALL_MAPPINGS -> In w written_texts -> is_digit d = true ->
  apart (lit_match p o) (w ++ [d]).
Proof.
  intros H Hw Hd. apply apart_snoc; [now apply literal_apart|].
  intros v. unfold lit_match.
  destruct (table_ok_inv _ _ H) as [Hp [Hdig _]].
  destruct p as [|c p]; [contradiction|]. simpl.
  destruct (char_eqb c d) eqn:E; [|reflexivity].
  apply char_eqb_eq in E. subst c. exfalso. apply (Hdig d Hd). now left.
Qed.

Lemma literal_wb (p o : str) :
  In (p, o) ALL_MAPPINGS -> well_behaved (lit_match p o).
Proof. intros H. apply lit_match_wb. now destruct (table_ok_inv _ _ H). Qed.

(* ---------- the literal rules ---------- *)

Lemma apply_mappings_app (t1 t2 : list (str * str)) (s : str) :
  apply_mappings (t1 ++ t2) s = apply_mappings t2 (apply_mappings t1 s).
Proof. apply fold_left_app. Qed.

Lemma apply_mappings_id (table : list (str * str)) (s : str) :
  (forall p o, In (p, o) table -> ~ occurs p s) -> apply_mappings table s = s.
Proof.
  induction table as [|[p o] t IH]; intros H; [reflexivity|].
  unfold apply_mappings. simpl.
  rewrite re_sub_id.
  - apply IH. intros p' o' Hin. apply (H p' o'). now right.
  - rewrite lit_match_fires. apply (H p o). now left.
Qed.

(** After the rules [todo], none of the patterns seen so far occurs. *)
Lemma apply_mappings_clean (todo done : list (str * str)) (s : str) :
  (forall p o, In (p, o) (done ++ todo) -> In (p, o) ALL_MAPPINGS) ->
  (forall p o, In (p, o) done -> ~ occurs p s) ->
  forall p o, In (p, o) (done ++ todo) -> ~ occurs p (apply_mappings todo s).
Proof.
  revert done s. induction todo as [|[p1 o1] todo IH]; intros done s Hall Hdone.
  - intros p o. rewrite app_nil_r. apply Hdone.
  - intros p o Hin. unfold apply_mappings. simpl.
    apply (IH (done ++ [(p1, o1)]) (re_sub (lit_match p1 o1) s)) with (o := o).
    + intros p' o' H. apply Hall. now rewrite <- app_assoc in H.
    + intros p' o' H. rewrite <- lit_match_fires with (o := o').
      apply in_app_or in H as [H | [H | []]].
      * intros F. apply (Hdone p' o' H).
        rewrite <- lit_match_fires with (o := o').
        apply (re_sub_no_new (lit_match p1 o1) (lit_match p' o')) with (w := []).
        -- apply literal_wb, Hall, in_or_app. now left.
        -- intros t out len E. apply lit_match_some in E as [_ [-> _]].
           apply literal_apart.
           ++ apply Hall, in_or_app. now left.
           ++ apply (written_mapping p1), Hall, in_or_app. right. now left.
        -- exact F.
      * injection H as <- <-. apply re_sub_clean.
        -- apply literal_wb, Hall, in_or_app. right. now left.
        -- intros t out len E. apply lit_match_some in E as [_ [-> _]].
           assert (In (p1, o1) ALL_MAPPINGS) as A
             by (apply Hall, in_or_app; right; now left).
           apply literal_apart; [exact A | now apply (written_mapping p1)].
    + now rewrite <- app_assoc.
Qed.

Lemma literals_absent (s : str) (p o : str) :
  In (p, o) ALL_MAPPINGS -> ~ occurs p (apply_mappings ALL_MAPPINGS s).
Proof.
  intros H. apply (apply_mappings_clean ALL_MAPPINGS [] s) with (o := o).
  - intros p' o' Hin. exact Hin.
  - intros p' o' [].
  - exact H.
Qed.

(* ---------- the two shorthands ---------- *)

Lemma pf_heads_ne : [ci_p; ci_f] <> []. Proof. discriminate. Qed.
Lemma cos_heads_ne : [ci_c; ci_o; ci_s] <> []. Proof. discriminate. Qed.

Lemma ci_not_space (l : list char) :
  forallb (fun c => negb (is_space c)) l = true ->
  forall c, ci l c = true -> is_space c = false.
Proof.
  intros Hl c H. unfold ci in H. apply existsb_exists in H as [x [Hx E]].
  apply char_eqb_eq in E. subst x. rewrite forallb_forall in Hl.
  apply Hl in Hx. now apply negb_true_iff.
Qed.

Lemma pf_heads_not_space :
  Forall (fun f : char -> bool => forall c, f c = true -> is_space c = false)
         [ci_p; ci_f].
Proof. repeat constructor; apply ci_not_space; reflexivity. Qed.

Lemma cos_heads_not_space :
  Forall (fun f : char -> bool => forall c, f c = true -> is_space c = false)
         [ci_c; ci_o; ci_s].
Proof. repeat constructor; apply ci_not_space; reflexivity. Qed.

Ltac inside_by_cases :=
  let k := fresh "k" in let v := fresh "v" in let Hk := fresh "Hk" in
  intros k v Hk;
  repeat (destruct k as [|k]; [reflexivity|]);
  exfalso; simpl in Hk; lia.

Lemma pf_apart_pf_out : apart pf_match pf_out.
Proof.
  apply shorthand_apart; [discriminate | discriminate | reflexivity |].
  inside_by_cases.
Qed.

Lemma pf_apart_cos_out : apart pf_match cos_out.
Proof.
  apply shorthand_apart; [discriminate | discriminate | reflexivity |].
  inside_by_cases.
Qed.

Lemma cos_apart_cos_out : apart cos_match cos_out.
Proof.
  apply shorthand_apart; [discriminate | discriminate | reflexivity |].
  inside_by_cases.
Qed.

Lemma pf_no_digit (d : char) (v : str) :
  is_digit d = true -> pf_match (d :: v) = None.
Proof.
  intros Hd. apply shorthand_not_digit. now apply digit_not_ci.
Qed.

Lemma cos_no_digit (d : char) (v : str) :
  is_digit d = true -> cos_match (d :: v) = None.
Proof.
  intros Hd. apply shorthand_not_digit. now apply digit_not_ci.
Qed.

Lemma shorthand_out (hs : list (char -> bool)) (o s out : str) (len : nat) :
  shorthand_match hs o s = Some (out, len) ->
  exists d, is_digit d = true /\ out = o ++ [d].
Proof.
  intros H. apply shorthand_inv in H
    as (h & w1 & e & w2 & d & r & _ & _ & _ & _ & _ & Hd & -> & _).
  now exists d.
Qed.

Lemma pf_wb : well_behaved pf_match. Proof. apply shorthand_wb. Qed.
Lemma cos_wb : well_behaved cos_match. Proof. apply shorthand_wb. Qed.

(* ---------- the text after one pass ---------- *)

Lemma normalize_text_eq (x : str) :
  normalize_text x =
  strip (re_sub ws_match (re_sub cos_match (re_sub pf_match
    (apply_mappings ALL_MAPPINGS (strip x))))).
Proof. unfold normalize_text, ALL_MAPPINGS. now rewrite apply_mappings_app. Qed.

Lemma occurs_strip (p s : str) : occurs p (strip s) -> occurs p s.
Proof.
  intros [u [v E]]. destruct (strip_substring s) as [a [b E']].
  exists (a ++ u), (v ++ b). rewrite E', E. now rewrite <- !app_assoc.
Qed.

Lemma normalized_no_literal (x p o : str) :
  In (p, o) ALL_MAPPINGS -> ~ occurs p (normalize_text x).
Proof.
  intros H F. rewrite normalize_text_eq in F.
  apply occurs_strip in F.
  pose proof (literal_wb _ _ H) as W.
  assert (In pf_out written_texts) as Ipf
    by (unfold written_texts; apply in_or_app; right; simpl; auto).
  assert (In cos_out written_texts) as Icos
    by (unfold written_texts; apply in_or_app; right; simpl; auto).
  assert (In [space] written_texts) as Isp
    by (unfold written_texts; apply in_or_app; right; simpl; auto).
  rewrite <- (lit_match_fires p o) in F.
  apply (re_sub_no_new ws_match (lit_match p o) W) with (w := []) in F.
  2:{ intros t out len E. unfold ws_match in E.
      destruct t as [|c t]; [discriminate|].
      destruct (is_space c); [|discriminate]. injection E as <- _.
      now apply literal_apart. }
  apply (re_sub_no_new cos_match (lit_match p o) W) with (w := []) in F.
  2:{ intros t out len E. apply shorthand_out in E as [d [Hd ->]].
      now apply literal_apart_digit. }
  apply (re_sub_no_new pf_match (lit_match p o) W) with (w := []) in F.
  2:{ intros t out len E. apply shorthand_out in E as [d [Hd ->]].
      now apply literal_apart_digit. }
  apply lit_match_fires in F. revert F. now apply literals_absent with (o := o).
Qed.

Lemma normalized_no_pf (x : str) : ~ fires pf_match (normalize_text x).
Proof.
  intros F. rewrite normalize_text_eq in F.
  apply (fires_strip _ _ pf_wb) in F.
  apply (shorthand_fires_collapse _ _ pf_heads_not_space _ pf_heads_ne) in F.
  apply (re_sub_no_new cos_match pf_match pf_wb) with (w := []) in F.
  2:{ intros t out len E. apply shorthand_out in E as [d [Hd ->]].
      apply apart_snoc; [apply pf_apart_cos_out|].
      intros v. now apply pf_no_digit. }
  revert F. apply re_sub_clean; [apply pf_wb|].
  intros t out len E. apply shorthand_out in E as [d [Hd ->]].
  apply apart_snoc; [apply pf_apart_pf_out|].
  intros v. now apply pf_no_digit.
Qed.

Lemma normalized_no_cos (x : str) : ~ fires cos_match (normalize_text x).
Proof.
  intros F. rewrite normalize_text_eq in F.
  apply (fires_strip _ _ cos_wb) in F.
  apply (shorthand_fires_collapse _ _ cos_heads_not_space _ cos_heads_ne) in F.
  revert F. apply re_sub_clean; [apply cos_wb|].
  intros t out len E. apply shorthand_out in E as [d [Hd ->]].
  apply apart_snoc; [apply cos_apart_cos_out|].
  intros v. now apply cos_no_digit.
Qed.

Lemma normalized_ws_normal (x : str) : ws_normal (normalize_text x) = true.
Proof.
  rewrite normalize_text_eq. apply ws_normal_strip, ws_normal_collapse.
Qed.

Lemma normalized_stripped (x : str) : strip (normalize_text x) = normalize_text x.
Proof. rewrite normalize_text_eq. apply strip_idem. Qed.

(** C3.  [normalize_text] is idempotent: normalising a normalised text
    changes nothing.  On the result of a pass no rule applies again: no
    unit or typo rule, neither shorthand rule, nor the white-space rule,
    nor the final strip. *)
Theorem normalize_text_idempotent (x : str) :
  normalize_text (normalize_text x) = normalize_text x /\
  (forall p o, In (p, o) (UNIT_MAPPINGS ++ TYPO_MAPPINGS) ->
     re_sub (lit_match p o) (normalize_text x) = normalize_text x) /\
  re_sub pf_match (normalize_text x) = normalize_text x /\
  re_sub cos_match (normalize_text x) = normalize_text x /\
  re_sub ws_match (normalize_text x) = normalize_text x /\
  strip (normalize_text x) = normalize_text x.
Proof.
  set (n := normalize_text x).
  assert (forall p o, In (p, o) (UNIT_MAPPINGS ++ TYPO_MAPPINGS) ->
            ~ occurs p n) as Hlit by (intros p o; apply normalized_no_literal).
  assert (re_sub pf_match n = n) as Hpf
    by apply re_sub_id, normalized_no_pf.
  assert (re_sub cos_match n = n) as Hcos
    by apply re_sub_id, normalized_no_cos.
  assert (re_sub ws_match n = n) as Hws
    by apply ws_normal_fixed, normalized_ws_normal.
  assert (strip n = n) as Hst by apply normalized_stripped.
  split; [|split; [|repeat split; assumption]].
  - rewrite (normalize_text_eq n), Hst.
    rewrite (apply_mappings_id ALL_MAPPINGS n Hlit).
    now rewrite Hpf, Hcos, Hws.
  - intros p o H. apply re_sub_id. rewrite lit_match_fires. now apply (Hlit p o).
Qed.

(* ================================================================== *)
(** ** An occurrence carried through the rules                        *)
(* ================================================================== *)

(* ---------- an occurrence carried through the stages ---------- *)

Lemma drop_while_through (f : char -> bool) (x a b : str) :
  match x with c :: _ => f c = false | [] => False end ->
  exists a', drop_while f (a ++ x ++ b) = a' ++ x ++ b.
Proof.
  intros Hx. induction a as [|c a IH].
  - exists []. destruct x as [|c x]; [contradiction|]. simpl. now rewrite Hx.
  - simpl. destruct (f c); [exact IH | now exists (c :: a)].
Qed.

Lemma strip_through (x : str) :
  match x with c :: _ => is_space c = false | [] => False end ->
  match rev x with c :: _ => is_space c = false | [] => False end ->
  forall a b, exists a' b', strip (a ++ x ++ b) = a' ++ x ++ b'.
Proof.
  intros H1 H2 a b. unfold strip, lstrip, rstrip.
  destruct (drop_while_through is_space x a b H1) as [a' ->].
  rewrite !rev_app_distr, <- app_assoc.
  destruct (drop_while_through is_space (rev x) (rev b) (rev a') H2) as [b' ->].
  exists a', (rev b'). now rewrite !rev_app_distr, !rev_involutive, <- app_assoc.
Qed.

Lemma lit_match_positive (p o : str) :
  p <> [] -> forall s out len, lit_match p o s = Some (out, len) -> 1 <= len.
Proof.
  intros Hp s out len H. apply lit_match_some in H as [_ [_ ->]].
  destruct p; [contradiction | simpl; lia].
Qed.

Lemma apply_mappings_through (table : list (str * str)) (x : str) :
  x <> [] ->
  (forall p o, In (p, o) table -> p <> [] /\ touches p x = false) ->
  forall a b, exists a' b', apply_mappings table (a ++ x ++ b) = a' ++ x ++ b'.
Proof.
  intros Hx. induction table as [|[p o] t IH]; intros H a b.
  - now exists a, b.
  - unfold apply_mappings. simpl.
    destruct (H p o (or_introl eq_refl)) as [Hp Ht].
    destruct (re_sub_through (lit_match p o) x (lit_match_positive p o Hp)
                (touches_apart p o x Hx Ht) a b) as [a1 [b1 ->]].
    apply IH. intros p' o' Hin. apply (H p' o'). now right.
Qed.

Lemma table_touches (table : list (str * str)) (x : str) :
  forallb (fun pr => negb (str_eqb (fst pr) []) && negb (touches (fst pr) x))
          table = true ->
  forall p o, In (p, o) table -> p <> [] /\ touches p x = false.
Proof.
  intros T p o H. rewrite forallb_forall in T. apply T in H. simpl in H.
  apply andb_true_iff in H as [H1 H2]. split.
  - intros ->. discriminate.
  - now apply negb_true_iff.
Qed.

(** White space is collapsed around a text that has none. *)
Lemma take_while_bound (f : char -> bool) (u : str) (k : char) (t : str) :
  f k = false -> length (take_while f (u ++ k :: t)) <= length u.
Proof.
  intros Hk. induction u as [|c u IH]; simpl.
  - now rewrite Hk.
  - destruct (f c); simpl; lia.
Qed.

Lemma ws_apart (x : str) :
  x <> [] -> forallb (fun c => negb (is_space c)) x = true ->
  apart ws_match x.
Proof.
  intros Hx Hns. rewrite forallb_forall in Hns. split.
  - intros k v Hk.
    destruct (skipn k x) as [|c r] eqn:E.
    + apply (f_equal (@length char)) in E. rewrite length_skipn in E.
      simpl in E. lia.
    + assert (In c x) as Hin.
      { rewrite <- (firstn_skipn k x), E. apply in_or_app. right. now left. }
      apply Hns, negb_true_iff in Hin. simpl. now rewrite Hin.
  - intros u v out len H. destruct x as [|x0 x]; [contradiction|].
    assert (is_space x0 = false) as H0
      by (apply negb_true_iff, Hns; now left).
    destruct u as [|c u]; simpl in H.
    + now rewrite H0 in H.
    + destruct (is_space c); [|discriminate]. injection H as _ <-.
      pose proof (take_while_bound is_space u x0 (x ++ v) H0). simpl. lia.
Qed.

Lemma ws_match_positive (s out : str) (len : nat) :
  ws_match s = Some (out, len) -> 1 <= len.
Proof.
  destruct s as [|c s]; simpl; [discriminate|].
  destruct (is_space c); [|discriminate]. intros H. injection H as _ <-. lia.
Qed.

Lemma shorthand_positive (hs : list (char -> bool)) (o s out : str) (len : nat) :
  shorthand_match hs o s = Some (out, len) -> 1 <= len.
Proof. intros H. now apply (wb_length _ (shorthand_wb hs o)) in H. Qed.

(** Where the literal itself stands, followed by [y]. *)
Lemma lit_hit (p o y : str) :
  p <> [] ->
  reaches_in p (p ++ y) = false -> starts_inside p y = false ->
  forall a b, exists a' b',
    re_sub (lit_match p o) (a ++ (p ++ y) ++ b) = a' ++ (o ++ y) ++ b'.
Proof.
  intros Hp Hre Hin a.
  induction a as [a IH] using (induction_ltof1 _ (@length char)).
  unfold ltof in IH. intros b.
  destruct a as [|c a].
  - exists [], (re_sub (lit_match p o) b).
    change ([] ++ ?t) with t. rewrite <- !app_assoc.
    assert (re_sub (lit_match p o) (y ++ b) = y ++ re_sub (lit_match p o) b)
      as Hy.
    { apply re_sub_skip. intros k v Hk. unfold lit_match.
      destruct (starts_with p (skipn k y ++ v)) eqn:E; [|reflexivity].
      apply starts_with_app_comparable in E.
      assert (starts_inside p y = true) as C; [|congruence].
      apply existsb_exists. exists k. split; [apply in_seq; lia | exact E]. }
    destruct p as [|c p]; [contradiction|].
    change ((c :: p) ++ ?t) with (c :: (p ++ t)).
    rewrite (re_sub_some (lit_match (c :: p) o) c (p ++ y ++ b) o
               (length (c :: p))).
    + simpl pred. rewrite skipn_app, skipn_all, Nat.sub_diag, skipn_0.
      simpl. now rewrite Hy.
    + unfold lit_match.
      replace (starts_with (c :: p) (c :: p ++ y ++ b)) with true; [reflexivity|].
      symmetry. apply starts_with_iff. now exists (y ++ b).
  - change ((c :: a) ++ ?t) with (c :: (a ++ t)).
    destruct (lit_match p o (c :: (a ++ (p ++ y) ++ b))) as [[out len]|] eqn:E.
    + assert (len <= length (c :: a)) as Hl.
      { apply (reaches_in_reach p o (p ++ y) (c :: a) b out len);
          [discriminate | exact Hre | exact E]. }
      pose proof (lit_match_positive p o Hp _ _ _ E) as Hl'.
      rewrite (re_sub_some _ _ _ _ _ E), skipn_app.
      assert (pred len - length a = 0) as Z by (simpl in Hl; clear -Hl; lia).
      rewrite Z, skipn_0.
      destruct (IH (skipn (pred len) a)) with (b := b) as [a' [b' Ha']].
      { rewrite length_skipn. simpl. lia. }
      rewrite Ha'. exists (out ++ a'), b'. apply app_assoc.
    + rewrite (re_sub_none _ _ _ E).
      destruct (IH a) with (b := b) as [a' [b' Ha']]; [simpl; lia|].
      rewrite Ha'. now exists (c :: a'), b'.
Qed.

(* ================================================================== *)
(** ** Rule 11 and rule 13                                            *)
(* ================================================================== *)

Lemma in_firstn (A : Type) (n : nat) (l : list A) (x : A) :
  In x (firstn n l) -> In x l.
Proof.
  intros H. rewrite <- (firstn_skipn n l). apply in_or_app. now left.
Qed.

Lemma in_units_all (p o : str) :
  In (p, o) UNIT_MAPPINGS -> In (p, o) ALL_MAPPINGS.
Proof. intros H. apply in_or_app. now left. Qed.

(** Once rule 11 has run, the word of rule 13 is gone. *)
Lemma kilovar_word_gone (s : str) :
  ~ occurs KILOVAR_WORD (apply_mappings (firstn 12 UNIT_MAPPINGS) s).
Proof.
  intros [u [v E]].
  apply (apply_mappings_clean (firstn 12 UNIT_MAPPINGS) [] s)
    with (p := KILOVA_WORD) (o := KILOVA_RESULT).
  - intros p o H. apply in_units_all, (in_firstn _ 12). exact H.
  - intros p o [].
  - simpl. auto 15.
  - exists u, ([47476%N] ++ v). rewrite E. reflexivity.
Qed.

Lemma units_without_rule_13 (s : str) :
  apply_mappings UNIT_MAPPINGS s = apply_mappings (without_rule 12) s.
Proof.
  change UNIT_MAPPINGS
    with (firstn 12 UNIT_MAPPINGS
          ++ [(KILOVAR_WORD, [107; 86; 97; 114]%N)] ++ skipn 13 UNIT_MAPPINGS)
    at 1.
  unfold without_rule. rewrite !apply_mappings_app. f_equal.
  unfold apply_mappings at 1. simpl fold_left.
  apply re_sub_id. rewrite lit_match_fires. apply kilovar_word_gone.
Qed.

Lemma kilovar_result_pf : apart pf_match KILOVAR_RESULT.
Proof.
  apply shorthand_apart; [discriminate | discriminate | reflexivity |].
  inside_by_cases.
Qed.

Lemma kilovar_result_cos : apart cos_match KILOVAR_RESULT.
Proof.
  apply shorthand_apart; [discriminate | discriminate | reflexivity |].
  inside_by_cases.
Qed.

(* ---------- [re.sub] on either side of a text it leaves alone ---------- *)

(** What comes before [x] is rewritten as it is on its own, when no
    match that starts there reaches [x]. *)
Lemma re_sub_split_left (m : matcher) (x a b : str) :
  well_behaved m ->
  (forall u v out len,
     u <> [] -> m (u ++ x ++ v) = Some (out, len) -> len <= length u) ->
  re_sub m (a ++ x ++ b) = re_sub m a ++ re_sub m (x ++ b).
Proof.
  intros W R.
  induction a as [a IH] using (induction_ltof1 _ (@length char)).
  unfold ltof in IH. destruct a as [|c a]; [reflexivity|].
  change ((c :: a) ++ ?t) with (c :: (a ++ t)).
  destruct (m (c :: (a ++ x ++ b))) as [[o len]|] eqn:E.
  - assert (len <= length (c :: a)) as Hl
      by (apply (R (c :: a) b o len); [discriminate | exact E]).
    pose proof (wb_length m W _ _ _ E) as [Hpos _].
    assert (m (c :: a) = Some (o, len)) as E'.
    { pose proof (wb_prefix m W _ _ _ (skipn len (c :: a)) E) as P.
      change (c :: (a ++ x ++ b)) with ((c :: a) ++ x ++ b) in P.
      rewrite firstn_app in P.
      replace (len - length (c :: a)) with 0 in P by lia.
      now rewrite firstn_0, app_nil_r, firstn_skipn in P. }
    rewrite (re_sub_some _ _ _ _ _ E), (re_sub_some _ _ _ _ _ E').
    rewrite skipn_app.
    replace (pred len - length a) with 0 by (simpl in Hl; lia).
    rewrite skipn_0, IH, app_assoc; [reflexivity|].
    rewrite length_skipn. simpl. lia.
  - assert (m (c :: a) = None) as E'.
    { destruct (m (c :: a)) as [[o len]|] eqn:F; [|reflexivity].
      pose proof (wb_prefix m W _ _ _ (skipn len (c :: a) ++ x ++ b) F) as P.
      rewrite app_assoc, firstn_skipn in P.
      change ((c :: a) ++ x ++ b) with (c :: (a ++ x ++ b)) in P.
      congruence. }
    rewrite (re_sub_none _ _ _ E), (re_sub_none _ _ _ E'). simpl.
    f_equal. apply IH. simpl. lia.
Qed.

(** [re.sub] leaves [x] where it is and rewrites what comes before and
    after it as it does on their own. *)
Lemma re_sub_split (m : matcher) (x : str) :
  well_behaved m -> apart m x ->
  forall a b, re_sub m (a ++ x ++ b) = re_sub m a ++ x ++ re_sub m b.
Proof.
  intros W A a b. rewrite (re_sub_split_left m x a b W).
  - f_equal. apply re_sub_skip. apply (apart_inside m x A).
  - intros u v out len _. apply (apart_reach m x A).
Qed.

Lemma apply_mappings_split (table : list (str * str)) (x : str) :
  x <> [] ->
  (forall p o, In (p, o) table -> p <> [] /\ touches p x = false) ->
  forall a b,
    apply_mappings table (a ++ x ++ b) =
    apply_mappings table a ++ x ++ apply_mappings table b.
Proof.
  intros Hx. induction table as [|[p o] t IH]; intros H a b; [reflexivity|].
  unfold apply_mappings. simpl.
  destruct (H p o (or_introl eq_refl)) as [Hp Ht].
  rewrite (re_sub_split (lit_match p o) x (lit_match_wb p o Hp)
             (touches_apart p o x Hx Ht)).
  apply IH. intros p' o' Hin. apply (H p' o'). now right.
Qed.

(** The literal [p], followed by [y], is replaced where it stands. *)
Lemma lit_hit_split (p o y : str) :
  p <> [] ->
  reaches_in p (p ++ y) = false -> starts_inside p y = false ->
  forall a b,
    re_sub (lit_match p o) (a ++ (p ++ y) ++ b) =
    re_sub (lit_match p o) a ++ (o ++ y) ++ re_sub (lit_match p o) b.
Proof.
  intros Hp Hre Hin a b.
  rewrite (re_sub_split_left _ (p ++ y) a b (lit_match_wb p o Hp)).
  2:{ intros u v out len Hu. now apply reaches_in_reach. }
  f_equal. rewrite <- !app_assoc.
  assert (re_sub (lit_match p o) (y ++ b) = y ++ re_sub (lit_match p o) b)
    as Hy.
  { apply re_sub_skip. intros k v Hk. unfold lit_match.
    destruct (starts_with p (skipn k y ++ v)) eqn:E; [|reflexivity].
    apply starts_with_app_comparable in E.
    assert (starts_inside p y = true) as C; [|congruence].
    apply existsb_exists. exists k. split; [apply in_seq; lia | exact E]. }
  destruct p as [|c p]; [contradiction|].
  change ((c :: p) ++ ?t) with (c :: (p ++ t)).
  rewrite (re_sub_some (lit_match (c :: p) o) c (p ++ y ++ b) o
             (length (c :: p))).
  - simpl pred. rewrite skipn_app, skipn_all, Nat.sub_diag, skipn_0.
    simpl. now rewrite Hy.
  - unfold lit_match.
    replace (starts_with (c :: p) (c :: p ++ y ++ b)) with true; [reflexivity|].
    symmetry. apply starts_with_iff. now exists (y ++ b).
Qed.

(* ---------- white space on either side ---------- *)

Lemma drop_while_before (f : char -> bool) (a y : str) :
  match y with c :: _ => f c = false | [] => True end ->
  drop_while f (a ++ y) = drop_while f a ++ y.
Proof.
  intros Hy. induction a as [|c a IH]; simpl.
  - destruct y as [|d y]; [reflexivity|]. simpl. now rewrite Hy.
  - destruct (f c); [exact IH | reflexivity].
Qed.

Lemma collapse_split (x : str) :
  x <> [] -> forallb (fun c => negb (is_space c)) x = true ->
  forall a b,
    re_sub ws_match (a ++ x ++ b) =
    re_sub ws_match a ++ x ++ re_sub ws_match b.
Proof.
  intros Hx Hns a b.
  assert (match x ++ b with c :: _ => is_space c = false | [] => True end)
    as Hh.
  { destruct x as [|c x]; [contradiction|]. simpl in Hns |- *.
    apply andb_true_iff in Hns as [Hc _]. now apply negb_true_iff. }
  induction a as [a IH] using (induction_ltof1 _ (@length char)).
  unfold ltof in IH. destruct a as [|c a].
  - simpl app. apply re_sub_skip. apply (apart_inside _ _ (ws_apart x Hx Hns)).
  - change ((c :: a) ++ ?t) with (c :: (a ++ t)).
    destruct (is_space c) eqn:E.
    + rewrite !(collapse_space _ _ E), (drop_while_before _ a (x ++ b) Hh).
      simpl. f_equal. apply IH.
      pose proof (drop_while_length is_space a). simpl. lia.
    + rewrite !(collapse_other _ _ E). simpl. f_equal. apply IH. simpl. lia.
Qed.

Lemma strip_split (x : str) :
  match x with c :: _ => is_space c = false | [] => False end ->
  match rev x with c :: _ => is_space c = false | [] => False end ->
  forall a b, strip (a ++ x ++ b) = lstrip a ++ x ++ rstrip b.
Proof.
  intros H1 H2 a b. unfold strip, lstrip, rstrip.
  rewrite (drop_while_before is_space a (x ++ b)).
  2:{ destruct x; [contradiction | exact H1]. }
  rewrite !rev_app_distr, <- app_assoc.
  rewrite (drop_while_before is_space (rev b)
             (rev x ++ rev (drop_while is_space a))).
  2:{ destruct (rev x); [contradiction | exact H2]. }
  now rewrite !rev_app_distr, !rev_involutive, <- app_assoc.
Qed.

(* ---------- the word of rule 13, wherever it stands ---------- *)

Lemma rewrite_rules_stages (s : str) :
  rewrite_rules s =
  re_sub ws_match (re_sub cos_match (re_sub pf_match
    (apply_mappings TYPO_MAPPINGS
      (apply_mappings (skipn 11 UNIT_MAPPINGS)
        (re_sub (lit_match KILOVA_WORD KILOVA_RESULT)
          (apply_mappings (firstn 10 UNIT_MAPPINGS) s)))))).
Proof. reflexivity. Qed.

Lemma normalize_text_rules (x : str) :
  normalize_text x = strip (rewrite_rules (strip x)).
Proof. reflexivity. Qed.

(** The rules put [kVA] and the last syllable where the word of rule 13
    stands, and rewrite what is before and after it as they do on their
    own. *)
Lemma kilovar_word_split (a b : str) :
  rewrite_rules (a ++ KILOVAR_WORD ++ b) =
  rewrite_rules a ++ KILOVAR_RESULT ++ rewrite_rules b.
Proof.
  rewrite !rewrite_rules_stages.
  rewrite (apply_mappings_split (firstn 10 UNIT_MAPPINGS) KILOVAR_WORD
             ltac:(discriminate)
             (table_touches (firstn 10 UNIT_MAPPINGS) KILOVAR_WORD eq_refl)).
  rewrite (lit_hit_split KILOVA_WORD KILOVA_RESULT [47476%N]
             ltac:(discriminate) eq_refl eq_refl).
  change (KILOVA_RESULT ++ [47476%N]) with KILOVAR_RESULT.
  rewrite (apply_mappings_split (skipn 11 UNIT_MAPPINGS) KILOVAR_RESULT
             ltac:(discriminate)
             (table_touches (skipn 11 UNIT_MAPPINGS) KILOVAR_RESULT eq_refl)).
  rewrite (apply_mappings_split TYPO_MAPPINGS KILOVAR_RESULT
             ltac:(discriminate)
             (table_touches TYPO_MAPPINGS KILOVAR_RESULT eq_refl)).
  rewrite (re_sub_split pf_match KILOVAR_RESULT pf_wb kilovar_result_pf).
  rewrite (re_sub_split cos_match KILOVAR_RESULT cos_wb kilovar_result_cos).
  apply (collapse_split KILOVAR_RESULT ltac:(discriminate) eq_refl).
Qed.

Lemma kilovar_words_split (pieces : list str) :
  rewrite_rules (join KILOVAR_WORD pieces) =
  join KILOVAR_RESULT (map rewrite_rules pieces).
Proof.
  induction pieces as [|p rest IH]; [reflexivity|].
  destruct rest as [|q rest]; [reflexivity|].
  change (join KILOVAR_WORD (p :: q :: rest))
    with (p ++ KILOVAR_WORD ++ join KILOVAR_WORD (q :: rest)).
  rewrite kilovar_word_split, IH. reflexivity.
Qed.

Lemma kilovar_word_normalized (u v : str) :
  normalize_text (u ++ KILOVAR_WORD ++ v) =
  lstrip (rewrite_rules (lstrip u)) ++ KILOVAR_RESULT
  ++ rstrip (rewrite_rules (rstrip v)).
Proof.
  rewrite normalize_text_rules.
  rewrite (strip_split KILOVAR_WORD eq_refl eq_refl).
  rewrite kilovar_word_split.
  apply (strip_split KILOVAR_RESULT eq_refl eq_refl).
Qed.

(** C10.  The rule for the word of kVA (the eleventh unit rule) comes
    before the rule for the word of kVar (the thirteenth), whose pattern
    starts with it.  So the text that reaches the thirteenth rule never
    holds its pattern, and the table without that rule normalises every
    text the same way.  Every occurrence of the word of kVar is
    rewritten to [kVA] followed by the last syllable, where it stands:
    [normalize_text] is its rules between two strips; the rules put that
    text in the place of the word and rewrite what comes before and
    after it as they do on their own, so a text cut at occurrences of
    the word comes out as its rewritten pieces joined by [kVA] and the
    syllable; [normalize_text] does the same, the strips taking the
    outer ends, and no normalised text holds the word.  For one, "100"
    followed by the word comes out as "100kVA" and that syllable, not as
    "100kVar". *)
Theorem kilovar_rule_never_fires :
  nth_error UNIT_MAPPINGS 10 = Some (u8 "키로바", u8 "kVA") /\
  nth_error UNIT_MAPPINGS 12 = Some (u8 "키로바르", u8 "kVar") /\
  (forall s,
     ~ occurs (u8 "키로바르") (apply_mappings (firstn 12 UNIT_MAPPINGS) s)) /\
  (forall s,
     apply_mappings UNIT_MAPPINGS s = apply_mappings (without_rule 12) s) /\
  (forall x, normalize_text x = strip (rewrite_rules (strip x))) /\
  (forall a b,
     rewrite_rules (a ++ u8 "키로바르" ++ b) =
     rewrite_rules a ++ u8 "kVA르" ++ rewrite_rules b) /\
  (forall pieces,
     rewrite_rules (join (u8 "키로바르") pieces) =
     join (u8 "kVA르") (map rewrite_rules pieces)) /\
  (forall u v,
     normalize_text (u ++ u8 "키로바르" ++ v) =
     lstrip (rewrite_rules (lstrip u)) ++ u8 "kVA르"
     ++ rstrip (rewrite_rules (rstrip v))) /\
  (forall s, ~ occurs (u8 "키로바르") (normalize_text s)) /\
  normalize_text (u8 "100키로바르") = u8 "100kVA르" /\
  normalize_text (u8 "100키로바르") <> u8 "100kVar".
Proof.
  split; [reflexivity|]. split; [reflexivity|].
  split; [exact kilovar_word_gone|].
  split; [exact units_without_rule_13|].
  split; [exact normalize_text_rules|].
  split; [exact kilovar_word_split|].
  split; [exact kilovar_words_split|].
  split; [exact kilovar_word_normalized|].
  split.
  - intros s. apply (normalized_no_literal s KILOVAR_WORD (u8 "kVar")).
    apply in_units_all. do 12 right. left. reflexivity.
  - split; [reflexivity | discriminate].
Qed.

(* ================================================================== *)
(** ** The errors of [validate_input]                               *)
(* ================================================================== *)

Ltac find_in := simpl; solve [repeat (first [left; reflexivity | right])].

Lemma blocked_b_iff (s : str) : blocked_b s = true <-> blocked s.
Proof.
  split; [|apply blocked_b_true].
  unfold blocked_b, check_blocked_patterns.
  destruct (check_blocked_from_cases blocked_patterns s) as [E|E]; rewrite E.
  - intros _. now apply check_blocked_iff.
  - discriminate.
Qed.

Lemma text_errors_cases (n : str) :
  let l := contribution (length n <? min_length) MSG_TOO_SHORT
           ++ contribution (max_length <? length n) MSG_TOO_LONG
           ++ contribution (blocked_b n) MSG_BLOCKED in
  l = [] \/ l = [MSG_TOO_SHORT] \/ l = [MSG_TOO_LONG] \/ l = [MSG_BLOCKED]
  \/ l = [MSG_TOO_SHORT; MSG_BLOCKED] \/ l = [MSG_TOO_LONG; MSG_BLOCKED].
Proof.
  cbv zeta. unfold min_length, max_length.
  destruct (length n <? 3) eqn:E1; destruct (2000 <? length n) eqn:E2;
    destruct (blocked_b n); simpl; auto 10.
  all: apply Nat.ltb_lt in E1, E2; lia.
Qed.

Lemma image_errors_cases (request : InputValidationRequest) :
  image_errors request = [] \/ image_errors request = [MSG_IMAGE_SIZE].
Proof.
  unfold image_errors. destruct (image_base64 request) as [img|]; [|now left].
  destruct (present (Some img) && _)%bool; simpl; auto.
Qed.

(** The lists of errors there can be. *)
Lemma validate_input_errors_cases (request : InputValidationRequest) :
  In (errors (validate_input request))
     [[]; [MSG_TOO_SHORT]; [MSG_TOO_LONG]; [MSG_BLOCKED];
      [MSG_TOO_SHORT; MSG_BLOCKED]; [MSG_TOO_LONG; MSG_BLOCKED];
      [MSG_IMAGE_SIZE]; [MSG_TOO_SHORT; MSG_IMAGE_SIZE];
      [MSG_TOO_LONG; MSG_IMAGE_SIZE]; [MSG_BLOCKED; MSG_IMAGE_SIZE];
      [MSG_TOO_SHORT; MSG_BLOCKED; MSG_IMAGE_SIZE];
      [MSG_TOO_LONG; MSG_BLOCKED; MSG_IMAGE_SIZE];
      [MSG_NO_INPUT]].
Proof.
  rewrite validate_input_errors.
  destruct (text request) as [[|c t]|] eqn:Et.
  - (* empty text *)
    unfold image_errors. destruct (image_base64 request) as [[|d i]|];
      cbn [present negb andb contribution app].
    + find_in.
    + destruct (max_size_bytes <? _)%Z; find_in.
    + find_in.
  - cbv zeta. cbn [present negb andb contribution]. rewrite app_nil_r.
    destruct (text_errors_cases (normalize_text (c :: t)))
      as [E | [E | [E | [E | [E | E]]]]]; cbv zeta in E; rewrite E;
      destruct (image_errors_cases request) as [I | I]; rewrite I;
      find_in.
  - unfold image_errors. destruct (image_base64 request) as [[|d i]|];
      cbn [present negb andb contribution app].
    + find_in.
    + destruct (max_size_bytes <? _)%Z; find_in.
    + find_in.
Qed.

(** X1.  Whatever the request, [validate_input] reports no error twice,
    reports only its five fixed messages, and reports at most three of
    them. *)
Theorem input_errors_shape (request : InputValidationRequest) :
  NoDup (errors (validate_input request)) /\
  incl (errors (validate_input request)) input_messages /\
  length (errors (validate_input request)) <= 3.
Proof.
  pose proof (validate_input_errors_cases request) as H.
  simpl in H.
  repeat (destruct H as [<- | H];
    [split; [|split];
     [repeat constructor; simpl; intuition discriminate
     | intros x Hx; simpl in Hx; unfold input_messages; simpl; intuition
     | simpl; lia] |]).
  destruct H.
Qed.

(** X2.  A text whose normalised form is longer than 2000 characters is
    rejected with the "too long" error, and never with the "too short"
    one. *)
Theorem long_text_rejected (request : InputValidationRequest) (t : str) :
  text request = Some t ->
  max_length < length (normalize_text t) ->
  valid (validate_input request) = false /\
  In MSG_TOO_LONG (errors (validate_input request)) /\
  ~ In MSG_TOO_SHORT (errors (validate_input request)).
Proof.
  intros Ht Hlen.
  assert (t <> []) as Hne by (intros ->; simpl in Hlen; lia).
  destruct t as [|c t]; [contradiction|].
  pose proof (validate_input_errors request) as E. rewrite Ht in E. cbv zeta in E.
  apply Nat.ltb_lt in Hlen as Hl. rewrite Hl in E.
  replace (length (normalize_text (c :: t)) <? min_length) with false in E
    by (symmetry; apply Nat.ltb_ge; unfold min_length, max_length in *; lia).
  cbn [contribution app present negb andb] in E. rewrite app_nil_r in E.
  assert (In MSG_TOO_LONG (errors (validate_input request))) as Hin
    by (rewrite E; now left).
  split; [exact (validate_input_invalid _ _ Hin)|]. split; [exact Hin|].
  rewrite E. intros [H | H]; [discriminate|].
  apply in_app_or in H as [H | H].
  - apply in_contribution in H as [_ H]. discriminate.
  - destruct (image_errors_cases request) as [I | I]; rewrite I in H;
      simpl in H; intuition discriminate.
Qed.

Lemma long_text_rejected_witness :
  valid (validate_input
           {| text := Some (repeat 97%N 2001); image_base64 := None |}) = false /\
  In MSG_TOO_LONG
     (errors (validate_input
                {| text := Some (repeat 97%N 2001); image_base64 := None |})) /\
  ~ In MSG_TOO_SHORT
       (errors (validate_input
                  {| text := Some (repeat 97%N 2001); image_base64 := None |})).
Proof.
  apply (long_text_rejected
           {| text := Some (repeat 97%N 2001); image_base64 := None |}
           (repeat 97%N 2001)).
  - reflexivity.
  - vm_compute. lia.
Defined.

(** X3.  A request is accepted exactly when a text or an image is
    present, a non-empty text has a normalised form of 3 to 2000
    characters that matches no blocked pattern, and the estimated size
    of a supplied image is at most 10 MiB. *)
Theorem validate_input_accepts_iff (request : InputValidationRequest) :
  valid (validate_input request) = true <->
  (present (text request) = true \/ present (image_base64 request) = true) /\
  (forall t, text request = Some t -> t <> [] ->
     min_length <= length (normalize_text t) <= max_length /\
     ~ blocked (normalize_text t)) /\
  (forall img, image_base64 request = Some img ->
     (estimate_base64_size img <= max_size_bytes)%Z).
Proof.
  rewrite validate_input_valid, validate_input_errors.
  split.
  - intros H. apply app_eq_nil in H as [H1 H]. apply app_eq_nil in H as [H2 H3].
    split; [|split].
    + destruct (present (text request)); [now left|].
      destruct (present (image_base64 request)); [now right|]. discriminate.
    + intros t Ht Hne. rewrite Ht in H1. destruct t as [|c t]; [contradiction|].
      cbv zeta in H1. apply app_eq_nil in H1 as [Ha Hb].
      apply app_eq_nil in Hb as [Hb Hc].
      destruct (length (normalize_text (c :: t)) <? min_length) eqn:E1;
        [discriminate|].
      destruct (max_length <? length (normalize_text (c :: t))) eqn:E2;
        [discriminate|].
      apply Nat.ltb_ge in E1, E2. split; [lia|].
      intros B. apply blocked_b_iff in B. rewrite B in Hc. discriminate.
    + intros img Hi. unfold image_errors in H2. rewrite Hi in H2.
      destruct img as [|d img]; [vm_compute; discriminate|].
      cbn [present andb] in H2.
      destruct (max_size_bytes <? estimate_base64_size (d :: img))%Z eqn:E;
        [discriminate|].
      now apply Z.ltb_ge in E.
  - intros [Hp [Ht Hi]].
    assert (image_errors request = []) as ->.
    { unfold image_errors. destruct (image_base64 request) as [img|]; [|reflexivity].
      specialize (Hi img eq_refl). apply Z.ltb_ge in Hi. rewrite Hi.
      now rewrite andb_false_r. }
    replace (negb (present (text request))
             && negb (present (image_base64 request)))%bool with false
      by (destruct Hp as [-> | ->]; now rewrite ?andb_false_r).
    cbn [contribution app]. rewrite app_nil_r.
    destruct (text request) as [[|c t]|]; try reflexivity.
    destruct (Ht (c :: t) eq_refl ltac:(discriminate)) as [[L1 L2] B].
    cbv zeta.
    replace (length (normalize_text (c :: t)) <? min_length) with false
      by (symmetry; now apply Nat.ltb_ge).
    replace (max_length <? length (normalize_text (c :: t))) with false
      by (symmetry; now apply Nat.ltb_ge).
    destruct (blocked_b (normalize_text (c :: t))) eqn:E; [|reflexivity].
    now apply blocked_b_iff in E.
Qed.

(** The blocked-content error is there exactly when the normalised text
    is blocked. *)
Lemma blocked_error_normalized (request : InputValidationRequest) :
  In MSG_BLOCKED (errors (validate_input request)) <->
  exists t, text request = Some t /\ blocked (normalize_text t).
Proof.
  rewrite validate_input_errors, !in_app_iff, in_contribution. split.
  - intros [H | [H | [_ H]]]; [| | discriminate].
    + destruct (text request) as [[|c t]|]; try contradiction.
      cbv zeta in H. rewrite !in_app_iff, !in_contribution in H.
      destruct H as [[_ H] | [[_ H] | [H _]]]; try discriminate.
      exists (c :: t). split; [reflexivity | now apply blocked_b_iff].
    + apply in_image_errors in H as [i [_ [_ H]]]. discriminate.
  - intros [t [Ht B]]. left. rewrite Ht.
    destruct t as [|c t]; [now apply blocked_nonempty in B|].
    cbv zeta. rewrite !in_app_iff, !in_contribution. right. right.
    split; [now apply blocked_b_iff | reflexivity].
Qed.

(** X4.  The "must supply text or image" error is reported exactly when
    text and image are both absent or empty, and it is then the only
    error. *)
Theorem no_input_error_iff (request : InputValidationRequest) :
  (In MSG_NO_INPUT (errors (validate_input request)) <->
   present (text request) = false /\ present (image_base64 request) = false) /\
  (In MSG_NO_INPUT (errors (validate_input request)) ->
   errors (validate_input request) = [MSG_NO_INPUT]).
Proof.
  pose proof (validate_input_errors_cases request) as C.
  assert (In MSG_NO_INPUT (errors (validate_input request)) ->
          errors (validate_input request) = [MSG_NO_INPUT]) as Honly.
  { intros H. simpl in C.
    repeat (destruct C as [C | C];
      [rewrite <- C in H |- *; simpl in H; try reflexivity;
       exfalso; intuition discriminate |]).
    destruct C. }
  split; [|exact Honly].
  split.
  - intros H. apply Honly in H. rewrite validate_input_errors in H.
    destruct (present (text request)) eqn:Pt.
    + exfalso. destruct (text request) as [[|c t]|]; try discriminate.
      cbn [negb andb contribution] in H. rewrite app_nil_r in H. cbv zeta in H.
      destruct (text_errors_cases (normalize_text (c :: t)))
        as [E | [E | [E | [E | [E | E]]]]]; cbv zeta in E; rewrite E in H;
        destruct (image_errors_cases request) as [I | I]; rewrite I in H;
        discriminate.
    + split; [reflexivity|].
      destruct (present (image_base64 request)) eqn:Pi; [|reflexivity].
      exfalso. cbn [negb andb contribution] in H. rewrite app_nil_r in H.
      destruct (text request) as [[|c t]|]; try discriminate;
        destruct (image_errors_cases request) as [I | I]; rewrite I in H;
        discriminate.
  - intros [Pt Pi]. rewrite validate_input_errors, Pt, Pi.
    rewrite !in_app_iff. right. right. now left.
Qed.

(* ================================================================== *)
(** ** The warnings of [validate_output]                            *)
(* ================================================================== *)

(* ---------- decimal numerals ---------- *)

Lemma u8_digits_inj (d1 d2 : uint) :
  u8 (NilEmpty.string_of_uint d1) = u8 (NilEmpty.string_of_uint d2) -> d1 = d2.
Proof.
  revert d2. induction d1; intros d2; destruct d2; simpl;
    unfold u8; simpl; intros H; try discriminate; try reflexivity;
    injection H as H; f_equal; now apply IHd1.
Qed.

Lemma decimal_inj (n m : nat) : decimal n = decimal m -> n = m.
Proof.
  unfold decimal. intros H. apply u8_digits_inj in H.
  now apply DecimalNat.Unsigned.to_uint_inj in H.
Qed.

Lemma msg_step_inj (k k' : nat) : msg_step k = msg_step k' -> k = k'.
Proof.
  unfold msg_step. intros H. apply app_inv_head in H.
  apply app_inv_tail in H. now apply decimal_inj.
Qed.

(* ---------- the warnings, check by check ---------- *)

Lemma steps_warnings_eq (i0 : nat) (l : list pydict) (w : list str) :
  steps_warnings i0 l w = w ++ step_messages i0 l.
Proof.
  revert i0 w. induction l as [|s l IH]; intros i0 w; simpl.
  - now rewrite app_nil_r.
  - rewrite IH, append_if_app. unfold step_incomplete.
    now rewrite <- app_assoc.
Qed.

Lemma validate_output_warnings (request : OutputValidationRequest) :
  Output.warnings (validate_output request) =
  contribution (negb (present (answer request))) (msg_field (u8 "answer"))
  ++ contribution (negb (present (steps request))) (msg_field (u8 "steps"))
  ++ contribution (negb (present (formulas request)))
                  (msg_field (u8 "formulas"))
  ++ contribution (unit_missing (answer request)) MSG_UNIT
  ++ step_messages 0 (steps_of request)
  ++ contribution (low_confidence (confidence request)) MSG_CONFIDENCE.
Proof.
  unfold validate_output. cbn [Output.warnings].
  unfold required_fields, required_warnings.
  rewrite !append_if_app. cbn [app].
  change (field_present request [97; 110; 115; 119; 101; 114]%N)
    with (present (answer request)).
  change (field_present request [115; 116; 101; 112; 115]%N)
    with (present (steps request)).
  change (field_present request [102; 111; 114; 109; 117; 108; 97; 115]%N)
    with (present (formulas request)).
  unfold unit_missing, steps_of, low_confidence.
  destruct (answer request) as [[|c a]|];
    destruct (steps request) as [[|s l]|];
    destruct (confidence request) as [x|];
    rewrite ?steps_warnings_eq, ?append_if_app;
    cbn [present negb andb contribution step_messages app];
    rewrite ?app_nil_r, <- ?app_assoc; reflexivity.
Qed.

Lemma in_step_messages (k i0 : nat) (l : list pydict) :
  In (msg_step k) (step_messages i0 l) <->
  exists step, i0 < k /\ nth_error l (k - i0 - 1) = Some step /\
               step_incomplete step = true.
Proof.
  revert i0. induction l as [|s l IH]; intros i0; simpl.
  - split; [intros [] | intros [step [_ [H _]]]].
    destruct (k - i0 - 1); discriminate.
  - rewrite in_app_iff, in_contribution, IH. split.
    + intros [[Hs E] | [step [Hk [Hn Hi]]]].
      * apply msg_step_inj in E. subst k. exists s.
        replace (i0 + 1 - i0 - 1) with 0 by lia. split; [lia | auto].
      * exists step. split; [lia|]. split; [|exact Hi].
        replace (k - i0 - 1) with (S (k - S i0 - 1)) by lia. exact Hn.
    + intros [step [Hk [Hn Hi]]].
      destruct (Nat.eq_dec k (i0 + 1)) as [->|Hne].
      * left. replace (i0 + 1 - i0 - 1) with 0 in Hn by lia.
        simpl in Hn. injection Hn as ->. auto.
      * right. exists step. split; [lia|]. split; [|exact Hi].
        replace (k - i0 - 1) with (S (k - S i0 - 1)) in Hn by lia. exact Hn.
Qed.

Lemma step_messages_only (x : str) (i0 : nat) (l : list pydict) :
  In x (step_messages i0 l) -> exists k, x = msg_step k.
Proof.
  revert i0. induction l as [|s l IH]; intros i0; simpl; [intros []|].
  rewrite in_app_iff, in_contribution. intros [[_ ->] | H]; eauto.
Qed.

Lemma msg_step_head (k : nat) : exists r, msg_step k = 54400%N :: r.
Proof. unfold msg_step, step_prefix. simpl. eauto. Qed.

Ltac not_step H :=
  let r := fresh "r" in let E := fresh "E" in
  match type of H with
  | _ = msg_step ?k => destruct (msg_step_head k) as [r E]; rewrite E in H;
                       discriminate
  | msg_step ?k = _ => destruct (msg_step_head k) as [r E]; rewrite E in H;
                       discriminate
  end.

(** X5.  The warning of step [k] is among the warnings exactly when the
    request has a [k]-th step (counted from 1) whose title or content is
    missing or falsy. *)
Theorem step_warning_iff (request : OutputValidationRequest) (k : nat) :
  In (msg_step k) (Output.warnings (validate_output request)) <->
  exists step, 1 <= k /\ nth_error (steps_of request) (k - 1) = Some step /\
               (truthy (dict_get step (u8 "title")) = false \/
                truthy (dict_get step (u8 "content")) = false).
Proof.
  rewrite validate_output_warnings, !in_app_iff, !in_contribution,
    in_step_messages.
  split.
  - intros [[_ H] | [[_ H] | [[_ H] | [[_ H] | [H | [_ H]]]]]];
      try not_step H.
    destruct H as [step [Hk [Hn Hi]]]. exists step.
    rewrite Nat.sub_0_r in Hn. split; [lia|]. split; [exact Hn|].
    unfold step_incomplete in Hi. apply orb_true_iff in Hi.
    now rewrite !negb_true_iff in Hi.
  - intros [step [Hk [Hn Hi]]]. do 4 right. left. exists step.
    rewrite Nat.sub_0_r. split; [lia|]. split; [exact Hn|].
    unfold step_incomplete. apply orb_true_iff. now rewrite !negb_true_iff.
Qed.

(** X6.  The low-confidence warning is among the warnings exactly when
    a confidence is given and is below [min_confidence], the double
    0.7; an absent confidence and a NaN give no warning. *)
Theorem confidence_warning_iff (request : OutputValidationRequest) :
  In MSG_CONFIDENCE (Output.warnings (validate_output request)) <->
  match confidence request with
  | Some (Finite q) => (q < min_confidence)%Q
  | Some NegInf => True
  | Some PosInf | Some NaN | None => False
  end.
Proof.
  rewrite validate_output_warnings, !in_app_iff, !in_contribution.
  assert (low_confidence (confidence request) = true <->
          match confidence request with
          | Some (Finite q) => (q < min_confidence)%Q
          | Some NegInf => True
          | Some PosInf | Some NaN | None => False
          end) as L.
  { unfold low_confidence. destruct (confidence request) as [[q| | |]|];
      simpl; try (split; [discriminate | contradiction]); try tauto.
    rewrite negb_true_iff. split.
    - intros H. apply Qnot_le_lt. intros C. apply Qle_bool_iff in C. congruence.
    - intros H. destruct (Qle_bool min_confidence q) eqn:E; [|reflexivity].
      apply Qle_bool_iff in E. exfalso. now apply (Qlt_not_le _ _ H). }
  rewrite <- L. split; [|tauto].
  intros [[_ H] | [[_ H] | [[_ H] | [[_ H] | [H | [H _]]]]]];
    try discriminate; [|exact H].
  apply step_messages_only in H as [j H]. not_step H.
Qed.

(** X7.  The missing-field warning of each of [answer], [steps] and
    [formulas] is among the warnings exactly when that field is absent
    or empty. *)
Theorem missing_field_warnings (request : OutputValidationRequest) :
  (In (msg_field (u8 "answer")) (Output.warnings (validate_output request))
   <-> answer request = None \/ answer request = Some []) /\
  (In (msg_field (u8 "steps")) (Output.warnings (validate_output request))
   <-> steps request = None \/ steps request = Some []) /\
  (In (msg_field (u8 "formulas")) (Output.warnings (validate_output request))
   <-> formulas request = None \/ formulas request = Some []).
Proof.
  assert (forall (A : Type) (v : option (list A)),
            negb (present v) = true <-> v = None \/ v = Some []) as P.
  { intros A [[|x l]|]; simpl; split; try tauto; try discriminate;
      intros [H | H]; discriminate. }
  rewrite validate_output_warnings, !in_app_iff, !in_contribution.
  rewrite <- (P char (answer request)), <- (P pydict (steps request)),
    <- (P str (formulas request)).
  repeat split.
  all: try (intros [[H E] | [[H E] | [[H E] | [[H E] | [H | [H E]]]]]];
            try exact H; try (vm_compute in E; discriminate);
            apply step_messages_only in H as [j H]; not_step H).
  all: intros H;
    solve [repeat (first [left; split; [exact H | reflexivity] | right])].
Qed.

(** X8.  [validate_output] gives no warning at all exactly when answer,
    steps and formulas are present and not empty, the answer has a unit
    or no digit, every step has a title and a content, and the
    confidence is absent or not below 0.7. *)
Theorem no_warnings_iff (request : OutputValidationRequest) :
  Output.warnings (validate_output request) = [] <->
  present (answer request) = true /\
  present (steps request) = true /\
  present (formulas request) = true /\
  (forall a, answer request = Some a ->
     has_number a = false \/ has_unit a = true) /\
  (forall step, In step (steps_of request) ->
     truthy (dict_get step (u8 "title")) = true /\
     truthy (dict_get step (u8 "content")) = true) /\
  low_confidence (confidence request) = false.
Proof.
  rewrite validate_output_warnings.
  assert (forall i0 l, step_messages i0 l = [] <->
            forall step, In step l -> step_incomplete step = false) as S.
  { intros i0 l. revert i0. induction l as [|s l IH]; intros i0; simpl.
    - split; [intros _ step [] | reflexivity].
    - split.
      + intros H. apply app_eq_nil in H as [H1 H2].
        intros step [<- | Hin].
        * destruct (step_incomplete s); [discriminate | reflexivity].
        * now apply (proj1 (IH (S i0)) H2).
      + intros H. rewrite (H s (or_introl eq_refl)). simpl.
        apply IH. intros step Hin. apply H. now right. }
  split.
  - intros H.
    apply app_eq_nil in H as [H1 H]. apply app_eq_nil in H as [H2 H].
    apply app_eq_nil in H as [H3 H]. apply app_eq_nil in H as [H4 H].
    apply app_eq_nil in H as [H5 H6].
    destruct (present (answer request)) eqn:Pa; [|discriminate].
    destruct (present (steps request)) eqn:Ps; [|discriminate].
    destruct (present (formulas request)) eqn:Pf; [|discriminate].
    repeat split; trivial.
    + intros a Ha. unfold unit_missing in H4. rewrite Ha in H4.
      rewrite Ha in Pa. rewrite Pa in H4. simpl in H4.
      destruct (has_number a); [|now left].
      destruct (has_unit a); [now right | discriminate].
    + pose proof (proj1 (S 0 _) H5 step H) as I. unfold step_incomplete in I.
      apply orb_false_iff in I as [I _]. now apply negb_false_iff in I.
    + pose proof (proj1 (S 0 _) H5 step H) as I. unfold step_incomplete in I.
      apply orb_false_iff in I as [_ I]. now apply negb_false_iff in I.
    + destruct (low_confidence (confidence request)); [discriminate | reflexivity].
  - intros [Pa [Ps [Pf [Hu [Hs Hc]]]]]. rewrite Pa, Ps, Pf, Hc. simpl.
    rewrite app_nil_r.
    replace (unit_missing (answer request)) with false.
    + simpl. apply S. intros step Hin. destruct (Hs step Hin) as [T C].
      unfold step_incomplete. now rewrite T, C.
    + unfold unit_missing. destruct (answer request) as [a|]; [|reflexivity].
      destruct (Hu a eq_refl) as [-> | ->]; now rewrite ?andb_false_r.
Qed.

Lemma step_messages_NoDup (i0 : nat) (l : list pydict) :
  NoDup (step_messages i0 l).
Proof.
  revert i0. induction l as [|s l IH]; intros i0; simpl; [constructor|].
  destruct (step_incomplete s); simpl; [|apply IH].
  constructor; [|apply IH].
  intros H. apply in_step_messages in H as [step [Hk _]]. lia.
Qed.

Lemma step_messages_length (i0 : nat) (l : list pydict) :
  length (step_messages i0 l) = length (filter step_incomplete l).
Proof.
  revert i0. induction l as [|s l IH]; intros i0; simpl; [reflexivity|].
  destruct (step_incomplete s); simpl; now rewrite IH.
Qed.

Lemma NoDup_around (A : Type) (a m b : list A) :
  NoDup (a ++ b) -> NoDup m ->
  (forall x, In x m -> ~ In x (a ++ b)) -> NoDup (a ++ m ++ b).
Proof.
  intros Hab Hm D. induction a as [|y a IH]; simpl in *.
  - induction m as [|z m IHm]; [exact Hab|]. simpl.
    inversion Hm as [|? ? Hz Hm']; subst. constructor.
    + rewrite in_app_iff. intros [H | H]; [contradiction|].
      apply (D z); [now left | exact H].
    + apply IHm; [exact Hm'|]. intros x Hx. apply D. now right.
  - inversion Hab as [|? ? Hy Hab']; subst. constructor.
    + rewrite !in_app_iff in *. intros [H | [H | H]]; [tauto | | tauto].
      apply (D y H). now left.
    + apply IH; [exact Hab'|]. intros x Hx Hin. apply (D x Hx). now right.
Qed.

(** X9.  [validate_output] gives no warning twice, and at most five
    warnings more than the request has steps. *)
Theorem output_warnings_shape (request : OutputValidationRequest) :
  NoDup (Output.warnings (validate_output request)) /\
  length (Output.warnings (validate_output request))
  <= 5 + length (steps_of request).
Proof.
  rewrite validate_output_warnings.
  set (W := step_messages 0 (steps_of request)).
  assert (length W <= length (steps_of request)) as LS
    by (unfold W; rewrite step_messages_length; apply filter_length_le).
  assert (forall x, In x W ->
            ~ In x [msg_field (u8 "answer"); msg_field (u8 "steps");
                    msg_field (u8 "formulas"); MSG_UNIT; MSG_CONFIDENCE]) as D.
  { intros x Hx. apply step_messages_only in Hx as [k ->].
    destruct (msg_step_head k) as [r ->]. simpl.
    intros [H | [H | [H | [H | [H | []]]]]]; discriminate. }
  pose proof (step_messages_NoDup 0 (steps_of request)) as NS. fold W in NS.
  destruct (negb (present (answer request)));
    destruct (negb (present (steps request)));
    destruct (negb (present (formulas request)));
    destruct (unit_missing (answer request));
    destruct (low_confidence (confidence request));
    cbn [contribution app].
  all: split; [|rewrite ?length_app; simpl; rewrite ?length_app; simpl; lia].
  all: match goal with
       | |- NoDup (?a :: ?b :: ?c :: ?d :: ?m ++ ?e) =>
         apply (NoDup_around _ [a; b; c; d] m e)
       | |- NoDup (?a :: ?b :: ?c :: ?m ++ ?e) =>
         apply (NoDup_around _ [a; b; c] m e)
       | |- NoDup (?a :: ?b :: ?m ++ ?e) => apply (NoDup_around _ [a; b] m e)
       | |- NoDup (?a :: ?m ++ ?e) => apply (NoDup_around _ [a] m e)
       | |- NoDup (?m ++ ?e) => apply (NoDup_around _ [] m e)
       end.
  all: try exact NS.
  all: try (repeat constructor; simpl; intuition discriminate).
  all: intros x Hx Hin; apply (D x Hx); simpl in Hin |- *; tauto.
Qed.

(* ================================================================== *)
(** ** What [normalize_text] returns                                *)
(* ================================================================== *)

(** A second pass changes nothing. *)
Lemma normalize_text_fixed (x : str) :
  normalize_text (normalize_text x) = normalize_text x.
Proof.
  rewrite (normalize_text_eq (normalize_text x)), normalized_stripped.
  rewrite (apply_mappings_id ALL_MAPPINGS)
    by (intros p o; apply normalized_no_literal).
  rewrite (re_sub_id pf_match) by apply normalized_no_pf.
  rewrite (re_sub_id cos_match) by apply normalized_no_cos.
  rewrite ws_normal_fixed by apply normalized_ws_normal.
  apply normalized_stripped.
Qed.

(* ---------- white space in a normalised text ---------- *)

Lemma ws_normal_at (s u v : str) (c : char) :
  ws_normal s = true -> s = u ++ c :: v -> is_space c = true ->
  c = space /\ match v with d :: _ => is_space d = false | [] => True end.
Proof.
  intros H -> Hc. apply ws_normal_suffix in H. simpl in H. rewrite Hc in H.
  apply andb_true_iff in H as [H _]. apply andb_true_iff in H as [E H].
  apply char_eqb_eq in E. split; [exact E|].
  destruct v as [|d v]; [trivial | now apply negb_true_iff].
Qed.

Lemma lstrip_fixed_head (c : char) (r : str) :
  lstrip (c :: r) = c :: r -> is_space c = false.
Proof.
  unfold lstrip. simpl. destruct (is_space c); [|reflexivity].
  intros H. pose proof (drop_while_length is_space r) as L.
  rewrite H in L. simpl in L. lia.
Qed.

Lemma strip_fixed_ends (s : str) :
  strip s = s ->
  (forall c r, s = c :: r -> is_space c = false) /\
  (forall r c, s = r ++ [c] -> is_space c = false).
Proof.
  intros H. split.
  - intros c r ->. apply (lstrip_fixed_head c r).
    rewrite <- H at 1. unfold strip. rewrite lstrip_rstrip.
    + exact H.
    + apply drop_while_idem.
  - intros r c ->.
    assert (rstrip (r ++ [c]) = r ++ [c]) as R
      by (rewrite <- H at 1; unfold strip; rewrite rstrip_idem; exact H).
    unfold rstrip in R. apply (f_equal (@rev char)) in R.
    rewrite rev_involutive, rev_app_distr in R. simpl in R.
    destruct (is_space c); [|reflexivity].
    pose proof (drop_while_length is_space (rev r)) as L.
    rewrite R in L. simpl in L. lia.
Qed.

(** X10.  A normalised text neither starts nor ends with white space,
    and its only white space is single U+0020 characters, each followed
    by a character that is not white space. *)
Theorem normalized_white_space (x : str) :
  (forall c r, normalize_text x = c :: r -> is_space c = false) /\
  (forall r c, normalize_text x = r ++ [c] -> is_space c = false) /\
  (forall u c v, normalize_text x = u ++ c :: v -> is_space c = true ->
     c = space /\ match v with d :: _ => is_space d = false | [] => True end).
Proof.
  destruct (strip_fixed_ends _ (normalized_stripped x)) as [H1 H2].
  split; [exact H1|]. split; [exact H2|].
  intros u c v E Hc.
  exact (ws_normal_at _ u v c (normalized_ws_normal x) E Hc).
Qed.

(* ---------- the empty result ---------- *)

Lemma all_space_or_ink (s : str) : all_space s \/ has_ink s.
Proof.
  induction s as [|c s [IH | [d [Hd Hs]]]].
  - left. constructor.
  - destruct (is_space c) eqn:E.
    + left. now constructor.
    + right. exists c. split; [now left | exact E].
  - right. exists d. split; [now right | exact Hs].
Qed.

Lemma all_space_no_ink (s : str) : all_space s -> ~ has_ink s.
Proof.
  intros A [c [Hc Hs]]. unfold all_space in A. rewrite Forall_forall in A.
  apply A in Hc. congruence.
Qed.

Lemma drop_while_all (f : char -> bool) (s : str) :
  Forall (fun c => f c = true) s -> drop_while f s = [].
Proof. induction 1 as [|c s Hc _ IH]; simpl; [reflexivity | now rewrite Hc]. Qed.

Lemma strip_all_space (s : str) : all_space s -> strip s = [].
Proof.
  intros A. unfold strip, lstrip. now rewrite (drop_while_all _ _ A).
Qed.

Lemma drop_while_ink (s : str) : has_ink s -> has_ink (drop_while is_space s).
Proof.
  induction s as [|c s IH]; intros [d [Hd Hs]]; [destruct Hd|]. simpl.
  destruct (is_space c) eqn:E.
  - apply IH. destruct Hd as [-> | Hd]; [congruence | now exists d].
  - exists d. auto.
Qed.

Lemma has_ink_rev (s : str) : has_ink s -> has_ink (rev s).
Proof. intros [c [Hc Hs]]. exists c. split; [now apply in_rev in Hc | exact Hs]. Qed.

Lemma strip_ink (s : str) : has_ink s -> has_ink (strip s).
Proof.
  intros H. unfold strip, rstrip, lstrip.
  now apply has_ink_rev, drop_while_ink, has_ink_rev, drop_while_ink.
Qed.

(** [re.sub] keeps ink when every replacement has some. *)
Lemma re_sub_ink (m : matcher) :
  (forall s out len, m s = Some (out, len) -> has_ink out) ->
  forall s, has_ink s -> has_ink (re_sub m s).
Proof.
  intros Hout s.
  induction s as [s IH] using (induction_ltof1 _ (@length char)).
  unfold ltof in IH. intros [d [Hd Hs]].
  destruct s as [|c s]; [destruct Hd|].
  destruct (m (c :: s)) as [[out len]|] eqn:E.
  - rewrite (re_sub_some _ _ _ _ _ E).
    destruct (Hout _ _ _ E) as [e [He Hes]]. exists e.
    split; [apply in_or_app; now left | exact Hes].
  - rewrite (re_sub_none _ _ _ E). destruct Hd as [-> | Hd].
    + exists d. split; [now left | exact Hs].
    + destruct (IH s) as [e [He Hes]]; [simpl; lia | now exists d |].
      exists e. split; [now right | exact Hes].
Qed.

Lemma collapse_ink (s : str) : has_ink s -> has_ink (re_sub ws_match s).
Proof.
  induction s as [s IH] using (induction_ltof1 _ (@length char)).
  unfold ltof in IH. intros H.
  destruct s as [|c s]; [destruct H as [d [[] _]]|].
  destruct (is_space c) eqn:E.
  - rewrite (collapse_space _ _ E).
    destruct (IH (drop_while is_space s)) as [e [He Hes]].
    + pose proof (drop_while_length is_space s). simpl. lia.
    + apply drop_while_ink. destruct H as [d [[-> | Hd] Hs]];
        [congruence | now exists d].
    + exists e. split; [now right | exact Hes].
  - rewrite (collapse_other _ _ E). exists c. split; [now left | exact E].
Qed.

Lemma has_ink_b (s : str) :
  existsb (fun c => negb (is_space c)) s = true -> has_ink s.
Proof.
  intros H. apply existsb_exists in H as [c [Hc Hs]].
  exists c. split; [exact Hc | now apply negb_true_iff].
Qed.

Lemma mapping_out_ink (p o : str) : In (p, o) ALL_MAPPINGS -> has_ink o.
Proof.
  intros H.
  assert (forallb (fun pr => existsb (fun c => negb (is_space c)) (snd pr))
                  ALL_MAPPINGS = true) as T by reflexivity.
  rewrite forallb_forall in T. apply has_ink_b. exact (T _ H).
Qed.

Lemma apply_mappings_ink (table : list (str * str)) (s : str) :
  (forall p o, In (p, o) table -> In (p, o) ALL_MAPPINGS) ->
  has_ink s -> has_ink (apply_mappings table s).
Proof.
  revert s. induction table as [|[p o] t IH]; intros s Hall H; [exact H|].
  unfold apply_mappings. simpl. apply IH.
  - intros p' o' Hin. apply Hall. now right.
  - apply re_sub_ink; [|exact H].
    intros s' out len E. apply lit_match_some in E as [_ [-> _]].
    apply (mapping_out_ink p). apply Hall. now left.
Qed.

Lemma shorthand_out_ink (hs : list (char -> bool)) (o s out : str) (len : nat) :
  shorthand_match hs o s = Some (out, len) -> has_ink out.
Proof.
  intros H. apply shorthand_out in H as [d [Hd ->]].
  exists d. split; [apply in_or_app; right; now left | now apply digit_not_space].
Qed.

Lemma normalize_text_ink (x : str) : has_ink x -> has_ink (normalize_text x).
Proof.
  intros H. rewrite normalize_text_eq.
  apply strip_ink, collapse_ink.
  apply re_sub_ink; [apply shorthand_out_ink|].
  apply re_sub_ink; [apply shorthand_out_ink|].
  apply apply_mappings_ink; [auto|]. now apply strip_ink.
Qed.

Lemma normalize_text_blank (x : str) : all_space x -> normalize_text x = [].
Proof.
  intros A. rewrite normalize_text_eq, (strip_all_space _ A). reflexivity.
Qed.

(** X11.  [normalize_text] gives the empty text exactly for the texts
    made of white space only. *)
Theorem normalize_text_empty_iff (x : str) :
  normalize_text x = [] <-> Forall (fun c => is_space c = true) x.
Proof.
  split; [|apply normalize_text_blank].
  intros E. destruct (all_space_or_ink x) as [A | I]; [exact A|].
  apply normalize_text_ink in I. rewrite E in I.
  destruct I as [c [[] _]].
Qed.

(** X12.  A non-empty text of white space only is rejected: its
    normalised form is the empty text, which is returned, and the errors
    are the "too short" error followed by what the image check gives. *)
Theorem blank_text_rejected (request : InputValidationRequest) (t : str) :
  text request = Some t -> t <> [] ->
  Forall (fun c => is_space c = true) t ->
  valid (validate_input request) = false /\
  normalized_text (validate_input request) = Some [] /\
  errors (validate_input request) = MSG_TOO_SHORT :: image_errors request.
Proof.
  intros Ht Hne A.
  pose proof (validate_input_errors request) as E.
  pose proof (validate_input_normalized request) as Nm.
  rewrite Ht in E, Nm. destruct t as [|c t]; [contradiction|].
  rewrite (normalize_text_blank _ A) in E, Nm. cbv zeta in E.
  cbn [length Nat.ltb Nat.leb min_length max_length contribution app
       present negb andb] in E.
  change (blocked_b []) with false in E. cbn [contribution app] in E.
  rewrite app_nil_r in E.
  split; [|split; [exact Nm | exact E]].
  apply validate_input_invalid with (msg := MSG_TOO_SHORT). rewrite E. now left.
Qed.

Lemma blank_text_rejected_witness :
  valid (validate_input
           {| text := Some (u8 "   "); image_base64 := None |}) = false /\
  normalized_text (validate_input
           {| text := Some (u8 "   "); image_base64 := None |}) = Some [] /\
  errors (validate_input
           {| text := Some (u8 "   "); image_base64 := None |})
  = MSG_TOO_SHORT
    :: image_errors {| text := Some (u8 "   "); image_base64 := None |}.
Proof.
  apply (blank_text_rejected
           {| text := Some (u8 "   "); image_base64 := None |} (u8 "   ")).
  - reflexivity.
  - discriminate.
  - repeat constructor.
Defined.

(** X13.  Sending the normalised form of a text instead of the text
    gives the same verdict, errors and normalised text, unless the
    normalised form is empty. *)
Theorem resubmit_normalized (t : str) (image : option str) :
  normalize_text t <> [] ->
  validate_input {| text := Some (normalize_text t); image_base64 := image |}
  = validate_input {| text := Some t; image_base64 := image |}.
Proof.
  intros Hn. destruct t as [|c t]; [now contradiction Hn|].
  unfold validate_input. cbn [text image_base64].
  destruct (normalize_text (c :: t)) as [|d n] eqn:E; [contradiction|].
  assert (normalize_text (d :: n) = d :: n) as F
    by (rewrite <- E; apply normalize_text_fixed).
  rewrite F. reflexivity.
Qed.

Lemma resubmit_normalized_witness :
  validate_input
    {| text := Some (normalize_text (u8 " 100볼트  PF=0.8 "));
       image_base64 := None |}
  = validate_input
      {| text := Some (u8 " 100볼트  PF=0.8 "); image_base64 := None |}.
Proof.
  apply (resubmit_normalized (u8 " 100볼트  PF=0.8 ") None).
  vm_compute. discriminate.
Defined.

(* ================================================================== *)
(** ** Rules that always apply                                      *)
(* ================================================================== *)

Lemma heads_stuck_tail (hs : list (char -> bool)) (s v : str) :
  heads_stuck hs s = true ->
  match match_heads hs (s ++ v) with
  | Some r0 =>
    match drop_while is_space (skip_equals (drop_while is_space r0)) with
    | d :: _ => is_digit d = false
    | [] => True
    end
  | None => True
  end.
Proof.
  revert s. induction hs as [|h hs IH]; intros s H.
  - destruct s as [|c s]; [discriminate|]. simpl in H.
    apply negb_true_iff, orb_false_iff in H as [H Hd].
    apply orb_false_iff in H as [Hs He].
    simpl. rewrite Hs. unfold skip_equals. rewrite He.
    now rewrite (drop_while_stop _ _ _ Hs).
  - destruct s as [|c s]; [discriminate|]. simpl in H |- *.
    destruct (h c); [now apply IH | trivial].
Qed.

Lemma heads_stuck_none (hs : list (char -> bool)) (out s v : str) :
  heads_stuck hs s = true -> shorthand_match hs out (s ++ v) = None.
Proof.
  intros H. apply heads_stuck_tail with (v := v) in H.
  unfold shorthand_match. destruct (match_heads hs (s ++ v)); [|reflexivity].
  destruct (drop_while _ _); [reflexivity|]. now rewrite H.
Qed.

Lemma never_starts_apart (hs : list (char -> bool)) (out o : str) :
  hs <> [] -> o <> [] ->
  tail_class hs (hd 0%N o) = false -> never_starts hs o = true ->
  apart (shorthand_match hs out) o.
Proof.
  intros Hhs Ho Ht Hn. apply shorthand_apart; trivial.
  intros k v Hk. apply heads_stuck_none.
  unfold never_starts in Hn. rewrite forallb_forall in Hn.
  apply Hn, in_seq. lia.
Qed.

Lemma inked_ends_inv (s : str) :
  inked_ends s = true ->
  s <> [] /\
  match s with c :: _ => is_space c = false | [] => False end /\
  match rev s with c :: _ => is_space c = false | [] => False end.
Proof.
  unfold inked_ends. intros H. apply andb_true_iff in H as [H1 H2].
  split; [intros ->; discriminate|]. split.
  - destruct s; [discriminate | now apply negb_true_iff].
  - destruct (rev s); [discriminate | now apply negb_true_iff].
Qed.

Lemma nth_error_parts (A : Type) (l : list A) (i : nat) (x : A) :
  nth_error l i = Some x -> l = firstn i l ++ x :: skipn (S i) l.
Proof.
  revert i. induction l as [|y l IH]; intros i H.
  - destruct i; discriminate.
  - destruct i as [|i]; simpl in *.
    + now injection H as ->.
    + f_equal. now apply IH.
Qed.

Lemma apply_mappings_at (table : list (str * str)) (i : nat) (p o s : str) :
  nth_error table i = Some (p, o) ->
  apply_mappings table s =
  apply_mappings (skipn (S i) table)
    (re_sub (lit_match p o) (apply_mappings (firstn i table) s)).
Proof.
  intros H.
  change (apply_mappings (skipn (S i) table)
            (re_sub (lit_match p o) (apply_mappings (firstn i table) s)))
    with (apply_mappings ((p, o) :: skipn (S i) table)
            (apply_mappings (firstn i table) s)).
  rewrite <- apply_mappings_app. f_equal. now apply nth_error_parts.
Qed.

(** A live rule rewrites its pattern wherever it stands. *)
Lemma live_rule_carried (i : nat) (p o : str) :
  nth_error ALL_MAPPINGS i = Some (p, o) -> rule_live i = true ->
  forall u v, exists u' v', normalize_text (u ++ p ++ v) = u' ++ o ++ v'.
Proof.
  intros Hn L u v. unfold rule_live in L. rewrite Hn in L.
  apply andb_true_iff in L as [L H].
  apply andb_true_iff in L as [L H0]. apply negb_true_iff in H0.
  apply andb_true_iff in L as [L H1].
  apply andb_true_iff in L as [L H2]. apply negb_true_iff in H2.
  apply andb_true_iff in L as [L H3].
  apply andb_true_iff in L as [L H4]. apply negb_true_iff in H4.
  apply andb_true_iff in L as [L H5].
  apply andb_true_iff in L as [L H6].
  apply andb_true_iff in L as [L H7].
  destruct (inked_ends_inv p L) as [Hp [Hp1 Hp2]].
  destruct (inked_ends_inv o H7) as [Ho [Ho1 Ho2]].
  rewrite normalize_text_eq, (apply_mappings_at _ i p o _ Hn).
  destruct (strip_through p Hp1 Hp2 u v) as [a0 [b0 ->]].
  destruct (apply_mappings_through (firstn i ALL_MAPPINGS) p Hp
              (table_touches _ p H5) a0 b0) as [a1 [b1 ->]].
  destruct (lit_hit p o [] Hp) with (a := a1) (b := b1) as [a2 [b2 E2]].
  { now rewrite app_nil_r. }
  { reflexivity. }
  rewrite !app_nil_r in E2. rewrite E2.
  destruct (apply_mappings_through (skipn (S i) ALL_MAPPINGS) o Ho
              (table_touches _ o H3) a2 b2) as [a3 [b3 ->]].
  destruct (re_sub_through pf_match o (shorthand_positive _ _)
              (never_starts_apart [ci_p; ci_f] pf_out o pf_heads_ne Ho H2 H1)
              a3 b3) as [a4 [b4 ->]].
  destruct (re_sub_through cos_match o (shorthand_positive _ _)
              (never_starts_apart [ci_c; ci_o; ci_s] cos_out o cos_heads_ne Ho H0 H)
              a4 b4) as [a5 [b5 ->]].
  destruct (re_sub_through ws_match o ws_match_positive
              (ws_apart o Ho H6) a5 b5) as [a6 [b6 ->]].
  apply (strip_through o Ho1 Ho2).
Qed.

(** X14.  Every word of the unit and typo tables is rewritten wherever
    it stands, whatever comes before and after it: the normalised text
    holds the replacement of its rule.  Four rules are set apart, the
    fifth, thirteenth, twentieth and twenty-first of the two tables
    taken together (positions 4, 12, 19 and 20 counted from 0): an
    earlier rule can take a part of their word first. *)
Theorem unit_and_typo_words_rewritten (i : nat) (p o : str) :
  nth_error (UNIT_MAPPINGS ++ TYPO_MAPPINGS) i = Some (p, o) ->
  ~ In i [4; 12; 19; 20] ->
  forall u v, exists u' v', normalize_text (u ++ p ++ v) = u' ++ o ++ v'.
Proof.
  intros Hn Hi. apply (live_rule_carried i p o Hn).
  assert (i < 24) as Hlt.
  { change 24 with (length (UNIT_MAPPINGS ++ TYPO_MAPPINGS)).
    apply (proj1 (nth_error_Some _ _)). now rewrite Hn. }
  assert (In i (filter rule_live (seq 0 24))) as F.
  { change (filter rule_live (seq 0 24))
      with [0; 1; 2; 3; 5; 6; 7; 8; 9; 10; 11; 13; 14; 15; 16; 17; 18;
            21; 22; 23].
    simpl in Hi |- *. lia. }
  now apply filter_In in F.
Qed.

Lemma unit_and_typo_words_rewritten_witness :
  exists u' v',
    normalize_text (u8 "전압 220" ++ u8 "볼트" ++ u8 ", 저항 10옴")
    = u' ++ u8 "V" ++ v'.
Proof.
  apply (unit_and_typo_words_rewritten 5 (u8 "볼트") (u8 "V")).
  - reflexivity.
  - simpl. lia.
Defined.

(* ================================================================== *)
(** ** Blocked words and the rules                                  *)
(* ================================================================== *)

Lemma blocked_words_safe : forallb word_safe blocked_words = true.
Proof. vm_compute. reflexivity. Qed.

Lemma blocked_iff_word (s : str) :
  blocked s <-> exists w, In w blocked_words /\ occurs w s.
Proof.
  unfold blocked, blocked_words. split.
  - intros [p [alt [Hp [Ha Ho]]]]. exists alt. split; [|exact Ho].
    apply in_concat. now exists p.
  - intros [w [Hw Ho]]. apply in_concat in Hw as [p [Hp Ha]].
    now exists p, w.
Qed.

(* ---------- the look-ahead reading ---------- *)

Section LookAhead.
Variable hs : list (char -> bool).
Variable out : str.
Hypothesis hs_ne : hs <> [].
Hypothesis hs_no_digit : forall d v,
    is_digit d = true -> shorthand_match hs out (d :: v) = None.

Let m := shorthand_match hs out.

Lemma before_digit_inv (s o : str) (len : nat) :
  before_digit m s = Some (o, len) ->
  exists h w1 e w2 d r,
    s = h ++ w1 ++ e ++ w2 ++ d :: r /\
    heads_ok hs h /\ all_space w1 /\ all_space w2 /\
    ((e = [] /\ w2 = []) \/ e = [equals_sign]) /\
    is_digit d = true /\ o = out /\ len = length (h ++ w1 ++ e ++ w2) /\
    m s = Some (out ++ [d], S len).
Proof using All.
  unfold before_digit. destruct (m s) as [[o' len']|] eqn:E; [|discriminate].
  intros H. injection H as <- <-.
  pose proof E as E'. apply shorthand_inv in E'
    as (h & w1 & e & w2 & d & r & -> & Hh & A1 & A2 & He & Hd & -> & ->).
  exists h, w1, e, w2, d, r. rewrite removelast_last.
  replace (length (h ++ w1 ++ e ++ w2) + 1)
    with (S (length (h ++ w1 ++ e ++ w2))) in * by lia.
  simpl pred. auto 10.
Qed.

Lemma heads_ok_length (h : str) : heads_ok hs h -> 1 <= length h.
Proof using All.
  intros H. destruct H; [contradiction | simpl; lia].
Qed.

Lemma before_digit_positive (s o : str) (len : nat) :
  before_digit m s = Some (o, len) -> 1 <= len.
Proof using All.
  intros H. apply before_digit_inv in H
    as (h & w1 & e & w2 & d & r & _ & Hh & _ & _ & _ & _ & _ & -> & _).
  apply heads_ok_length in Hh. rewrite length_app. lia.
Qed.

(** Both readings give the same [re.sub]. *)
Lemma re_sub_before_digit (s : str) :
  re_sub m s = re_sub (before_digit m) s.
Proof using All.
  induction s as [s IH] using (induction_ltof1 _ (@length char)).
  unfold ltof in IH. destruct s as [|c s]; [reflexivity|].
  destruct (before_digit m (c :: s)) as [[o len]|] eqn:B.
  - pose proof (before_digit_positive _ _ _ B) as Hpos.
    rewrite (re_sub_some _ _ _ _ _ B).
    apply before_digit_inv in B
      as (h & w1 & e & w2 & d & r & E & Hh & A1 & A2 & He & Hd & -> & Hl & M).
    rewrite (re_sub_some _ _ _ _ _ M). simpl pred.
    assert (skipn (pred len) s = d :: r /\ skipn len s = r) as [Sk Sk'].
    { replace (h ++ w1 ++ e ++ w2 ++ d :: r)
        with ((h ++ w1 ++ e ++ w2) ++ d :: r) in E
        by (now rewrite <- !app_assoc).
      assert (skipn len (c :: s) = d :: r) as K.
      { rewrite E, skipn_app, Hl, skipn_all, Nat.sub_diag. reflexivity. }
      destruct len as [|n]; [lia|]. cbn [skipn] in K. simpl pred.
      split; [exact K|].
      change (S n) with (1 + n). rewrite <- skipn_skipn, K. reflexivity. }
    rewrite Sk, Sk'.
    assert (before_digit m (d :: r) = None) as Nd
      by (unfold before_digit, m; now rewrite hs_no_digit).
    rewrite (re_sub_none _ _ _ Nd), <- app_assoc. simpl.
    do 2 f_equal. apply IH.
    rewrite <- Sk'. rewrite length_skipn. simpl. lia.
  - assert (m (c :: s) = None) as N.
    { unfold before_digit in B. destruct (m (c :: s)) as [[? ?]|];
        [discriminate | reflexivity]. }
    rewrite (re_sub_none _ _ _ N), (re_sub_none _ _ _ B). f_equal.
    apply IH. simpl. lia.
Qed.

(** The characters before the digit, the first apart, are of the gap
    class. *)
Lemma before_digit_gap (h w1 e w2 : str) :
  heads_ok hs h -> all_space w1 -> all_space w2 ->
  ((e = [] /\ w2 = []) \/ e = [equals_sign]) ->
  Forall (fun c => gap_class hs c = true) (tl (h ++ w1 ++ e ++ w2)).
Proof using All.
  intros Hh A1 A2 He.
  destruct Hh as [|f c hs' h' Hc Hh]; [contradiction|].
  simpl tl. unfold gap_class. simpl tl.
  rewrite !Forall_app. repeat split.
  - clear -Hh. induction Hh as [|g x gs xs Hx _ IH]; constructor.
    + simpl. now rewrite Hx.
    + eapply Forall_impl; [|exact IH]. intros a Ha. simpl.
      apply orb_true_iff in Ha as [Ha|Ha]; [|now rewrite Ha, !orb_true_r].
      apply orb_true_iff in Ha as [Ha|Ha]; [|now rewrite Ha, !orb_true_r].
      now rewrite Ha, !orb_true_r.
  - eapply Forall_impl; [|exact A1]. intros a Ha. simpl in Ha.
    now rewrite Ha, !orb_true_r.
  - destruct He as [[-> _] | ->]; constructor; [|constructor].
    now rewrite orb_true_r.
  - eapply Forall_impl; [|exact A2]. intros a Ha. simpl in Ha.
    now rewrite Ha, !orb_true_r.
Qed.

Lemma before_digit_apart (x : str) :
  x <> [] -> gap_class hs (hd 0%N x) = false -> never_starts hs x = true ->
  apart (before_digit m) x.
Proof using All.
  intros Hx Hg Hn.
  assert (forall k v, k < length x -> before_digit m (skipn k x ++ v) = None)
    as Hin.
  { intros k v Hk. unfold before_digit, m. rewrite heads_stuck_none;
      [reflexivity|].
    unfold never_starts in Hn. rewrite forallb_forall in Hn.
    apply Hn, in_seq. lia. }
  split; [exact Hin|].
  intros u v o len H.
  destruct (Nat.le_gt_cases len (length u)) as [L|L]; [exact L|]. exfalso.
  destruct x as [|x0 x]; [contradiction|].
  destruct u as [|u0 u].
  { pose proof (Hin 0 v ltac:(simpl; lia)) as H0. simpl in H0, H. congruence. }
  apply before_digit_inv in H
    as (h & w1 & e & w2 & d & r & E & Hh & A1 & A2 & He & Hd & -> & -> & _).
  pose proof (before_digit_gap h w1 e w2 Hh A1 A2 He) as T.
  assert (exists z, h ++ w1 ++ e ++ w2 = (u0 :: u) ++ x0 :: z) as [z Hz].
  { replace (h ++ w1 ++ e ++ w2 ++ d :: r)
      with ((h ++ w1 ++ e ++ w2) ++ d :: r) in E
      by (now rewrite <- !app_assoc).
    apply app_eq_split in E as [[t [Et Et']] | [t [_ [Et _]]]].
    - destruct t as [|t0 t].
      + exfalso. rewrite Et, app_nil_r in L. lia.
      + injection Et' as -> _. now exists t.
    - exfalso. apply (f_equal (@length char)) in Et.
      rewrite length_app in Et. lia. }
  rewrite Hz in T. simpl tl in T. rewrite Forall_app in T.
  destruct T as [_ T]. inversion T as [|? ? T0 _]. simpl in Hg. congruence.
Qed.

Lemma before_digit_out (s o : str) (len : nat) :
  before_digit m s = Some (o, len) -> o = out.
Proof using All.
  intros H. now apply before_digit_inv in H
    as (h & w1 & e & w2 & d & r & _ & _ & _ & _ & _ & _ & -> & _).
Qed.

End LookAhead.

(* ---------- blocked words and the rules ---------- *)

Lemma word_safe_inv (w : str) :
  In w blocked_words ->
  inked_ends w = true /\
  forallb (fun c => negb (is_space c)) w = true /\
  clear_of ALL_MAPPINGS w = true /\
  (forall o, In o written_texts -> touches w o = false) /\
  never_starts [ci_p; ci_f] w = true /\
  never_starts [ci_c; ci_o; ci_s] w = true /\
  gap_class [ci_p; ci_f] (hd 0%N w) = false /\
  gap_class [ci_c; ci_o; ci_s] (hd 0%N w) = false.
Proof.
  intros H. pose proof blocked_words_safe as S.
  rewrite forallb_forall in S. specialize (S w H). unfold word_safe in S.
  apply andb_true_iff in S as [S H8]. apply negb_true_iff in H8.
  apply andb_true_iff in S as [S H7]. apply negb_true_iff in H7.
  apply andb_true_iff in S as [S H6].
  apply andb_true_iff in S as [S H5].
  apply andb_true_iff in S as [S H4].
  apply andb_true_iff in S as [S H3].
  apply andb_true_iff in S as [S H2].
  repeat (split; [assumption|]). split; [|auto].
  intros o Ho. rewrite forallb_forall in H4. now apply negb_true_iff, H4.
Qed.

Lemma apply_mappings_no_new (w : str) (table : list (str * str)) (s : str) :
  w <> [] ->
  (forall p o, In (p, o) table -> o <> [] /\ touches w o = false) ->
  occurs w (apply_mappings table s) -> occurs w s.
Proof.
  intros Hw. revert s. induction table as [|[p o] t IH]; intros s H F;
    [exact F|].
  unfold apply_mappings in F. simpl in F.
  apply IH in F; [|intros p' o' Hin; apply (H p' o'); now right].
  rewrite <- (lit_match_fires w []) in F |- *.
  apply (re_sub_no_new (lit_match p o) (lit_match w [])) with (w := []);
    [now apply lit_match_wb | | exact F].
  intros t' out len E. apply lit_match_some in E as [_ [-> _]].
  destruct (H p o (or_introl eq_refl)) as [Ho Ht].
  now apply touches_apart.
Qed.

Lemma in_written (w : str) :
  In w [pf_out; cos_out; [space]] -> In w written_texts.
Proof. intros H. unfold written_texts. apply in_or_app. now right. Qed.

(** Normalising makes no blocked word. *)
Lemma blocked_word_not_made (w t : str) :
  In w blocked_words -> occurs w (normalize_text t) -> occurs w t.
Proof.
  intros Hw F.
  destruct (word_safe_inv w Hw) as (E & _ & _ & T & _).
  destruct (inked_ends_inv w E) as [Hne _].
  pose proof (lit_match_wb w [] Hne) as W.
  rewrite normalize_text_eq in F. apply occurs_strip in F.
  rewrite <- (lit_match_fires w []) in F.
  apply (re_sub_no_new ws_match (lit_match w []) W) with (w := []) in F.
  2:{ intros s out len M. unfold ws_match in M.
      destruct s as [|c s]; [discriminate|].
      destruct (is_space c); [|discriminate]. injection M as <- _.
      apply touches_apart; [discriminate|]. apply T, in_written. simpl. auto. }
  unfold cos_match in F.
  rewrite (re_sub_before_digit _ _ cos_heads_ne cos_no_digit) in F.
  apply (re_sub_no_new _ (lit_match w []) W) with (w := []) in F.
  2:{ intros s out len M.
      apply (before_digit_out _ _ cos_heads_ne cos_no_digit) in M. subst out.
      apply touches_apart; [discriminate|]. apply T, in_written. simpl. auto. }
  unfold pf_match in F.
  rewrite (re_sub_before_digit _ _ pf_heads_ne pf_no_digit) in F.
  apply (re_sub_no_new _ (lit_match w []) W) with (w := []) in F.
  2:{ intros s out len M.
      apply (before_digit_out _ _ pf_heads_ne pf_no_digit) in M. subst out.
      apply touches_apart; [discriminate|]. apply T, in_written. simpl. auto. }
  apply lit_match_fires in F.
  apply apply_mappings_no_new in F; [now apply occurs_strip | exact Hne |].
  intros p o Hin. apply written_mapping in Hin as Ho.
  split; [now apply written_nonempty | now apply T].
Qed.

(** Normalising leaves every blocked word in place. *)
Lemma blocked_word_kept (w u v : str) :
  In w blocked_words ->
  exists u' v', normalize_text (u ++ w ++ v) = u' ++ w ++ v'.
Proof.
  intros Hw.
  destruct (word_safe_inv w Hw) as (E & Hns & C & _ & N1 & N2 & G1 & G2).
  destruct (inked_ends_inv w E) as [Hne [E1 E2]].
  rewrite normalize_text_eq.
  destruct (strip_through w E1 E2 u v) as [a0 [b0 ->]].
  destruct (apply_mappings_through ALL_MAPPINGS w Hne
              (table_touches _ w C) a0 b0) as [a1 [b1 ->]].
  unfold pf_match, cos_match.
  rewrite (re_sub_before_digit _ _ pf_heads_ne pf_no_digit).
  destruct (re_sub_through _ w
              (before_digit_positive _ pf_out pf_heads_ne pf_no_digit)
              (before_digit_apart _ pf_out pf_heads_ne pf_no_digit w Hne G1 N1) a1 b1)
    as [a2 [b2 ->]].
  rewrite (re_sub_before_digit _ _ cos_heads_ne cos_no_digit).
  destruct (re_sub_through _ w
              (before_digit_positive _ cos_out cos_heads_ne cos_no_digit)
              (before_digit_apart _ cos_out cos_heads_ne cos_no_digit w Hne G2 N2) a2 b2)
    as [a3 [b3 ->]].
  destruct (re_sub_through ws_match w ws_match_positive
              (ws_apart w Hne Hns) a3 b3) as [a4 [b4 ->]].
  apply (strip_through w E1 E2).
Qed.

(** X15.  Normalising neither hides nor makes a blocked word: the
    normalised text matches a blocked pattern exactly when the text
    itself does. *)
Theorem normalization_keeps_blocked (t : str) :
  blocked (normalize_text t) <-> blocked t.
Proof.
  rewrite !blocked_iff_word. split.
  - intros [w [Hw F]]. exists w. split; [exact Hw|].
    now apply blocked_word_not_made.
  - intros [w [Hw [u [v ->]]]]. exists w. split; [exact Hw|].
    destruct (blocked_word_kept w u v Hw) as [u' [v' ->]]. now exists u', v'.
Qed.

(** X16.  The inappropriate-content error is reported exactly when the
    request has a text that, as it was sent, matches a blocked
    pattern. *)
Theorem blocked_error_iff_raw (request : InputValidationRequest) :
  In MSG_BLOCKED (errors (validate_input request)) <->
  exists t, text request = Some t /\ blocked t.
Proof.
  rewrite blocked_error_normalized. split; intros [t [Ht B]]; exists t;
    (split; [exact Ht|]).
  - destruct (blocked_iff_word (normalize_text t)) as [I _].
    destruct (I B) as [w [Hw F]]. apply blocked_iff_word. exists w.
    split; [exact Hw | now apply blocked_word_not_made].
  - apply blocked_iff_word in B as [w [Hw [u [v ->]]]].
    apply blocked_iff_word. exists w. split; [exact Hw|].
    destruct (blocked_word_kept w u v Hw) as [u' [v' ->]]. now exists u', v'.
Qed.

(* ================================================================== *)
(** ** Typos, shorthands and what is left of them                   *)
(* ================================================================== *)

(* ---------- typo rules and relevance ---------- *)

(** X17.  A text that holds the misspelt word of power factor or of
    impedance is relevant after normalisation, whatever else it holds:
    the typo rules put the allowed topic in its place.  The misspelt
    words themselves are no topic. *)
Theorem corrected_typo_is_relevant (u v : str) :
  check_relevance (normalize_text (u ++ u8 "역율" ++ v)) = true /\
  check_relevance (normalize_text (u ++ u8 "인피던스" ++ v)) = true /\
  check_relevance (u8 "역율") = false /\
  check_relevance (u8 "인피던스") = false.
Proof.
  assert (forall w s, In w allowed_topics -> occurs w s ->
                      check_relevance s = true) as R.
  { intros w s Hw Ho. unfold check_relevance. apply existsb_exists.
    exists w. split; [exact Hw | now apply contains_iff]. }
  split; [|split; [|split; reflexivity]].
  - destruct (live_rule_carried 16 (u8 "역율") (u8 "역률") eq_refl eq_refl u v)
      as [u' [v' ->]].
    apply (R (u8 "역률")); [|now exists u', v'].
    unfold allowed_topics. simpl. auto 10.
  - destruct (live_rule_carried 18 (u8 "인피던스") (u8 "임피던스")
                eq_refl eq_refl u v) as [u' [v' ->]].
    apply (R (u8 "임피던스")); [|now exists u', v'].
    unfold allowed_topics. simpl. auto 30.
Qed.

(* ---------- a text of shorthand characters and the other rules ---------- *)

Lemma lit_apart_disjoint (p o x : str) :
  p <> [] -> x <> [] -> (forall c, In c x -> ~ In c p) ->
  apart (lit_match p o) x.
Proof.
  intros Hp Hx D. split.
  - intros k v Hk. unfold lit_match.
    destruct (starts_with p (skipn k x ++ v)) eqn:E; [|reflexivity].
    exfalso. apply starts_with_iff in E as [t E].
    destruct p as [|p0 p]; [contradiction|].
    destruct (skipn k x) as [|c r] eqn:S.
    + apply (f_equal (@length char)) in S. rewrite length_skipn in S.
      simpl in S. lia.
    + injection E as -> _. apply (D p0); [|now left].
      rewrite <- (firstn_skipn k x), S. apply in_or_app. right. now left.
  - intros u v out len H. apply lit_match_some in H as [H [_ ->]].
    destruct (Nat.le_gt_cases (length p) (length u)) as [L|L]; [exact L|].
    exfalso. apply starts_with_iff in H as [t H]. symmetry in H.
    apply app_eq_split in H as [[d [-> _]] | [d [Hd [-> H]]]].
    + rewrite length_app in L. lia.
    + destruct x as [|x0 x]; [contradiction|].
      destruct d as [|d0 d]; [contradiction|].
      injection H as -> _. apply (D d0); [now left|].
      apply in_or_app. right. now left.
Qed.

Lemma apply_mappings_through_apart (table : list (str * str)) (x : str) :
  (forall p o, In (p, o) table -> p <> [] /\ apart (lit_match p o) x) ->
  forall a b, exists a' b', apply_mappings table (a ++ x ++ b) = a' ++ x ++ b'.
Proof.
  induction table as [|[p o] t IH]; intros H a b.
  - now exists a, b.
  - unfold apply_mappings. simpl.
    destruct (H p o (or_introl eq_refl)) as [Hp Ha].
    destruct (re_sub_through (lit_match p o) x (lit_match_positive p o Hp)
                Ha a b) as [a1 [b1 ->]].
    apply IH. intros p' o' Hin. apply (H p' o'). now right.
Qed.

Lemma patterns_no_shorthand_char :
  forallb (fun p =>
             forallb (fun c => negb (shorthand_char [ci_p; ci_f] c
                                     || shorthand_char [ci_c; ci_o; ci_s] c))
                     p)
          (map fst ALL_MAPPINGS) = true.
Proof. vm_compute. reflexivity. Qed.

Lemma shorthand_text_chars (hs : list (char -> bool)) (x : str) (d : char) :
  shorthand_text hs x d ->
  Forall (fun c => shorthand_char hs c = true) x.
Proof.
  intros (h & w1 & e & w2 & -> & Hh & A1 & A2 & He & Hd).
  unfold shorthand_char. rewrite !Forall_app. repeat split.
  - clear -Hh. induction Hh as [|g y gs ys Hy _ IH]; constructor.
    + simpl. now rewrite Hy.
    + eapply Forall_impl; [|exact IH]. intros a Ha. simpl.
      apply orb_true_iff in Ha as [Ha|Ha]; [|now rewrite Ha, !orb_true_r].
      apply orb_true_iff in Ha as [Ha|Ha]; [|now rewrite Ha, !orb_true_r].
      apply orb_true_iff in Ha as [Ha|Ha]; [|now rewrite Ha, !orb_true_r].
      now rewrite Ha, !orb_true_r.
  - eapply Forall_impl; [|exact A1]. intros a Ha. simpl in Ha.
    now rewrite Ha, !orb_true_r.
  - destruct He as [[-> _] | ->]; constructor; [|constructor].
    now rewrite orb_true_r.
  - eapply Forall_impl; [|exact A2]. intros a Ha. simpl in Ha.
    now rewrite Ha, !orb_true_r.
  - constructor; [|constructor]. now rewrite Hd, !orb_true_r.
Qed.

Lemma shorthand_text_ne (hs : list (char -> bool)) (x : str) (d : char) :
  shorthand_text hs x d -> x <> [].
Proof.
  intros (h & w1 & e & w2 & -> & _) E.
  apply (f_equal (@length char)) in E. rewrite !length_app in E.
  simpl in E. lia.
Qed.

Lemma literal_apart_shorthand (hs : list (char -> bool)) (x : str) (d : char)
  (p o : str) :
  hs = [ci_p; ci_f] \/ hs = [ci_c; ci_o; ci_s] ->
  shorthand_text hs x d -> In (p, o) ALL_MAPPINGS ->
  p <> [] /\ apart (lit_match p o) x.
Proof.
  intros Hhs Hx Hin.
  destruct (table_ok_inv _ _ Hin) as [Hp _]. split; [exact Hp|].
  apply lit_apart_disjoint; [exact Hp | now apply (shorthand_text_ne hs x d) |].
  intros c Hc Hcp.
  pose proof patterns_no_shorthand_char as T.
  rewrite forallb_forall in T. specialize (T p (in_map fst _ _ Hin)).
  rewrite forallb_forall in T. specialize (T c Hcp).
  apply negb_true_iff, orb_false_iff in T as [T1 T2].
  pose proof (shorthand_text_chars hs x d Hx) as F.
  rewrite Forall_forall in F. specialize (F c Hc).
  destruct Hhs as [-> | ->]; congruence.
Qed.

(* ---------- where a shorthand stands ---------- *)

Lemma shorthand_reach_free (hs : list (char -> bool)) (out x u v o : str)
  (len : nat) :
  hs <> [] -> u <> [] ->
  match x with c :: _ => tail_class hs c = false | [] => False end ->
  shorthand_match hs out (u ++ x ++ v) = Some (o, len) -> len <= length u.
Proof.
  intros Hne Hu Hx H.
  destruct (Nat.le_gt_cases len (length u)) as [L|L]; [exact L|]. exfalso.
  destruct x as [|x0 x]; [contradiction|].
  destruct u as [|u0 u]; [contradiction|].
  apply shorthand_inv in H
      as (h & w1 & e & w2 & d & r & E & Hh & A1 & A2 & He & Hd & -> & ->).
  pose proof (shorthand_tail hs h w1 e w2 d Hne Hh A1 A2 He Hd) as T.
  assert (exists z, h ++ w1 ++ e ++ w2 ++ [d] = (u0 :: u) ++ x0 :: z)
    as [z Hz].
  { replace (h ++ w1 ++ e ++ w2 ++ d :: r)
      with ((h ++ w1 ++ e ++ w2 ++ [d]) ++ r) in E
      by (now rewrite <- !app_assoc).
    apply app_eq_split in E as [[t [Et Et']] | [t [_ [Et _]]]].
    - destruct t as [|t0 t].
      + exfalso. apply (f_equal (@length char)) in Et. list_len.
      + injection Et' as -> _. now exists t.
    - exfalso. apply (f_equal (@length char)) in Et. list_len. }
  rewrite Hz in T. simpl tl in T. rewrite Forall_app in T.
  destruct T as [_ T]. inversion T as [|? ? T0 _]. congruence.
Qed.

Lemma shorthand_text_match (hs : list (char -> bool)) (out x : str) (d : char)
  (b : str) :
  shorthand_text hs x d ->
  shorthand_match hs out (x ++ b) = Some (out ++ [d], length x).
Proof.
  intros (h & w1 & e & w2 & -> & Hh & A1 & A2 & He & Hd).
  replace ((h ++ w1 ++ e ++ w2 ++ [d]) ++ b)
    with (h ++ w1 ++ e ++ w2 ++ d :: b) by (now rewrite <- !app_assoc).
  rewrite (shorthand_intro hs out h w1 e w2 d b Hh A1 A2 He Hd).
  do 2 f_equal. list_len.
Qed.

Lemma shorthand_hit (hs : list (char -> bool)) (out x : str) (d : char) :
  hs <> [] -> shorthand_text hs x d ->
  match x with c :: _ => tail_class hs c = false | [] => False end ->
  forall a b, exists a' b',
    re_sub (shorthand_match hs out) (a ++ x ++ b) = a' ++ (out ++ [d]) ++ b'.
Proof.
  intros Hne Hx Ht a.
  induction a as [a IH] using (induction_ltof1 _ (@length char)).
  unfold ltof in IH. intros b.
  destruct a as [|c a].
  - pose proof (shorthand_text_match hs out x d b Hx) as M.
    destruct x as [|x0 x]; [contradiction|].
    simpl app in M |- *. rewrite (re_sub_some _ _ _ _ _ M).
    now exists [], (re_sub (shorthand_match hs out)
                      (skipn (pred (length (x0 :: x))) (x ++ b))).
  - change ((c :: a) ++ ?t) with (c :: (a ++ t)).
    destruct (shorthand_match hs out (c :: (a ++ x ++ b)))
      as [[o len]|] eqn:E.
    + assert (len <= length (c :: a)) as Hl
        by (apply (shorthand_reach_free hs out x (c :: a) b o len);
            [exact Hne | discriminate | exact Ht | exact E]).
      pose proof (shorthand_positive _ _ _ _ _ E) as Hl'.
      rewrite (re_sub_some _ _ _ _ _ E), skipn_app.
      assert (pred len - length a = 0) as Z by (simpl in Hl; lia).
      rewrite Z, skipn_0.
      destruct (IH (skipn (pred len) a)) with (b := b) as [a' [b' Ha']].
      { rewrite length_skipn. simpl. lia. }
      rewrite Ha'. exists (o ++ a'), b'. apply app_assoc.
    + rewrite (re_sub_none _ _ _ E).
      destruct (IH a) with (b := b) as [a' [b' Ha']]; [simpl; lia|].
      rewrite Ha'. now exists (c :: a'), b'.
Qed.

(* ---------- white space around a text in normal form ---------- *)

Lemma collapse_normal (s b : str) :
  ws_normal s = true ->
  match rev s with c :: _ => is_space c = false | [] => True end ->
  re_sub ws_match (s ++ b) = s ++ re_sub ws_match b.
Proof.
  induction s as [|c s IH]; intros Hn Hl; [reflexivity|].
  simpl in Hn. apply andb_true_iff in Hn as [Hc Hn].
  assert (match rev s with c0 :: _ => is_space c0 = false | [] => True end)
    as Hl'.
  { simpl in Hl. destruct (rev s) as [|y r]; [trivial | exact Hl]. }
  simpl app. destruct (is_space c) eqn:E.
  - apply andb_true_iff in Hc as [Hc Hd]. apply char_eqb_eq in Hc. subst c.
    rewrite (collapse_space _ _ E).
    destruct s as [|y s].
    + simpl in Hl. congruence.
    + apply negb_true_iff in Hd. simpl app.
      rewrite (drop_while_stop _ _ _ Hd). f_equal. now apply IH.
  - rewrite (collapse_other _ _ E). f_equal. now apply IH.
Qed.

Lemma collapse_through_normal (x : str) :
  ws_normal x = true ->
  match x with c :: _ => is_space c = false | [] => False end ->
  match rev x with c :: _ => is_space c = false | [] => True end ->
  forall a b, exists a' b', re_sub ws_match (a ++ x ++ b) = a' ++ x ++ b'.
Proof.
  intros Hn Hh Hl a.
  induction a as [a IH] using (induction_ltof1 _ (@length char)).
  unfold ltof in IH. intros b.
  destruct a as [|c a].
  - exists [], (re_sub ws_match b). simpl app. now apply collapse_normal.
  - change ((c :: a) ++ ?t) with (c :: (a ++ t)).
    destruct (is_space c) eqn:E.
    + rewrite (collapse_space _ _ E).
      destruct (drop_while_through is_space x a b Hh) as [a1 Ha1].
      rewrite Ha1.
      destruct (IH a1) with (b := b) as [a' [b' Ha']].
      { pose proof (drop_while_length is_space (a ++ x ++ b)) as L.
        rewrite Ha1 in L. rewrite !length_app in L. simpl. lia. }
      rewrite Ha'. now exists (space :: a'), b'.
    + rewrite (collapse_other _ _ E).
      destruct (IH a) with (b := b) as [a' [b' Ha']]; [simpl; lia|].
      rewrite Ha'. now exists (c :: a'), b'.
Qed.

(* ---------- the two shorthands, where they stand ---------- *)

Lemma ci_cases (l : list char) (c : char) : ci l c = true -> In c l.
Proof.
  unfold ci. intros H. apply existsb_exists in H as [x [Hx E]].
  apply char_eqb_eq in E. now subst.
Qed.

Lemma shorthand_text_ends (hs : list (char -> bool)) (x : str) (d : char) :
  Forall (fun f : char -> bool => forall c, f c = true -> is_space c = false) hs ->
  hs <> [] -> shorthand_text hs x d ->
  match x with c :: _ => is_space c = false | [] => False end /\
  match rev x with c :: _ => is_space c = false | [] => False end.
Proof.
  intros Hns Hne (h & w1 & e & w2 & -> & Hh & _ & _ & _ & Hd). split.
  - destruct Hh as [|f c fs h' Hc Hh]; [contradiction|]. simpl.
    inversion Hns as [|? ? Hf _]. now apply Hf.
  - replace (h ++ w1 ++ e ++ w2 ++ [d]) with ((h ++ w1 ++ e ++ w2) ++ [d])
      by (now rewrite <- !app_assoc).
    rewrite rev_app_distr. simpl. now apply digit_not_space.
Qed.

Lemma pf_text_head (x : str) (d : char) :
  shorthand_text [ci_p; ci_f] x d ->
  match x with c :: _ => tail_class [ci_p; ci_f] c = false | [] => False end.
Proof.
  intros (h & w1 & e & w2 & -> & Hh & _).
  inversion Hh as [|f c fs h' Hc _]; subst. simpl.
  apply ci_cases in Hc. simpl in Hc.
  destruct Hc as [<- | [<- | []]]; reflexivity.
Qed.

Lemma cos_text_head (x : str) (d : char) :
  shorthand_text [ci_c; ci_o; ci_s] x d ->
  match x with
  | c :: _ => tail_class [ci_c; ci_o; ci_s] c = false
              /\ tail_class [ci_p; ci_f] c = false
  | [] => False
  end.
Proof.
  intros (h & w1 & e & w2 & -> & Hh & _).
  inversion Hh as [|f c fs h' Hc _]; subst. simpl.
  apply ci_cases in Hc. simpl in Hc.
  destruct Hc as [<- | [<- | []]]; split; reflexivity.
Qed.

(** No character of a cosine shorthand can start a power-factor one. *)
Lemma cos_char_not_p (c : char) :
  shorthand_char [ci_c; ci_o; ci_s] c = true -> ci_p c = false.
Proof.
  unfold shorthand_char. simpl. rewrite !orb_true_iff.
  intros [[[[H | [H | [H | H]]] | H] | H] | H]; try discriminate.
  - apply ci_cases in H. simpl in H.
    destruct H as [<- | [<- | []]]; reflexivity.
  - apply ci_cases in H. simpl in H.
    destruct H as [<- | [<- | []]]; reflexivity.
  - apply ci_cases in H. simpl in H.
    destruct H as [<- | [<- | [<- | []]]]; reflexivity.
  - apply is_space_in in H. unfold whitespace_chars in H. simpl in H.
    repeat (destruct H as [<- | H]; [reflexivity|]). destruct H.
  - apply char_eqb_eq in H. now subst.
  - now apply digit_not_ci.
Qed.

Lemma pf_apart_cos_text (x : str) (d : char) :
  shorthand_text [ci_c; ci_o; ci_s] x d -> apart pf_match x.
Proof.
  intros Hx. pose proof (shorthand_text_chars _ _ _ Hx) as F.
  rewrite Forall_forall in F.
  pose proof (cos_text_head x d Hx) as Hh.
  split.
  - intros k v Hk. destruct (skipn k x) as [|c r] eqn:S.
    + apply (f_equal (@length char)) in S. rewrite length_skipn in S.
      simpl in S. lia.
    + simpl. apply shorthand_not_digit. apply cos_char_not_p, F.
      rewrite <- (firstn_skipn k x), S. apply in_or_app. right. now left.
  - intros u v o len H. destruct u as [|u0 u].
    + exfalso. destruct x as [|c x]; [contradiction|]. simpl in H.
      unfold pf_match in H. rewrite shorthand_not_digit in H; [discriminate|].
      apply cos_char_not_p, F. now left.
    + apply (shorthand_reach_free [ci_p; ci_f] pf_out x (u0 :: u) v o len);
        [discriminate | discriminate | | exact H].
      destruct x as [|c x]; [contradiction | now destruct Hh].
Qed.

Lemma cos_apart_pf_out : apart cos_match pf_out.
Proof.
  apply never_starts_apart; [discriminate | discriminate | reflexivity
                            | reflexivity].
Qed.

Lemma written_shorthand_normal (o : str) (d : char) :
  o = pf_out \/ o = cos_out -> is_digit d = true ->
  ws_normal (o ++ [d]) = true /\
  match o ++ [d] with c :: _ => is_space c = false | [] => False end /\
  match rev (o ++ [d]) with c :: _ => is_space c = false | [] => False end.
Proof.
  intros Ho Hd. pose proof (digit_not_space d Hd) as Hs.
  destruct Ho as [-> | ->]; (split; [|split]);
    rewrite ?rev_app_distr; simpl; rewrite ?Hs; reflexivity.
Qed.

(** X18.  A power-factor shorthand ([pf], in either case, then white
    space, at most one [=] with white space after it, and a digit) is
    rewritten wherever it stands: the normalised text holds the word of
    power factor, a space and the digit. *)
Theorem pf_shorthand_rewritten (x : str) (d : char) (u v : str) :
  shorthand_text [ci_p; ci_f] x d ->
  exists u' v',
    normalize_text (u ++ x ++ v) = u' ++ (u8 "역률 " ++ [d]) ++ v'.
Proof.
  intros Hx.
  destruct (shorthand_text_ends _ x d pf_heads_not_space pf_heads_ne Hx)
    as [E1 E2].
  rewrite normalize_text_eq.
  destruct (strip_through x E1 E2 u v) as [a0 [b0 ->]].
  destruct (apply_mappings_through_apart ALL_MAPPINGS x
              (fun p o Hin => literal_apart_shorthand _ x d p o
                                (or_introl eq_refl) Hx Hin) a0 b0)
    as [a1 [b1 ->]].
  destruct (shorthand_hit [ci_p; ci_f] pf_out x d pf_heads_ne Hx
              (pf_text_head x d Hx) a1 b1) as [a2 [b2 E]].
  unfold pf_match at 1. rewrite E.
  assert (is_digit d = true) as Hd
    by (destruct Hx as (? & ? & ? & ? & _ & _ & _ & _ & _ & Hd); exact Hd).
  destruct (re_sub_through cos_match (pf_out ++ [d]) (shorthand_positive _ _)
              (apart_snoc _ _ d cos_apart_pf_out
                 (fun v0 => cos_no_digit d v0 Hd)) a2 b2) as [a3 [b3 ->]].
  destruct (written_shorthand_normal pf_out d (or_introl eq_refl) Hd)
    as [N [H1 H2]].
  destruct (collapse_through_normal (pf_out ++ [d]) N H1
              ltac:(destruct (rev (pf_out ++ [d])); [trivial | exact H2])
              a3 b3) as [a4 [b4 ->]].
  apply (strip_through (pf_out ++ [d]) H1 H2).
Qed.

Lemma pf_shorthand_rewritten_witness :
  exists u' v',
    normalize_text (u8 "부하 " ++ u8 "PF = 0" ++ u8 ".8 역율")
    = u' ++ (u8 "역률 " ++ [48%N]) ++ v'.
Proof.
  apply (pf_shorthand_rewritten (u8 "PF = 0") 48%N (u8 "부하 ")
           (u8 ".8 역율")).
  exists (u8 "PF"), [space], [equals_sign], [space].
  split; [reflexivity|]. split; [repeat constructor|].
  split; [repeat constructor|]. split; [repeat constructor|].
  split; [right; reflexivity | reflexivity].
Defined.

(** X19.  A cosine shorthand ([cos], in either case, then white space,
    at most one [=] with white space after it, and a digit) is rewritten
    wherever it stands: the normalised text holds [cos], theta, [ = ]
    and the digit. *)
Theorem cos_shorthand_rewritten (x : str) (d : char) (u v : str) :
  shorthand_text [ci_c; ci_o; ci_s] x d ->
  exists u' v',
    normalize_text (u ++ x ++ v) = u' ++ (u8 "cosθ = " ++ [d]) ++ v'.
Proof.
  intros Hx.
  destruct (shorthand_text_ends _ x d cos_heads_not_space cos_heads_ne Hx)
    as [E1 E2].
  rewrite normalize_text_eq.
  destruct (strip_through x E1 E2 u v) as [a0 [b0 ->]].
  destruct (apply_mappings_through_apart ALL_MAPPINGS x
              (fun p o Hin => literal_apart_shorthand _ x d p o
                                (or_intror eq_refl) Hx Hin) a0 b0)
    as [a1 [b1 ->]].
  destruct (re_sub_through pf_match x (shorthand_positive _ _)
              (pf_apart_cos_text x d Hx) a1 b1) as [a2 [b2 ->]].
  assert (match x with
          | c :: _ => tail_class [ci_c; ci_o; ci_s] c = false
          | [] => False
          end) as Ht.
  { pose proof (cos_text_head x d Hx) as H. destruct x; [exact H | apply H]. }
  destruct (shorthand_hit [ci_c; ci_o; ci_s] cos_out x d cos_heads_ne Hx
              Ht a2 b2) as [a3 [b3 E]].
  unfold cos_match. rewrite E.
  assert (is_digit d = true) as Hd
    by (destruct Hx as (? & ? & ? & ? & _ & _ & _ & _ & _ & Hd); exact Hd).
  destruct (written_shorthand_normal cos_out d (or_intror eq_refl) Hd)
    as [N [H1 H2]].
  destruct (collapse_through_normal (cos_out ++ [d]) N H1
              ltac:(destruct (rev (cos_out ++ [d])); [trivial | exact H2])
              a3 b3) as [a4 [b4 ->]].
  apply (strip_through (cos_out ++ [d]) H1 H2).
Qed.

Lemma cos_shorthand_rewritten_witness :
  exists u' v',
    normalize_text (u8 "역률 " ++ u8 "Cos  9" ++ u8 "5%")
    = u' ++ (u8 "cosθ = " ++ [57%N]) ++ v'.
Proof.
  apply (cos_shorthand_rewritten (u8 "Cos  9") 57%N (u8 "역률 ") (u8 "5%")).
  exists (u8 "Cos"), [space; space], [], [].
  split; [reflexivity|]. split; [repeat constructor|].
  split; [repeat constructor|]. split; [repeat constructor|].
  split; [left; split; reflexivity | reflexivity].
Defined.

Lemma shorthand_text_fires (hs : list (char -> bool)) (out x : str) (d : char)
  (s : str) :
  shorthand_text hs x d -> occurs x s -> fires (shorthand_match hs out) s.
Proof.
  intros Hx [u [v ->]]. exists u, (x ++ v). split; [reflexivity|].
  now rewrite (shorthand_text_match hs out x d v Hx).
Qed.

(** X20.  A normalised text holds nothing the rules rewrite: no word
    of the unit and typo tables, no power-factor shorthand and no cosine
    shorthand. *)
Theorem normalized_has_no_rule_word (x : str) :
  (forall p o, In (p, o) (UNIT_MAPPINGS ++ TYPO_MAPPINGS) ->
     ~ occurs p (normalize_text x)) /\
  (forall w d, shorthand_text [ci_p; ci_f] w d ->
     ~ occurs w (normalize_text x)) /\
  (forall w d, shorthand_text [ci_c; ci_o; ci_s] w d ->
     ~ occurs w (normalize_text x)).
Proof.
  split; [|split].
  - intros p o. apply normalized_no_literal.
  - intros w d Hw F. apply (normalized_no_pf x).
    exact (shorthand_text_fires _ pf_out w d _ Hw F).
  - intros w d Hw F. apply (normalized_no_cos x).
    exact (shorthand_text_fires _ cos_out w d _ Hw F).
Qed.
